(** * Interval analysis of [range_analysis.py]: a shallow embedding

    The Python module [src/python_module/interval_analysis/range_analysis.py]
    implements an interval abstract interpreter over Slither's IR:
    the class [Interval] (the value lattice) and the class
    [DeFiRangeAnalyzer] (transfer functions, condition refinement,
    worklist driver, bounds checker).  This file embeds both classes as
    Rocq functions and states the properties of the specification over
    them.

    Conventions of the embedding.
    - Python integers are unbounded: [Z].  The resource limits of an
      interpreter (memory, the configurable cap on the number of digits
      that [int] and [str] convert) are not part of the embedding.
    - A bound of an interval is [None], an [int], or an infinite float.
      Every [Interval(...)] call of the module passes, as [min_val], a
      value computed from integers and lower bounds, and as [max_val] a
      value computed from integers and upper bounds; [float('-inf')] is
      only ever stored in [min_val] and [float('inf')] only in [max_val].
      The two fields therefore have the types [option lower] and
      [option upper], and no [nan] (inf - inf) is ever stored.
    - [self._tracked_vars] is a [gmap] from variables to intervals,
      together with the list of its keys in the order of insertion; the
      analyzer object is a record threaded through the handlers, and code
      that can raise returns an [outcome].
    - An arithmetic operation on an infinite float and an [int] converts
      the [int] to a float and raises [OverflowError] when the [int] is
      too large for a float; comparisons convert nothing.
    - The text of a message (an f-string) is a constructor carrying the
      values the f-string interpolates. *)

From Stdlib Require Import ZArith Lia ZifyBool Bool QArith Ascii String.
From stdpp Require Import base option list strings gmap fin_maps.

Local Open Scope Z_scope.

(** ** Python numbers *)

(** An [int] or an infinite float; used to compare bounds of either side. *)
Inductive num : Type :=
| NegInf
| Fin (z : Z)
| PosInf.

(** What [min_val] holds when it is not [None]. *)
Inductive lower : Type :=
| LNegInf
| LFin (z : Z).

(** What [max_val] holds when it is not [None]. *)
Inductive upper : Type :=
| UFin (z : Z)
| UPosInf.

#[global] Instance num_eq_dec : EqDecision num.
Proof. solve_decision. Defined.
#[global] Instance lower_eq_dec : EqDecision lower.
Proof. solve_decision. Defined.
#[global] Instance upper_eq_dec : EqDecision upper.
Proof. solve_decision. Defined.

Definition lnum (l : lower) : num :=
  match l with LNegInf => NegInf | LFin z => Fin z end.

Definition unum (u : upper) : num :=
  match u with UFin z => Fin z | UPosInf => PosInf end.

(** [a == b] *)
Definition num_eqb (a b : num) : bool :=
  match a, b with
  | NegInf, NegInf => true
  | PosInf, PosInf => true
  | Fin x, Fin y => x =? y
  | _, _ => false
  end.

(** [a < b] *)
Definition num_ltb (a b : num) : bool :=
  match a, b with
  | NegInf, NegInf => false
  | NegInf, _ => true
  | Fin _, NegInf => false
  | Fin x, Fin y => x <? y
  | Fin _, PosInf => true
  | PosInf, _ => false
  end.

Definition num_leb (a b : num) : bool := num_ltb a b || num_eqb a b.
Definition num_gtb (a b : num) : bool := num_ltb b a.
Definition num_geb (a b : num) : bool := num_leb b a.

(** The builtins [min(a, b)] and [max(a, b)]: the first argument is
    returned unless the second is strictly smaller (resp. larger).
    [key] reads the number out of a bound of one side. *)
Definition py_min {A : Type} (key : A -> num) (a b : A) : A :=
  if num_ltb (key b) (key a) then b else a.

Definition py_max {A : Type} (key : A -> num) (a b : A) : A :=
  if num_gtb (key b) (key a) then b else a.

(** [min(xs)] and [max(xs)] over a sequence; [None] stands for the
    [ValueError] raised on an empty one. *)
Definition py_min_seq {A : Type} (key : A -> num) (xs : list A) : option A :=
  match xs with
  | [] => None
  | x :: r => Some (fold_left (py_min key) r x)
  end.

Definition py_max_seq {A : Type} (key : A -> num) (xs : list A) : option A :=
  match xs with
  | [] => None
  | x :: r => Some (fold_left (py_max key) r x)
  end.

(** [min] and [max] of a non-empty list of integers, given its head. *)
Definition Zmin_list (x : Z) (r : list Z) : Z := fold_left Z.min r x.
Definition Zmax_list (x : Z) (r : list Z) : Z := fold_left Z.max r x.

(** [u + k] and [l + k] for an integer literal [k]. *)
Definition upper_addZ (u : upper) (k : Z) : upper :=
  match u with UFin x => UFin (x + k) | UPosInf => UPosInf end.

Definition lower_addZ (l : lower) (k : Z) : lower :=
  match l with LFin x => LFin (x + k) | LNegInf => LNegInf end.

(** [-u] *)
Definition upper_neg (u : upper) : lower :=
  match u with UFin x => LFin (- x) | UPosInf => LNegInf end.

(** ** Bounds and intervals *)

(** [a == b] on bounds: [None == None] holds, [None] equals no number. *)
Definition bound_eqb {A : Type} (key : A -> num) (a b : option A) : bool :=
  match a, b with
  | None, None => true
  | Some x, Some y => num_eqb (key x) (key y)
  | _, _ => false
  end.

(** [f(a, b) if (a is not None and b is not None) else None] *)
Definition both_or_None {A : Type} (f : A -> A -> A) (a b : option A) : option A :=
  match a, b with
  | Some x, Some y => Some (f x y)
  | _, _ => None
  end.

(** class Interval: the call [Interval(min_val, max_val)] is [mk_Interval]. *)
Record Interval : Type := mk_Interval {
  min_val : option lower;
  max_val : option upper
}.

#[global] Instance Interval_eq_dec : EqDecision Interval.
Proof. solve_decision. Defined.

(** [Interval()] *)
Definition Interval_empty : Interval := mk_Interval None None.

(** [Interval(a, b)] for two integers. *)
Definition Interval_Z (a b : Z) : Interval :=
  mk_Interval (Some (LFin a)) (Some (UFin b)).

(** [Interval(float('-inf'), float('inf'))] *)
Definition Interval_top : Interval :=
  mk_Interval (Some LNegInf) (Some UPosInf).

(** The two flags computed by [__init__].  No code assigns the flags or
    the bounds afterwards, so the flags are functions of the bounds. *)
Definition is_bottom (i : Interval) : bool :=
  match min_val i, max_val i with
  | None, None => true
  | _, _ => false
  end.

Definition is_top (i : Interval) : bool :=
  match min_val i, max_val i with
  | Some LNegInf, Some UPosInf => true
  | _, _ => false
  end.

(** Interval.join ([copy.deepcopy] of an immutable value is the value) *)
Definition join (self other : Interval) : Interval :=
  if is_bottom self then other
  else if is_bottom other then self
  else if is_top self || is_top other then Interval_top
  else
    let new_min := both_or_None (py_min lnum) (min_val self) (min_val other) in
    let new_max := both_or_None (py_max unum) (max_val self) (max_val other) in
    mk_Interval new_min new_max.

(** Interval.meet *)
Definition meet (self other : Interval) : Interval :=
  if is_bottom self || is_bottom other then Interval_empty
  else if is_top self then other
  else if is_top other then self
  else
    let new_min := both_or_None (py_max lnum) (min_val self) (min_val other) in
    let new_max := both_or_None (py_min unum) (max_val self) (max_val other) in
    match new_min, new_max with
    | Some lo, Some hi =>
        if num_gtb (lnum lo) (unum hi) then Interval_empty
        else mk_Interval new_min new_max
    | _, _ => mk_Interval new_min new_max
    end.

(** Interval.widen *)
Definition widen (self other : Interval) : Interval :=
  if is_bottom self then other
  else if is_bottom other then self
  else
    let new_min :=
      match min_val other, min_val self with
      | Some o, Some s =>
          if num_ltb (lnum o) (lnum s) then Some LNegInf else min_val self
      | _, _ => min_val self
      end in
    let new_max :=
      match max_val other, max_val self with
      | Some o, Some s =>
          if num_gtb (unum o) (unum s) then Some UPosInf else max_val self
      | _, _ => max_val self
      end in
    mk_Interval new_min new_max.

(** Interval.narrow *)
Definition narrow (self other : Interval) : Interval :=
  if is_bottom self || is_bottom other then Interval_empty
  else
    let new_min :=
      match min_val self with
      | Some LNegInf => min_val other
      | _ => min_val self
      end in
    let new_max :=
      match max_val self with
      | Some UPosInf => max_val other
      | _ => max_val self
      end in
    mk_Interval new_min new_max.

(** Interval.__eq__ (both arguments are intervals) *)
Definition Interval_eq (self other : Interval) : bool :=
  (is_bottom self && is_bottom other)
  || (is_top self && is_top other)
  || (bound_eqb lnum (min_val self) (min_val other)
      && bound_eqb unum (max_val self) (max_val other)).

(** Interval.is_subset *)
Definition is_subset (self other : Interval) : bool :=
  if is_bottom self then true
  else if is_bottom other then false
  else if is_top other then true
  else if is_top self then false
  else
    let min_cond :=
      match min_val other with
      | None => true
      | Some o =>
          match min_val self with
          | Some s => num_geb (lnum s) (lnum o)
          | None => false
          end
      end in
    let max_cond :=
      match max_val other with
      | None => true
      | Some o =>
          match max_val self with
          | Some s => num_leb (unum s) (unum o)
          | None => false
          end
      end in
    min_cond && max_cond.

(** ** Strings: the [str] methods and the regular expressions used

    A character is a code point below 256 (Latin-1), which covers the
    identifiers, type names and literals of the front end; the string
    methods below are the Python ones on these characters. *)

Definition ascii_code (c : ascii) : Z := Z.of_nat (nat_of_ascii c).

(** [c.lower()]: the letters [A-Z] and the accented capitals
    [0xC0-0xDE] (the multiplication sign [0xD7] is no letter) have their
    lower-case form 32 places further. *)
Definition ascii_lower (c : ascii) : ascii :=
  let n := ascii_code c in
  if ((65 <=? n) && (n <=? 90))
     || ((192 <=? n) && (n <=? 222) && negb (n =? 215))
  then ascii_of_nat (Z.to_nat (n + 32)) else c.

(** [s.lower()] *)
Fixpoint lower_str (s : string) : string :=
  match s with
  | EmptyString => EmptyString
  | String c r => String (ascii_lower c) (lower_str r)
  end.

(** [Some rest] when [s = p ++ rest]. *)
Fixpoint strip_prefix (p s : string) : option string :=
  match p with
  | EmptyString => Some s
  | String a p' =>
      match s with
      | EmptyString => None
      | String b s' => if Ascii.eqb a b then strip_prefix p' s' else None
      end
  end.

(** [s.startswith(p)] *)
Definition startswith (s p : string) : bool :=
  match strip_prefix p s with Some _ => true | None => false end.

(** [p in s] for two strings. *)
Fixpoint str_in (p s : string) : bool :=
  startswith s p ||
  match s with
  | EmptyString => false
  | String _ r => str_in p r
  end.

(** [any(p in s for p in patterns)] *)
Definition any_in (patterns : list string) (s : string) : bool :=
  existsb (fun p => str_in p s) patterns.

(** [x in [...]] for a list of string literals. *)
Definition str_mem (x : string) (l : list string) : bool :=
  existsb (String.eqb x) l.

Definition digit_value (c : ascii) : option Z :=
  let n := ascii_code c in
  if (48 <=? n) && (n <=? 57) then Some (n - 48) else None.

Definition hex_value (c : ascii) : option Z :=
  let n := ascii_code c in
  if (48 <=? n) && (n <=? 57) then Some (n - 48)
  else if (97 <=? n) && (n <=? 102) then Some (n - 87)
  else if (65 <=? n) && (n <=? 70) then Some (n - 55)
  else None.

Definition is_digit (c : ascii) : bool :=
  match digit_value c with Some _ => true | None => false end.

(** [c.isdigit()]: the decimal digits and the superscript digits
    [0xB2], [0xB3] and [0xB9], which [int] does not accept. *)
Definition char_isdigit (c : ascii) : bool :=
  let n := ascii_code c in
  ((48 <=? n) && (n <=? 57)) || (n =? 178) || (n =? 179) || (n =? 185).

Fixpoint all_digits (s : string) : bool :=
  match s with
  | EmptyString => true
  | String c r => char_isdigit c && all_digits r
  end.

(** [s.isdigit()] *)
Definition isdigit (s : string) : bool :=
  match s with
  | EmptyString => false
  | _ => all_digits s
  end.

Fixpoint parse_digits (value_of : ascii -> option Z) (base acc : Z) (s : string)
  : option Z :=
  match s with
  | EmptyString => Some acc
  | String c r =>
      match value_of c with
      | Some d => parse_digits value_of base (acc * base + d) r
      | None => None
      end
  end.

(** The blanks that [int] skips on both sides of a literal. *)
Definition is_space (c : ascii) : bool :=
  let n := ascii_code c in
  ((9 <=? n) && (n <=? 13)) || (n =? 32) || (n =? 133) || (n =? 160).

Fixpoint lstrip (s : string) : string :=
  match s with
  | EmptyString => EmptyString
  | String c r => if is_space c then lstrip r else s
  end.

Fixpoint rstrip (s : string) : string :=
  match s with
  | EmptyString => EmptyString
  | String c r =>
      match rstrip r with
      | EmptyString => if is_space c then EmptyString else String c EmptyString
      | r' => String c r'
      end
  end.

(** [s.strip()] on these blanks. *)
Definition strip (s : string) : string := rstrip (lstrip s).

(** The digits of a literal: groups of digits separated by single
    underscores.  [after_digit] tells whether the character before was a
    digit: an underscore is accepted only then, and the literal must end
    on a digit. *)
Fixpoint parse_groups (value_of : ascii -> option Z) (base acc : Z)
    (after_digit : bool) (s : string) : option Z :=
  match s with
  | EmptyString => if after_digit then Some acc else None
  | String c r =>
      if Ascii.eqb c "_" then
        if after_digit then parse_groups value_of base acc false r else None
      else
        match value_of c with
        | Some d => parse_groups value_of base (acc * base + d) true r
        | None => None
        end
  end.

Definition parse_number (value_of : ascii -> option Z) (base : Z) (s : string)
  : option Z :=
  parse_groups value_of base 0 false s.

(** An optional sign in front of a literal. *)
Definition split_sign (s : string) : Z * string :=
  match s with
  | String "-"%char r => (-1, r)
  | String "+"%char r => (1, r)
  | _ => (1, s)
  end.

(** [int(s)]: [None] is the [ValueError].  Blanks on both sides, an
    optional sign, and decimal digits in groups. *)
Definition py_int (s : string) : option Z :=
  let '(sg, r) := split_sign (strip s) in
  z ← parse_number digit_value 10 r; Some (sg * z).

(** [int(s, 16)]: blanks on both sides, an optional sign, an optional
    prefix [0x] or [0X] that one underscore may follow, and hexadecimal
    digits in groups. *)
Definition py_int16 (s : string) : option Z :=
  let '(sg, r) := split_sign (strip s) in
  let after_prefix (b : string) :=
    match b with
    | String "_"%char b' => b'
    | _ => b
    end in
  let body :=
    match strip_prefix "0x" r with
    | Some b => after_prefix b
    | None =>
        match strip_prefix "0X" r with
        | Some b => after_prefix b
        | None => r
        end
    end in
  z ← parse_number hex_value 16 body; Some (sg * z).

(** The leading digits of [s]. *)
Fixpoint take_digits (s : string) : string :=
  match s with
  | EmptyString => EmptyString
  | String c r => if is_digit c then String c (take_digits r) else EmptyString
  end.

(** [re.search(kw + r"(\d+)", s)] and its [group(1)]: the leftmost
    occurrence of [kw] that is followed by a digit, with all the digits
    that follow it. *)
Fixpoint re_search_digits (kw s : string) : option string :=
  let here :=
    match strip_prefix kw s with
    | Some rest =>
        match take_digits rest with
        | EmptyString => None
        | d => Some d
        end
    | None => None
    end in
  match here with
  | Some d => Some d
  | None =>
      match s with
      | EmptyString => None
      | String _ r => re_search_digits kw r
      end
  end.

(** [int(re.search(kw(\d+), t).group(1)) if re.search(kw(\d+), t) else 256] *)
Definition type_bits (kw type_str : string) : Z :=
  match re_search_digits kw type_str with
  | Some d => default 0 (parse_digits digit_value 10 0 d)
  | None => 256
  end.

(** ** The IR of the front end (Slither), as far as the analyzer reads it *)

(** The classes a variable is tested against with [isinstance]. *)
Inductive var_class : Type :=
| LocalVariable
| TemporaryVariable
| StateVariable
| ReferenceVariable
| OtherVariable.

(** A variable object.  [var_id] stands for the identity of the object
    (variables are dictionary keys hashed by identity), [var_name] is
    [str(variable)] and [var_type] is [str(variable.type)], [None] when
    the object has no attribute [type]. *)
Record variable : Type := mk_variable {
  var_id : positive;
  var_name : string;
  var_type : option string;
  var_cls : var_class
}.

(** The [value] of a [Constant]: an [int] (a [bool] is an [int]), a
    [str], or something else. *)
Inductive cvalue : Type :=
| CInt (z : Z)
| CStr (s : string)
| COther.

(** An operand of an instruction: a variable or a [Constant].  A
    [Constant] is never a key of [_tracked_vars]: it is the target of no
    instruction and equal to no variable. *)
Inductive operand : Type :=
| OVar (v : variable)
| OConst (c : cvalue).

(** The callee of a call: [function.name], [function.contract.name] when
    there is an attribute [contract], and [str(function.return_type)]
    when that attribute exists and is not empty. *)
Record callee : Type := mk_callee {
  fn_name : string;
  fn_contract : option string;
  fn_return_type : option string
}.

(** The instructions [_process_ir] dispatches on.  [Member] carries
    [str(ir.variable_left)] and [str(ir.variable_right)].  [HighLevelCall]
    is any other instruction with the attributes [function], [lvalue] and
    [arguments]; [OtherIr] is any remaining instruction (a [Unary], for
    instance), with its [lvalue] and its [rvalue] when it has these
    attributes. *)
Inductive ir : Type :=
| Binary (lvalue : variable) (type_str : string)
    (variable_left variable_right : operand)
| Assignment (lvalue : variable) (rvalue : operand)
| TypeConversion (lvalue : variable) (source : operand)
| Member (lvalue : variable) (variable_left variable_right : string)
| SolidityCall (lvalue : variable) (function : callee) (arguments : list operand)
| HighLevelCall (lvalue : variable) (function : callee) (arguments : list operand)
| OtherIr (lvalue : option variable) (rvalue : option operand).

(** [node.expression] when it is a [Binary]: operator and operands. *)
Record condition : Type := mk_condition {
  cond_op : string;
  cond_left : operand;
  cond_right : operand
}.

(** A CFG node.  [sons] lists the successors by [node_id]; in a CFG
    built by the front end every successor is a node of the function. *)
Record node : Type := mk_node {
  node_id : nat;
  irs : list ir;
  sons : list nat;
  contains_if : bool;
  expression : option condition
}.

Record function : Type := mk_function {
  f_id : positive;
  f_name : string;
  is_constructor : bool;
  parameters : list variable;
  returns : list variable;
  nodes : list node
}.

(** A contract: its name, functions, the names of its base contracts and
    of its state variables, and the answers of [is_erc20()] and
    [is_erc721()] when the object has these methods. *)
Record contract : Type := mk_contract {
  c_name : string;
  functions : list function;
  inheritance : list string;
  state_variables : list string;
  is_erc20 : option bool;
  is_erc721 : option bool
}.

Record compilation_unit : Type := mk_compilation_unit {
  contracts_derived : list contract
}.

#[global] Instance var_class_eq_dec : EqDecision var_class.
Proof. solve_decision. Defined.

Definition var_class_code (k : var_class) : nat :=
  match k with
  | LocalVariable => 0
  | TemporaryVariable => 1
  | StateVariable => 2
  | ReferenceVariable => 3
  | OtherVariable => 4
  end%nat.

Definition var_class_of_code (n : nat) : var_class :=
  match n with
  | 0 => LocalVariable
  | 1 => TemporaryVariable
  | 2 => StateVariable
  | 3 => ReferenceVariable
  | _ => OtherVariable
  end%nat.

#[global] Instance var_class_countable : Countable var_class.
Proof.
  apply (inj_countable' var_class_code var_class_of_code).
  intros []; reflexivity.
Defined.

#[global] Instance variable_eq_dec : EqDecision variable.
Proof. solve_decision. Defined.

#[global] Instance variable_countable : Countable variable.
Proof.
  apply (inj_countable'
           (fun v => (var_id v, var_name v, var_type v, var_cls v))
           (fun t => match t with (i, n, ty, k) => mk_variable i n ty k end)).
  intros []; reflexivity.
Defined.

#[global] Instance cvalue_eq_dec : EqDecision cvalue.
Proof. solve_decision. Defined.
#[global] Instance operand_eq_dec : EqDecision operand.
Proof. solve_decision. Defined.

(** ** The analyzer object *)

(** The messages appended to [self._potential_issues], one constructor
    per f-string, with the values it interpolates. *)
Inductive issue : Type :=
| DivZeroRisk (right_interval : Interval)
| DivZeroError
| ModZeroRisk (right_interval : Interval)
| ModZeroError
| AddOverflow (result_var : variable) (left_interval right_interval : Interval)
| SubUnderflow (result_var : variable) (left_interval right_interval : Interval)
| MulOverflow (result_var : variable) (left_interval right_interval : Interval)
| PowOverflow (result_var : variable) (left_interval right_interval : Interval)
| PotentialDivZero (result_var : variable) (left_var : operand)
    (right_interval : Interval).

(** The entry of [self._function_summaries] for one function. *)
Record summary : Type := mk_summary {
  summary_params : list (variable * Interval);
  summary_return : list (variable * Interval)
}.

(** The mutable fields of a [DeFiRangeAnalyzer].  The dictionary
    [self._tracked_vars] yields its keys in the order in which they were
    first inserted: [_tracked_vars] is the mapping and [_tracked_keys]
    the keys in that order.  [_safemath_processed] is [None] until the
    attribute is created.  The configuration fields are constants,
    below. *)
Record analyzer : Type := mk_analyzer {
  _tracked_vars : gmap variable Interval;
  _tracked_keys : list variable;
  _function_summaries : gmap positive summary;
  _potential_issues : list issue;
  _safemath_processed : option (gset variable)
}.

Definition _widening_threshold : nat := 3.
Definition _narrowing_iterations : nat := 2.
Definition _max_iterations : nat := 20.
Definition _worklist_batch_size : nat := 5.

(** The analyzer after [__init__]. *)
Definition analyzer_init : analyzer :=
  mk_analyzer ∅ [] ∅ [] None.

(** New values for the keys the dictionary has. *)
Definition set_tracked (m : gmap variable Interval) (a : analyzer) : analyzer :=
  mk_analyzer m (_tracked_keys a) (_function_summaries a) (_potential_issues a)
    (_safemath_processed a).

(** [self._tracked_vars = {}] *)
Definition reset_tracked (a : analyzer) : analyzer :=
  mk_analyzer ∅ [] (_function_summaries a) (_potential_issues a)
    (_safemath_processed a).

(** The keys after [self._tracked_vars[v] = ...]: a new key comes last,
    a key that is present keeps its place. *)
Definition keys_with (v : variable) (a : analyzer) : list variable :=
  match _tracked_vars a !! v with
  | Some _ => _tracked_keys a
  | None => _tracked_keys a ++ [v]
  end.

(** [self._tracked_vars[v] = i] *)
Definition track (v : variable) (i : Interval) (a : analyzer) : analyzer :=
  mk_analyzer (<[v := i]> (_tracked_vars a)) (keys_with v a)
    (_function_summaries a) (_potential_issues a) (_safemath_processed a).

(** [self._tracked_vars.items()]: the entries, in the order of the keys. *)
Definition _tracked_items (a : analyzer) : list (variable * Interval) :=
  omap (fun v => pair v <$> _tracked_vars a !! v) (_tracked_keys a).

(** [self._potential_issues.append(x)] *)
Definition add_issue (x : issue) (a : analyzer) : analyzer :=
  mk_analyzer (_tracked_vars a) (_tracked_keys a) (_function_summaries a)
    (_potential_issues a ++ [x]) (_safemath_processed a).

(** [v in self._tracked_vars] and [self._tracked_vars[v]] for an operand. *)
Definition tracked (a : analyzer) (o : operand) : option Interval :=
  match o with
  | OVar v => _tracked_vars a !! v
  | OConst _ => None
  end.

(** ** Code that can raise *)

Inductive exn : Type :=
| ValueError
| TypeError
| ZeroDivisionError
| OverflowError.

Inductive outcome (A : Type) : Type :=
| Ok (a : A) (st : analyzer)
| Raise (e : exn).

Arguments Ok {A} a st.
Arguments Raise {A} e.

(** A method of the analyzer: it reads and updates the object, and
    returns a value or raises. *)
Definition M (A : Type) : Type := analyzer -> outcome A.

Definition ret {A : Type} (a : A) : M A := fun st => Ok a st.

Definition raise {A : Type} (e : exn) : M A := fun _ => Raise e.

Definition bind {A B : Type} (m : M A) (f : A -> M B) : M B :=
  fun st =>
    match m st with
    | Ok a st' => f a st'
    | Raise e => Raise e
    end.

(** A statement that updates the object and cannot raise. *)
Definition update (f : analyzer -> analyzer) : M unit :=
  fun st => Ok tt (f st).

Notation "'let*' x ':=' c 'in' k" := (bind c (fun x => k))
  (at level 10, x pattern, c at level 100, k at level 200).

Notation "c ';;;' k" := (bind c (fun _ => k))
  (at level 100, k at level 200, right associativity).

(** [for x in xs: body(x)] *)
Fixpoint for_each {A : Type} (body : A -> M unit) (xs : list A) : M unit :=
  match xs with
  | [] => ret tt
  | x :: r => body x ;;; for_each body r
  end.

(** ** _apply_binary_operation *)

(** [-(2**255)], [2**256 - 1] and the three "full range" literals. *)
Definition INT_MIN : Z := - 2 ^ 255.
Definition UINT_MAX : Z := 2 ^ 256 - 1.
Definition machine_interval : Interval := Interval_Z INT_MIN UINT_MAX.
Definition unsigned_interval : Interval := Interval_Z 0 UINT_MAX.

(** [if new_min == float('-inf') or new_min < -(2**255): new_min = -(2**255)] *)
Definition clamp_min (new_min : lower) : lower :=
  if num_eqb (lnum new_min) NegInf || num_ltb (lnum new_min) (Fin INT_MIN)
  then LFin INT_MIN else new_min.

(** [if new_max == float('inf') or new_max >= 2**256: new_max = 2**256 - 1] *)
Definition clamp_max (new_max : upper) : upper :=
  if num_eqb (unum new_max) PosInf || num_geb (unum new_max) (Fin (2 ^ 256))
  then UFin UINT_MAX else new_max.

(** The same two tests on integers. *)
Definition clamp_minZ (new_min : Z) : Z :=
  if new_min <? INT_MIN then INT_MIN else new_min.

Definition clamp_maxZ (new_max : Z) : Z :=
  if new_max >=? 2 ^ 256 then UINT_MAX else new_max.

(** The end of the function: infinite bounds are replaced and
    [Interval(new_min, new_max)] is returned. *)
Definition finish (new_min : lower) (new_max : upper) : Interval :=
  let new_min := match new_min with LNegInf => LFin INT_MIN | _ => new_min end in
  let new_max := match new_max with UPosInf => UFin UINT_MAX | _ => new_max end in
  mk_Interval (Some new_min) (Some new_max).

(** [right_min <= 0 and right_max >= 0] *)
Definition contains_zero (right_min : lower) (right_max : upper) : bool :=
  num_leb (lnum right_min) (Fin 0) && num_geb (unum right_max) (Fin 0).

(** [right_min == 0 and right_max == 0] *)
Definition is_zero_point (right_min : lower) (right_max : upper) : bool :=
  num_eqb (lnum right_min) (Fin 0) && num_eqb (unum right_max) (Fin 0).

(** [a // b] on integers; [b = 0] raises. *)
Definition floordiv (a b : Z) : M Z :=
  if b =? 0 then raise ZeroDivisionError else ret (a / b).

(** An arithmetic operation on a float and an [int] converts the [int]
    to a float first, and the conversion raises [OverflowError] when the
    [int] rounds to [2**1024]: from [2**1024 - 2**970] on, in magnitude.
    (Comparisons of a float with an [int] convert nothing.) *)
Definition FLOAT_LIMIT : Z := 2 ^ 1024 - 2 ^ 970.

Definition to_float (z : Z) : M unit :=
  if Z.abs z <? FLOAT_LIMIT then ret tt else raise OverflowError.

(** Sums and differences of bounds.  A lower bound is only added to a
    lower bound, and the difference used for a new lower bound is
    [lower - upper]; so no [inf - inf] occurs.  Two integers are added
    exactly; an infinite float absorbs an integer that converts. *)
Definition lower_add (a b : lower) : M lower :=
  match a, b with
  | LFin x, LFin y => ret (LFin (x + y))
  | LNegInf, LFin y | LFin y, LNegInf => to_float y ;;; ret LNegInf
  | LNegInf, LNegInf => ret LNegInf
  end.

Definition upper_add (a b : upper) : M upper :=
  match a, b with
  | UFin x, UFin y => ret (UFin (x + y))
  | UPosInf, UFin y | UFin y, UPosInf => to_float y ;;; ret UPosInf
  | UPosInf, UPosInf => ret UPosInf
  end.

Definition lower_sub_upper (a : lower) (b : upper) : M lower :=
  match a, b with
  | LFin x, UFin y => ret (LFin (x - y))
  | LNegInf, UFin y | LFin y, UPosInf => to_float y ;;; ret LNegInf
  | LNegInf, UPosInf => ret LNegInf
  end.

Definition upper_sub_lower (a : upper) (b : lower) : M upper :=
  match a, b with
  | UFin x, LFin y => ret (UFin (x - y))
  | UPosInf, LFin y | UFin y, LNegInf => to_float y ;;; ret UPosInf
  | UPosInf, LNegInf => ret UPosInf
  end.

(** branch [op_type == "+"] *)
Definition apply_add (left_min : lower) (left_max : upper)
    (right_min : lower) (right_max : upper) : M Interval :=
  let* new_min := lower_add left_min right_min in
  let* new_max := upper_add left_max right_max in
  ret (finish (clamp_min new_min) (clamp_max new_max)).

(** branch [op_type == "-"] *)
Definition apply_sub (left_min : lower) (left_max : upper)
    (right_min : lower) (right_max : upper) : M Interval :=
  let* new_min := lower_sub_upper left_min right_max in
  let* new_max := upper_sub_lower left_max right_min in
  ret (finish (clamp_min new_min) (clamp_max new_max)).

(** branch [op_type == "*"] *)
Definition apply_mul (left_min : lower) (left_max : upper)
    (right_min : lower) (right_max : upper) : M Interval :=
  match left_min, left_max, right_min, right_max with
  | LFin a, UFin b, LFin c, UFin d =>
      let new_min := Zmin_list (a * c) [a * d; b * c; b * d] in
      let new_max := Zmax_list (a * c) [a * d; b * c; b * d] in
      ret (finish (LFin (clamp_minZ new_min)) (UFin (clamp_maxZ new_max)))
  | _, _, _, _ => ret machine_interval
  end.

(** branch [op_type == "/"] *)
Definition apply_div (right_interval : Interval)
    (left_min : lower) (left_max : upper)
    (right_min : lower) (right_max : upper) : M Interval :=
  if contains_zero right_min right_max then
    if negb (is_zero_point right_min right_max) then
      update (add_issue (DivZeroRisk right_interval)) ;;;
      ret machine_interval
    else
      update (add_issue DivZeroError) ;;;
      ret machine_interval
  else
    match left_min, left_max, right_min, right_max with
    | LFin a, UFin b, LFin c, UFin d =>
        let is_divisor_positive := c >? 0 in
        let is_divisor_negative := d <? 0 in
        let* quotients :=
          (if is_divisor_positive || is_divisor_negative then
             let* corners :=
               (if is_divisor_positive then
                  let* q1 := floordiv a c in
                  let* q2 := floordiv a d in
                  let* q3 := floordiv b c in
                  let* q4 := floordiv b d in
                  ret [q1; q2; q3; q4]
                else
                  let* q1 := floordiv a d in
                  let* q2 := floordiv a c in
                  let* q3 := floordiv b d in
                  let* q4 := floordiv b c in
                  ret [q1; q2; q3; q4]) in
             if (Z.abs c <? 2) || (Z.abs d <? 2) then
               ret (corners
                      ++ (if a <? 0 then [INT_MIN] else [])
                      ++ (if b >? 0 then [UINT_MAX] else []))
             else ret corners
           else ret []) in
        match quotients with
        | [] => ret machine_interval
        | q :: r =>
            let new_min := Z.max INT_MIN (Zmin_list q r) in
            let new_max := Z.min UINT_MAX (Zmax_list q r) in
            ret (finish (LFin new_min) (UFin new_max))
        end
    | _, _, _, _ =>
        let rpos := num_gtb (lnum right_min) (Fin 0) in
        let rneg := num_ltb (unum right_max) (Fin 0) in
        if (rpos && num_geb (lnum left_min) (Fin 0))
           || (rneg && num_leb (unum left_max) (Fin 0))
        then ret unsigned_interval
        else if (rpos && num_leb (unum left_max) (Fin 0))
                || (rneg && num_geb (lnum left_min) (Fin 0))
        then ret (Interval_Z INT_MIN 0)
        else ret machine_interval
    end.

(** branch [op_type == "%"] *)
Definition apply_mod (right_interval : Interval)
    (left_min : lower) (left_max : upper)
    (right_min : lower) (right_max : upper) : M Interval :=
  if contains_zero right_min right_max then
    (if negb (is_zero_point right_min right_max)
     then update (add_issue (ModZeroRisk right_interval))
     else update (add_issue ModZeroError)) ;;;
    ret unsigned_interval
  else if num_gtb (lnum right_min) (Fin 0) then
    if num_geb (lnum left_min) (Fin 0) then
      ret (finish (LFin 0) (py_min unum left_max (upper_addZ right_max (-1))))
    else if num_ltb (unum left_max) (Fin 0) then
      ret (finish (py_max lnum (upper_neg (upper_addZ right_max (-1))) left_min)
             (UFin 0))
    else
      ret (finish (upper_neg (upper_addZ right_max (-1)))
             (upper_addZ right_max (-1)))
  else
    match right_max with
    | UFin d =>
        if d <? 0 then
          let abs_right_min := Z.abs d in
          if num_geb (lnum left_min) (Fin 0) then
            ret (finish (LFin 0) (py_min unum left_max (UFin (abs_right_min - 1))))
          else if num_ltb (unum left_max) (Fin 0) then
            ret (finish (py_max lnum (LFin (- abs_right_min + 1)) left_min)
                   (UFin 0))
          else
            ret (finish (LFin (- abs_right_min + 1)) (UFin (abs_right_min - 1)))
        else ret unsigned_interval
    | UPosInf => ret unsigned_interval
    end.

(** The finite values among [[left_min, left_max]] (resp. right). *)
Definition finite_bounds (lo : lower) (hi : upper) : list Z :=
  (match lo with LFin a => [a] | LNegInf => [] end)
  ++ (match hi with UFin b => [b] | UPosInf => [] end).

(** The body of the two loops of the branch ["**"] for one pair [(l, r)]:
    the values appended to [powers].  [l ** r] on non-negative integers
    is the exact integer power. *)
Definition power_corner (l r : Z) : list Z :=
  if (l >=? 0) && (r >=? 0) then [l ^ r]
  else if (l >? 0) && (r <? 0) then (if l =? 1 then [1] else [0])
  else if (l <? 0) && (r >=? 0) && (r mod 2 =? 0) then [Z.abs l ^ r]
  else if (l <? 0) && (r >=? 0) && (r mod 2 =? 1) then [- (Z.abs l ^ r)]
  else [].

(** branch [op_type == "**"] *)
Definition apply_pow (left_interval : Interval)
    (left_min : lower) (left_max : upper)
    (right_min : lower) (right_max : upper) : M Interval :=
  if num_eqb (lnum left_min) (Fin 0) && num_eqb (unum left_max) (Fin 0) then
    if num_gtb (lnum right_min) (Fin 0) then ret (Interval_Z 0 0)
    else if is_zero_point right_min right_max then ret (Interval_Z 1 1)
    else ret unsigned_interval
  else if num_eqb (lnum left_min) (Fin 1) && num_eqb (unum left_max) (Fin 1) then
    ret (Interval_Z 1 1)
  else if is_zero_point right_min right_max then ret (Interval_Z 1 1)
  else if num_eqb (lnum right_min) (Fin 1) && num_eqb (unum right_max) (Fin 1) then
    ret left_interval
  else
    let powers :=
      flat_map (fun l =>
        flat_map (fun r => power_corner l r) (finite_bounds right_min right_max))
        (finite_bounds left_min left_max) in
    match powers with
    | [] => ret machine_interval
    | p :: r =>
        let new_min := Z.max INT_MIN (Zmin_list p r) in
        let new_max := Z.min UINT_MAX (Zmax_list p r) in
        ret (finish (LFin new_min) (UFin new_max))
    end.

(** [x << n] and [x >> n] on integers; a negative count raises
    [ValueError].  The result is the mathematical one. *)
Definition lshift (x n : Z) : M Z :=
  if n <? 0 then raise ValueError else ret (Z.shiftl x n).

Definition rshift (x n : Z) : M Z :=
  if n <? 0 then raise ValueError else ret (Z.shiftr x n).

(** [int(right_min) if right_min != float('-inf') else 0] *)
Definition shift_of_min (right_min : lower) : Z :=
  match right_min with LFin c => c | LNegInf => 0 end.

(** branch [op_type == "<<"] *)
Definition apply_lshift (left_min : lower) (left_max : upper)
    (right_min : lower) (right_max : upper) : M Interval :=
  if num_ltb (unum right_max) (Fin 0) then
    (* right_max is a negative integer *)
    let abs_right_max := match right_max with UFin d => Z.abs d | UPosInf => 0 end in
    let* new_min :=
      match left_min with
      | LFin a => rshift a abs_right_max
      | LNegInf => ret 0
      end in
    let* new_max :=
      match left_max with
      | UFin b =>
          match right_min with
          | LFin c => rshift b (Z.abs c)
          | LNegInf => raise TypeError   (* int >> float *)
          end
      | UPosInf => ret 0
      end in
    ret (finish (LFin new_min) (UFin new_max))
  else
    let max_shift := match right_max with UFin d => Z.min d 256 | UPosInf => 256 end in
    let* new_min :=
      match left_min with
      | LNegInf => ret INT_MIN
      | LFin a =>
          if a <? 0 then
            (* [left_min < -(2**(255-max_shift))]; for max_shift = 256 the
               power is the float 0.5 *)
            if (if max_shift =? 256 then a <? 0
                else a <? - 2 ^ (255 - max_shift))
            then ret INT_MIN
            else lshift a (shift_of_min right_min)
          else lshift a (shift_of_min right_min)
      end in
    let* new_max :=
      match left_max with
      | UPosInf => ret UINT_MAX
      | UFin b =>
          if (b >? 0) && (max_shift >? 0) then
            if b >? Z.shiftr UINT_MAX max_shift then ret UINT_MAX
            else lshift b (shift_of_min right_min)
          else lshift b (shift_of_min right_min)
      end in
    ret (finish (LFin (clamp_minZ new_min)) (UFin (clamp_maxZ new_max))).

(** branch [op_type == ">>"] *)
Definition apply_rshift (left_min : lower) (left_max : upper)
    (right_min : lower) (right_max : upper) : M Interval :=
  if num_ltb (unum right_max) (Fin 0) then
    let abs_right_max := match right_max with UFin d => Z.abs d | UPosInf => 0 end in
    let max_shift :=
      match right_min with LFin c => Z.min (Z.abs c) 256 | LNegInf => 256 end in
    if max_shift >? 30 then ret (finish (LFin INT_MIN) (UFin UINT_MAX))
    else
      let* new_min :=
        match left_min with
        | LFin a => lshift a abs_right_max
        | LNegInf => ret INT_MIN
        end in
      let* new_max :=
        match left_max with
        | UFin b => lshift b (match right_min with LFin c => Z.abs c | LNegInf => 0 end)
        | UPosInf => ret UINT_MAX
        end in
      ret (finish (LFin (clamp_minZ new_min)) (UFin (clamp_maxZ new_max)))
  else
    let* new_min :=
      match left_min with
      | LNegInf => ret INT_MIN
      | LFin a => rshift a (match right_max with UFin d => d | UPosInf => 256 end)
      end in
    let* new_max :=
      match left_max with
      | UPosInf => ret UINT_MAX
      | UFin b => rshift b (shift_of_min right_min)
      end in
    ret (finish (LFin new_min) (UFin new_max)).

(** DeFiRangeAnalyzer._apply_binary_operation *)
Definition _apply_binary_operation (op_type : string)
    (left_interval right_interval : Interval) : M Interval :=
  if is_bottom left_interval || is_bottom right_interval then ret Interval_empty
  else if is_top left_interval || is_top right_interval then
    if str_mem op_type ["/"; "%"] && is_top right_interval
    then ret unsigned_interval
    else ret Interval_top
  else
    let left_min := default LNegInf (min_val left_interval) in
    let left_max := default UPosInf (max_val left_interval) in
    let right_min := default LNegInf (min_val right_interval) in
    let right_max := default UPosInf (max_val right_interval) in
    if String.eqb op_type "+" then
      apply_add left_min left_max right_min right_max
    else if String.eqb op_type "-" then
      apply_sub left_min left_max right_min right_max
    else if String.eqb op_type "*" then
      apply_mul left_min left_max right_min right_max
    else if String.eqb op_type "/" then
      apply_div right_interval left_min left_max right_min right_max
    else if String.eqb op_type "%" then
      apply_mod right_interval left_min left_max right_min right_max
    else if String.eqb op_type "**" then
      apply_pow left_interval left_min left_max right_min right_max
    else if str_mem op_type ["<"; "<="; ">"; ">="; "=="; "!="] then
      ret (Interval_Z 0 1)
    else if str_mem op_type ["&&"; "||"; "and"; "or"] then
      ret (Interval_Z 0 1)
    else if str_mem op_type ["<<"; ">>"] then
      if String.eqb op_type "<<" then
        apply_lshift left_min left_max right_min right_max
      else
        apply_rshift left_min left_max right_min right_max
    else ret machine_interval.

(** ** Overflow, underflow and division checks of [_handle_binary_op] *)

(** [result_var in self._safemath_processed], false while the attribute
    does not exist. *)
Definition safemath_marked (a : analyzer) (v : variable) : bool :=
  match _safemath_processed a with
  | Some s => bool_decide (v ∈ s)
  | None => false
  end.

(** [hasattr(v, "type") and kw in str(v.type).lower()] *)
Definition type_has (kw : string) (v : variable) : bool :=
  match var_type v with
  | Some t => str_in kw (lower_str t)
  | None => false
  end.

(** [a * b >= 2**256] for two upper bounds: two integers are multiplied
    exactly; an infinite float times an integer converts the integer,
    [inf * 0] is [nan], which compares false, and [inf] times a negative
    number is [-inf]. *)
Definition upper_mul_overflows (a b : upper) : M bool :=
  match a, b with
  | UFin x, UFin y => ret (x * y >=? 2 ^ 256)
  | UPosInf, UFin y | UFin y, UPosInf => to_float y ;;; ret (y >? 0)
  | UPosInf, UPosInf => ret true
  end.

(** The test of one branch of [_check_overflow_underflow]: the message
    to record, if any. *)
Definition overflow_issue (op_type : string)
    (left_interval right_interval : Interval) (result_var : variable)
  : M (option issue) :=
  if String.eqb op_type "+" then
    match max_val left_interval, max_val right_interval with
    | Some l, Some r =>
        let* sum := upper_add l r in
        if num_geb (unum sum) (Fin (2 ^ 256))
        then ret (Some (AddOverflow result_var left_interval right_interval))
        else ret None
    | _, _ => ret None
    end
  else if String.eqb op_type "-" then
    match min_val left_interval, max_val right_interval with
    | Some l, Some r =>
        if num_ltb (lnum l) (unum r) then
          if type_has "uint" result_var
          then ret (Some (SubUnderflow result_var left_interval right_interval))
          else ret None
        else ret None
    | _, _ => ret None
    end
  else if String.eqb op_type "*" then
    match max_val left_interval, max_val right_interval with
    | Some l, Some r =>
        let* overflows := upper_mul_overflows l r in
        if overflows
        then ret (Some (MulOverflow result_var left_interval right_interval))
        else ret None
    | _, _ => ret None
    end
  else if String.eqb op_type "**" then
    match max_val left_interval, max_val right_interval with
    | Some l, Some r =>
        if num_gtb (unum l) (Fin 1) && num_gtb (unum r) (Fin 1) then
          if num_gtb (unum r) (Fin 32)
          then ret (Some (PowOverflow result_var left_interval right_interval))
          else ret None
        else ret None
    | _, _ => ret None
    end
  else ret None.

(** DeFiRangeAnalyzer._check_overflow_underflow *)
Definition _check_overflow_underflow (op_type : string)
    (left_interval right_interval : Interval) (result_var : variable) : M unit :=
  fun a =>
    (if safemath_marked a result_var then ret tt
     else
       let* issue := overflow_issue op_type left_interval right_interval result_var in
       match issue with
       | Some i => update (add_issue i)
       | None => ret tt
       end) a.

(** DeFiRangeAnalyzer._check_division_by_zero *)
Definition _check_division_by_zero (right_interval : Interval)
    (result_var : variable) (left_var : operand) (a : analyzer) : analyzer :=
  match min_val right_interval, max_val right_interval with
  | Some lo, Some hi =>
      if contains_zero lo hi
      then add_issue (PotentialDivZero result_var left_var right_interval) a
      else a
  | _, _ => a
  end.

(** ** The instruction handlers *)

(** The integer a constant operand of [_handle_binary_op] stands for:
    an [int], a string of digits that [int] accepts, or a string
    starting with [0x] that [int(value, 16)] accepts. *)
Definition binary_constant (c : cvalue) : option Z :=
  match c with
  | CInt z => Some z
  | CStr s =>
      if isdigit s then py_int s
      else if startswith s "0x" then py_int16 s
      else None
  | COther => None
  end.

(** The interval of an operand of [_handle_binary_op] when the handler
    gets to [_apply_binary_operation]:
    [self._tracked_vars.get(x, Interval())], replaced by a point interval
    for a constant that can be read. *)
Definition operand_interval (a : analyzer) (o : operand) : Interval :=
  match o with
  | OVar v => default Interval_empty (_tracked_vars a !! v)
  | OConst c =>
      match binary_constant c with
      | Some z => Interval_Z z z
      | None => Interval_empty
      end
  end.

(** [int(value)] *)
Definition int_of_str (s : string) : M Z :=
  match py_int s with
  | Some z => ret z
  | None => raise ValueError
  end.

(** The block [if isinstance(x, Constant) and x not in self._tracked_vars]
    of [_handle_binary_op]: the interval of the operand after it.  The
    [int] of a string of digits is taken outside of any [try]; the one of
    a string starting with [0x] is guarded. *)
Definition read_operand (a : analyzer) (o : operand) : M Interval :=
  let current := default Interval_empty (tracked a o) in
  match o with
  | OVar _ => ret current
  | OConst c =>
      match c with
      | CInt z => ret (Interval_Z z z)
      | CStr s =>
          if isdigit s then
            let* value := int_of_str s in ret (Interval_Z value value)
          else if startswith s "0x" then
            match py_int16 s with
            | Some value => ret (Interval_Z value value)
            | None => ret current
            end
          else ret current
      | COther => ret current
      end
  end.

(** DeFiRangeAnalyzer._handle_binary_op.  The right operand is read
    before the left one. *)
Definition _handle_binary_op (result_var : variable) (op_type : string)
    (left right : operand) : M unit :=
  fun a =>
    (let* right_interval := read_operand a right in
     let* left_interval := read_operand a left in
     let* result_interval :=
       _apply_binary_operation op_type left_interval right_interval in
     update (track result_var result_interval) ;;;
     (if str_mem op_type ["+"; "-"; "*"; "**"]
      then _check_overflow_underflow op_type left_interval right_interval result_var
      else ret tt) ;;;
     (if str_mem op_type ["/"; "%"]
      then update (_check_division_by_zero right_interval result_var left)
      else ret tt)) a.

(** The block of [_handle_assignment] for a [Constant]: the integer to
    assign, or [None] when the handler assigns nothing.  A string of
    digits is converted outside of any [try]; for another string a
    [ValueError] makes the handler return. *)
Definition constant_int (c : cvalue) : M (option Z) :=
  match c with
  | CInt z => ret (Some z)
  | CStr s =>
      if isdigit s then
        let* value := int_of_str s in ret (Some value)
      else if startswith s "0x" then ret (py_int16 s)
      else ret (py_int s)
  | COther => ret None
  end.

(** DeFiRangeAnalyzer._handle_assignment *)
Definition _handle_assignment (target : variable) (rvalue : operand) : M unit :=
  match rvalue with
  | OConst c =>
      let* value := constant_int c in
      match value with
      | Some value => update (track target (Interval_Z value value))
      | None => ret tt
      end
  | OVar r =>
      fun a =>
        match _tracked_vars a !! r with
        | Some i => Ok tt (track target i a)
        | None =>
            match var_type r with
            | Some t =>
                let type_str := lower_str t in
                if str_in "address" type_str
                then Ok tt (track target (Interval_Z 0 (2 ^ 160 - 1)) a)
                else if str_in "bool" type_str
                then Ok tt (track target (Interval_Z 0 1) a)
                else Ok tt a
            | None => Ok tt a
            end
        end
  end.

(** [max(k, cur) if cur is not None else k] and the same with [min]. *)
Definition raise_min (k : Z) (cur : option lower) : lower :=
  match cur with
  | Some c => py_max lnum (LFin k) c
  | None => LFin k
  end.

Definition cut_max (k : Z) (cur : option upper) : upper :=
  match cur with
  | Some c => py_min unum (UFin k) c
  | None => UFin k
  end.

(** DeFiRangeAnalyzer._handle_type_conversion.  ([2**(bits-1)] is taken
    on integers; no Solidity type has the width 0, for which Python
    gives a float.) *)
Definition _handle_type_conversion (target : variable) (source : operand)
    (a : analyzer) : analyzer :=
  match tracked a source with
  | Some current_interval =>
      match var_type target with
      | Some t =>
          let type_str := lower_str t in
          if str_in "uint" type_str then
            let bits := type_bits "uint" type_str in
            let new_min := raise_min 0 (min_val current_interval) in
            let new_max := cut_max (2 ^ bits - 1) (max_val current_interval) in
            track target (mk_Interval (Some new_min) (Some new_max)) a
          else if str_in "int" type_str then
            let bits := type_bits "int" type_str in
            let new_min := raise_min (- 2 ^ (bits - 1)) (min_val current_interval) in
            let new_max := cut_max (2 ^ (bits - 1) - 1) (max_val current_interval) in
            track target (mk_Interval (Some new_min) (Some new_max)) a
          else if str_in "address" type_str then
            track target (Interval_Z 0 (2 ^ 160 - 1)) a
          else if str_in "bool" type_str then
            if match min_val current_interval with
               | Some m => num_gtb (lnum m) (Fin 0)
               | None => false
               end
            then track target (Interval_Z 1 1) a
            else if match max_val current_interval with
                    | Some m => num_leb (unum m) (Fin 0)
                    | None => false
                    end
            then track target (Interval_Z 0 0) a
            else track target (Interval_Z 0 1) a
          else a
      | None => a
      end
  | None => a
  end.

(** DeFiRangeAnalyzer._handle_member *)
Definition _handle_member (target : variable) (variable_left variable_right : string)
    (a : analyzer) : analyzer :=
  let left := lower_str variable_left in
  let right := lower_str variable_right in
  if String.eqb left "msg" && String.eqb right "value" then
    track target unsigned_interval a
  else if String.eqb left "block" && String.eqb right "timestamp" then
    track target (Interval_Z 0 4102444800) a
  else if String.eqb left "block" && String.eqb right "number" then
    track target (Interval_Z 0 (2 ^ 64 - 1)) a
  else if String.eqb left "tx" && String.eqb right "gasprice" then
    track target (Interval_Z 0 (10 ^ 18)) a
  else if String.eqb right "balance" then
    track target unsigned_interval a
  else a.

(** The argument loop of the branch for [add], [sub], [mul], [div] and
    [mod]: [None] when the loop executes [return]. *)
Fixpoint collect_args (a : analyzer) (args : list operand) : option (list Interval) :=
  match args with
  | [] => Some []
  | arg :: r =>
      let here :=
        match tracked a arg with
        | Some i => Some i
        | None =>
            match arg with
            | OConst (CInt z) => Some (Interval_Z z z)
            | _ => None
            end
        end in
      i ← here; rest ← collect_args a r; Some (i :: rest)
  end.

(** The argument loop of the branches for [min] and [max]: an argument
    without interval is skipped. *)
Fixpoint collect_known_args (a : analyzer) (args : list operand) : list Interval :=
  match args with
  | [] => []
  | arg :: r =>
      match tracked a arg with
      | Some i => i :: collect_known_args a r
      | None =>
          match arg with
          | OConst (CInt z) => Interval_Z z z :: collect_known_args a r
          | _ => collect_known_args a r
          end
      end
  end.

(** [self._safemath_processed.add(v)], creating the set first. *)
Definition mark_safemath (v : variable) (a : analyzer) : analyzer :=
  mk_analyzer (_tracked_vars a) (_tracked_keys a) (_function_summaries a)
    (_potential_issues a)
    (Some ({[ v ]} ∪ default ∅ (_safemath_processed a))).

(** [min(...)] or [max(...)] of a generator: [ValueError] when empty. *)
Definition seq_or_raise {A : Type} (r : option A) : M A :=
  match r with
  | Some x => ret x
  | None => raise ValueError
  end.

(** DeFiRangeAnalyzer._handle_solidity_call *)
Definition _handle_solidity_call (target : variable) (function : callee)
    (arguments : list operand) : M unit :=
  fun a =>
    let function_name := lower_str (fn_name function) in
    let is_safemath_call :=
      match fn_contract function with
      | Some c =>
          let contract_name := lower_str c in
          str_in "safemath" contract_name || str_in "math" contract_name
      | None => false
      end in
    (if str_mem function_name ["add"; "sub"; "mul"; "div"; "mod"] then
       match collect_args a arguments with
       | None => ret tt
       | Some (x :: y :: _) =>
           let* result_interval := _apply_binary_operation function_name x y in
           update (track target result_interval) ;;;
           (if is_safemath_call then update (mark_safemath target) else ret tt)
       | Some _ => ret tt
       end
     else if String.eqb function_name "min" then
       match collect_known_args a arguments with
       | x :: y :: r =>
           let arg_intervals := x :: y :: r in
           let min_val := min_val x in
           let* max_val :=
             seq_or_raise (py_min_seq unum (omap max_val arg_intervals)) in
           update (track target (mk_Interval min_val (Some max_val)))
       | _ => ret tt
       end
     else if String.eqb function_name "max" then
       match collect_known_args a arguments with
       | x :: y :: r =>
           let arg_intervals := x :: y :: r in
           let* max_val :=
             seq_or_raise (py_max_seq unum (omap max_val arg_intervals)) in
           let* min_val :=
             seq_or_raise (py_max_seq lnum (omap min_val arg_intervals)) in
           update (track target (mk_Interval (Some min_val) (Some max_val)))
       | _ => ret tt
       end
     else ret tt) a.

(** DeFiRangeAnalyzer._is_deFi_critical *)
Definition critical_patterns : list string :=
  ["balance"; "price"; "ratio"; "debt"; "supply"; "reserve";
   "liquidity"; "amount"; "fee"; "rate"; "swap"; "pool";
   "collateral"; "token"; "share"; "yield"; "reward";
   "slippage"; "impermanent"; "apy"; "tvl"; "borrow"; "lend";
   "stake"; "unstake"; "mint"; "burn"; "redeem"; "oracle";
   "margin"; "leverage"; "flash"; "loan"; "liquidat"].

Definition defi_interface_patterns : list string :=
  ["erc20"; "erc721"; "erc1155"; "ierc20"; "ierc721"; "ierc1155";
   "uniswap"; "sushiswap"; "pancakeswap"; "balancer"; "curve";
   "pair"; "router"; "factory"; "amm"; "dex";
   "compound"; "aave"; "makerdao"; "cream"; "lending"; "ctoken";
   "vault"; "pool"; "strategy"; "yearn"; "harvest";
   "chainlink"; "oracle"; "price"; "feed"].

Definition _is_deFi_critical (v : variable) : bool :=
  let var_name := lower_str (var_name v) in
  if any_in critical_patterns var_name then true
  else
    match var_type v with
    | Some t =>
        let type_str := lower_str t in
        if any_in defi_interface_patterns type_str then true
        else if str_in "uint" type_str || str_in "int" type_str then true
        else if str_in "address" type_str then true
        else false
    | None => false
    end.

(** DeFiRangeAnalyzer._handle_function_call *)
Definition _handle_function_call (target : variable) (function : callee)
    (a : analyzer) : analyzer :=
  let function_name := lower_str (fn_name function) in
  let returns_a (kw : string) :=
    match fn_return_type function with
    | Some t => str_in kw (lower_str t)
    | None => false
    end in
  if str_in "balance" function_name
     || (str_in "total" function_name && str_in "supply" function_name)
  then track target unsigned_interval a
  else if str_in "price" function_name || str_in "rate" function_name
  then track target (Interval_Z 0 (10 ^ 36)) a
  else if str_in "allowance" function_name
  then track target unsigned_interval a
  else if str_in "decimals" function_name
  then track target (Interval_Z 0 18) a
  else if returns_a "bool"
  then track target (Interval_Z 0 1) a
  else if returns_a "address"
  then track target (Interval_Z 0 (2 ^ 160 - 1)) a
  else if _is_deFi_critical target
  then track target unsigned_interval a
  else a.

(** DeFiRangeAnalyzer._process_ir *)
Definition _process_ir (i : ir) : M unit :=
  match i with
  | Binary lvalue type_str variable_left variable_right =>
      _handle_binary_op lvalue type_str variable_left variable_right
  | Assignment lvalue rvalue => _handle_assignment lvalue rvalue
  | TypeConversion lvalue source => update (_handle_type_conversion lvalue source)
  | Member lvalue variable_left variable_right =>
      update (_handle_member lvalue variable_left variable_right)
  | SolidityCall lvalue function arguments =>
      _handle_solidity_call lvalue function arguments
  | HighLevelCall lvalue function _ => update (_handle_function_call lvalue function)
  | OtherIr _ _ => ret tt
  end.

(** ** _process_condition *)

(** The interval computed for [var != 0] when the interval of [var]
    has both bounds and contains 0. *)
Definition split_nonzero (current : Interval) (lo : lower) (hi : upper) : Interval :=
  let neg_interval :=
    if num_ltb (lnum lo) (Fin 0)
    then Some (mk_Interval (Some lo) (Some (UFin (-1)))) else None in
  let pos_interval :=
    if num_gtb (unum hi) (Fin 0)
    then Some (mk_Interval (Some (LFin 1)) (Some hi)) else None in
  match neg_interval, pos_interval with
  | Some n, Some p => mk_Interval (min_val n) (max_val p)
  | Some n, None => n
  | None, Some p => p
  | None, None => Interval_empty
  end.

(** The chain of tests on [op] in the branch for a constant right
    operand: the new interval, or [None] for an operator that makes the
    method return. *)
Definition refine_constant (op : string) (threshold : Z) (current : Interval)
  : option Interval :=
  if String.eqb op "<" then
    Some (meet current (mk_Interval None (Some (UFin (threshold - 1)))))
  else if String.eqb op "<=" then
    Some (meet current (mk_Interval None (Some (UFin threshold))))
  else if String.eqb op ">" then
    Some (meet current (mk_Interval (Some (LFin (threshold + 1))) None))
  else if String.eqb op ">=" then
    Some (meet current (mk_Interval (Some (LFin threshold)) None))
  else if String.eqb op "==" then
    Some (meet current (Interval_Z threshold threshold))
  else if String.eqb op "!=" then
    if threshold =? 0 then
      match min_val current, max_val current with
      | Some lo, Some hi =>
          if num_leb (lnum lo) (Fin 0) && num_geb (unum hi) (Fin 0)
          then Some (split_nonzero current lo hi)
          else Some current
      | _, _ => Some current
      end
    else Some current
  else None.

(** The branch for two tracked variables. *)
Definition refine_variables (op : string) (left right : variable)
    (left_interval right_interval : Interval) (a : analyzer) : analyzer :=
  if String.eqb op "<" then
    let a :=
      match max_val right_interval with
      | Some m =>
          track left (meet left_interval
                        (mk_Interval None (Some (upper_addZ m (-1))))) a
      | None => a
      end in
    match min_val left_interval with
    | Some m =>
        track right (meet right_interval
                       (mk_Interval (Some (lower_addZ m 1)) None)) a
    | None => a
    end
  else if String.eqb op "<=" then
    let a :=
      match max_val right_interval with
      | Some m => track left (meet left_interval (mk_Interval None (Some m))) a
      | None => a
      end in
    match min_val left_interval with
    | Some m => track right (meet right_interval (mk_Interval (Some m) None)) a
    | None => a
    end
  else if String.eqb op ">" then
    let a :=
      match min_val right_interval with
      | Some m =>
          track left (meet left_interval
                        (mk_Interval (Some (lower_addZ m 1)) None)) a
      | None => a
      end in
    match max_val left_interval with
    | Some m =>
        track right (meet right_interval
                       (mk_Interval None (Some (upper_addZ m (-1))))) a
    | None => a
    end
  else if String.eqb op ">=" then
    let a :=
      match min_val right_interval with
      | Some m => track left (meet left_interval (mk_Interval (Some m) None)) a
      | None => a
      end in
    match max_val left_interval with
    | Some m => track right (meet right_interval (mk_Interval None (Some m))) a
    | None => a
    end
  else if String.eqb op "==" then
    let intersection := meet left_interval right_interval in
    track right intersection (track left intersection a)
  else a.

(** The threshold of a constant right operand: an [int], or a string
    that [int] accepts (base 16 when it starts with [0x]). *)
Definition constant_threshold (c : cvalue) : option Z :=
  match c with
  | CInt z => Some z
  | CStr s => if startswith s "0x" then py_int16 s else py_int s
  | COther => None
  end.

(** DeFiRangeAnalyzer._process_condition *)
Definition _process_condition (n : node) (a : analyzer) : analyzer :=
  match expression n with
  | None => a
  | Some c =>
      let left := cond_left c in
      let right := cond_right c in
      let op := cond_op c in
      match right with
      | OConst k =>
          match constant_threshold k with
          | None => a
          | Some threshold =>
              match tracked a left, left with
              | Some current, OVar lv =>
                  match refine_constant op threshold current with
                  | Some new_interval =>
                      if negb (Interval_eq new_interval current)
                      then track lv new_interval a
                      else a
                  | None => a
                  end
              | _, _ => a
              end
          end
      | OVar rv =>
          match left with
          | OVar lv =>
              match _tracked_vars a !! lv, _tracked_vars a !! rv with
              | Some left_interval, Some right_interval =>
                  refine_variables op lv rv left_interval right_interval a
              | _, _ => a
              end
          | OConst _ => a
          end
      end
  end.

(** ** _check_bounds_violation *)

(** [self._deFi_constraints], in the order of the dictionary literal:
    name, ["min"], ["max"]. *)
Definition _deFi_constraints : list (string * Z * Z) :=
  [("token_balance", 0, 2 ^ 256 - 1);
   ("price_oracle", 0, 10 ^ 36);
   ("leverage_ratio", 1, 100);
   ("fee", 0, 10 ^ 18);
   ("liquidity", 0, 2 ^ 256 - 1);
   ("time_lock", 0, 2 ^ 64 - 1);
   ("slippage", 0, 10 ^ 18);
   ("apy", 0, 10 ^ 20);
   ("interest_rate", 0, 10 ^ 20);
   ("collateral_ratio", 0, 10 ^ 20)].

(** The strings returned by [_check_bounds_violation]. *)
Inductive violation : Type :=
| MayOverflow (v : variable)
| MayUnderflow (v : variable)
| MinViolation (v : variable) (current_min : lower) (constraint_min : Z)
| MaxViolation (v : variable) (current_max : upper) (constraint_max : Z).

(** The loop over the constraints: the two tests of its body come
    first, then the rest of the table. *)
Fixpoint check_constraints (v : variable) (var_name : string) (current : Interval)
    (constraints : list (string * Z * Z)) : option violation :=
  match constraints with
  | [] => None
  | (constraint_name, cmin, cmax) :: rest =>
      let too_low :=
        match min_val current with
        | Some m =>
            if num_ltb (lnum m) (Fin cmin) then Some (MinViolation v m cmin)
            else None
        | None => None
        end in
      let too_high :=
        match max_val current with
        | Some x =>
            if num_gtb (unum x) (Fin cmax) then Some (MaxViolation v x cmax)
            else None
        | None => None
        end in
      if str_in constraint_name var_name then
        match too_low, too_high with
        | Some r, _ => Some r
        | None, Some r => Some r
        | None, None => check_constraints v var_name current rest
        end
      else check_constraints v var_name current rest
  end.

(** DeFiRangeAnalyzer._check_bounds_violation *)
Definition _check_bounds_violation (v : variable) (a : analyzer) : option violation :=
  match _tracked_vars a !! v with
  | None => None
  | Some current =>
      if is_bottom current then None
      else if match max_val current with
              | Some x => num_geb (unum x) (Fin (2 ^ 256))
              | None => false
              end
      then Some (MayOverflow v)
      else if match min_val current with
              | Some m => num_ltb (lnum m) (Fin 0)
              | None => false
              end && type_has "uint" v
      then Some (MayUnderflow v)
      else check_constraints v (lower_str (var_name v)) current _deFi_constraints
  end.

(** ** _snapshot_state and _state_changed *)

(** A key of a dictionary the analyzer holds or is given: a variable
    object of the IR, or the copy of one that [copy.deepcopy] has made.
    Variable objects are hashed and compared by identity, so the copy of
    a variable is a key different from every variable of the IR.  (The
    copies of two snapshots are never looked up in each other, and are
    not told apart here.) *)
Inductive key : Type :=
| Var (v : variable)
| CopyOf (v : variable).

#[global] Instance key_eq_dec : EqDecision key.
Proof. solve_decision. Defined.

#[global] Instance key_countable : Countable key.
Proof.
  apply (inj_countable'
           (fun k => match k with Var v => inl v | CopyOf v => inr v end)
           (fun x => match x with inl v => Var v | inr v => CopyOf v end)).
  intros []; reflexivity.
Defined.

#[global] Instance CopyOf_inj : Inj (=) (=) CopyOf.
Proof. intros v w [= ->]. reflexivity. Qed.

#[global] Instance Var_inj : Inj (=) (=) Var.
Proof. intros v w [= ->]. reflexivity. Qed.

(** DeFiRangeAnalyzer._snapshot_state: [copy.deepcopy(self._tracked_vars)]
    copies the keys along with the intervals. *)
Definition _snapshot_state (a : analyzer) : gmap key Interval :=
  kmap CopyOf (_tracked_vars a).

(** [abs(old - new) > threshold] for two lower (two upper) bounds that
    are not [None].  The difference of two integers is exact; an
    infinite float minus an integer converts the integer and is
    infinite, which exceeds every threshold; [inf - inf] is [nan] and
    compares false. *)
Definition exceeds (threshold : Q) (d : Z) : bool :=
  negb (Qle_bool (inject_Z (Z.abs d)) threshold).

Definition lower_moved (threshold : Q) (o n : lower) : M bool :=
  match o, n with
  | LFin x, LFin y => ret (exceeds threshold (x - y))
  | LNegInf, LFin y | LFin y, LNegInf => to_float y ;;; ret true
  | LNegInf, LNegInf => ret false
  end.

Definition upper_moved (threshold : Q) (o n : upper) : M bool :=
  match o, n with
  | UFin x, UFin y => ret (exceeds threshold (x - y))
  | UPosInf, UFin y | UFin y, UPosInf => to_float y ;;; ret true
  | UPosInf, UPosInf => ret false
  end.

Definition is_None {A : Type} (o : option A) : bool :=
  match o with None => true | Some _ => false end.

(** The tests of the loop body for a variable present in both states. *)
Definition interval_changed (threshold : Q) (old_interval new_interval : Interval)
  : M bool :=
  if negb (eqb (is_bottom old_interval) (is_bottom new_interval))
     || negb (eqb (is_top old_interval) (is_top new_interval))
  then ret true
  else
    let* min_moved :=
      match min_val old_interval, min_val new_interval with
      | Some o, Some n => lower_moved threshold o n
      | _, _ => ret false
      end in
    if min_moved then ret true
    else
      let* max_moved :=
        match max_val old_interval, max_val new_interval with
        | Some o, Some n => upper_moved threshold o n
        | _, _ => ret false
        end in
      if max_moved then ret true
      else if negb (eqb (is_None (min_val old_interval))
                      (is_None (min_val new_interval)))
      then ret true
      else ret (negb (eqb (is_None (max_val old_interval))
                        (is_None (max_val new_interval)))).

(** The loop body of [_state_changed] for one tracked variable. *)
Definition var_changed (old_state : gmap key Interval) (threshold : Q)
    (entry : variable * Interval) : M bool :=
  match old_state !! Var entry.1 with
  | None => ret true
  | Some old_interval => interval_changed threshold old_interval entry.2
  end.

(** [for x in xs: if test(x): return True] followed by [return False] *)
Fixpoint any_M {A : Type} (test : A -> M bool) (xs : list A) : M bool :=
  match xs with
  | [] => ret false
  | x :: r => let* found := test x in if found then ret true else any_M test r
  end.

(** DeFiRangeAnalyzer._state_changed: the loop returns [True] at the
    first variable whose test succeeds, [False] after the loop. *)
Definition _state_changed (old_state : gmap key Interval) (threshold : Q)
  : M bool :=
  fun a => any_M (var_changed old_state threshold) (_tracked_items a) a.

(** The default value [0.01] of [threshold].  (The float differs from
    1/100 by less than 1e-18; it is only compared with integers.) *)
Definition default_threshold : Q := 1 # 100.

(** ** _is_defi_contract *)

Definition defi_patterns : list string :=
  ["swap"; "borrow"; "lend"; "stake"; "deposit"; "withdraw"; "mint"; "burn";
   "redeem"; "claim"; "liquidate"; "flash"; "provide"; "purchase"; "sell";
   "dex"; "pool"; "amm"; "vault"; "yield"; "farm"; "lending"; "staking";
   "oracle"; "router"; "factory"; "exchange"; "pair"; "token"; "erc20";
   "erc721"].

Definition critical_functions : list string :=
  ["transfer"; "approve"; "transferFrom"; "balanceOf"; "totalSupply";
   "allowance"].

Definition _is_defi_contract (c : contract) : bool :=
  if any_in defi_patterns (lower_str (c_name c)) then true
  else if existsb (fun f => any_in defi_patterns (lower_str (f_name f)))
            (functions c) then true
  else if existsb (fun b => any_in defi_patterns (lower_str b))
            (inheritance c) then true
  else if existsb (fun v => any_in defi_patterns (lower_str v))
            (state_variables c) then true
  else if default false (is_erc20 c) then true
  else if default false (is_erc721 c) then true
  else
    let defi_function_count :=
      length (filter (fun f => str_mem (f_name f) critical_functions = true)
                (functions c)) in
    (3 <=? defi_function_count)%nat.

(** ** _analyze_function_worklist *)

(** The canonical interval of a declared type, as used for parameters. *)
Definition parameter_interval (param : variable) : Interval :=
  match var_type param with
  | Some t =>
      let type_str := lower_str t in
      if str_in "uint" type_str then
        let bits := type_bits "uint" type_str in
        Interval_Z 0 (2 ^ bits - 1)
      else if str_in "int" type_str then
        let bits := type_bits "int" type_str in
        Interval_Z (- 2 ^ (bits - 1)) (2 ^ (bits - 1) - 1)
      else if str_in "address" type_str then Interval_Z 0 (2 ^ 160 - 1)
      else if str_in "bool" type_str then Interval_Z 0 1
      else unsigned_interval
  | None => unsigned_interval
  end.

(** The loop over [function.parameters]. *)
Definition seed_parameter (a : analyzer) (param : variable) : analyzer :=
  if _is_deFi_critical param then track param (parameter_interval param) a
  else a.

(** [ir.lvalue] and [ir.rvalue], when the instruction has the attribute. *)
Definition ir_lvalue (i : ir) : option variable :=
  match i with
  | Binary v _ _ _ | Assignment v _ | TypeConversion v _ | Member v _ _
  | SolidityCall v _ _ | HighLevelCall v _ _ => Some v
  | OtherIr o _ => o
  end.

Definition ir_rvalue (i : ir) : option operand :=
  match i with
  | Assignment _ r => Some r
  | OtherIr _ r => r
  | _ => None
  end.

(** The second half of the body of the collecting loop: a critical state
    variable read by the instruction gets an initial interval. *)
Definition seed_rvalue (a : analyzer) (i : ir) : analyzer :=
  match ir_rvalue i with
  | Some (OVar var) =>
      match _tracked_vars a !! var with
      | Some _ => a
      | None =>
          if bool_decide (var_cls var = StateVariable) && _is_deFi_critical var then
            match var_type var with
            | Some t =>
                let type_str := lower_str t in
                if str_in "uint" type_str then track var unsigned_interval a
                else if str_in "int" type_str
                then track var (Interval_Z INT_MIN (2 ^ 255 - 1)) a
                else a
            | None => a
            end
          else a
      end
  | _ => a
  end.

(** The first half: the elements of [local_vars.union(temp_vars)].  (A
    set yields its elements in an order that Python leaves open; they
    are taken here in the order of the program.  The loop that reads them
    writes one key per element, so the order decides only the place of
    these keys in the dictionary.) *)
Definition local_or_temp (i : ir) : list variable :=
  match ir_lvalue i with
  | Some var =>
      match var_cls var with
      | LocalVariable | TemporaryVariable => [var]
      | _ => []
      end
  | None => []
  end.

(** The loop over [local_vars.union(temp_vars)]. *)
Definition seed_local (a : analyzer) (var : variable) : analyzer :=
  if _is_deFi_critical var then
    match _tracked_vars a !! var with
    | Some _ => a
    | None =>
        match var_type var with
        | Some t =>
            let type_str := lower_str t in
            if str_in "uint" type_str then track var unsigned_interval a
            else if str_in "int" type_str
            then track var (Interval_Z INT_MIN (2 ^ 255 - 1)) a
            else if str_in "bool" type_str then track var (Interval_Z 0 1) a
            else track var unsigned_interval a
        | None => track var unsigned_interval a
        end
    end
  else a.

(** The statements of [_analyze_function_worklist] before the worklist
    is created. *)
Definition seed_function (f : function) (a : analyzer) : analyzer :=
  let a := reset_tracked a in
  let a := fold_left seed_parameter (parameters f) a in
  let all_irs := flat_map irs (nodes f) in
  let a := fold_left seed_rvalue all_irs a in
  fold_left seed_local (flat_map local_or_temp all_irs) a.

(** The local variables of the worklist loop.  Nodes are identified by
    [node_id]. *)
Record worklist_state : Type := mk_worklist_state {
  worklist : list node;
  processed : gset nat;
  iteration_states : gmap nat (list (gmap key Interval))
}.

(** The node object a successor id stands for. *)
Definition find_node (f : function) (id : nat) : option node :=
  find (fun n => (node_id n =? id)%nat) (nodes f).

(** [son in worklist] *)
Definition in_worklist (son : node) (q : list node) : bool :=
  existsb (fun m => (node_id m =? node_id son)%nat) q.

(** [for son in node.sons: if son not in processed or son in worklist:
    worklist.append(son)] *)
Definition enqueue_sons (done : gset nat) (q : list node) (successors : list node)
  : list node :=
  fold_left
    (fun q son =>
       if negb (bool_decide (node_id son ∈ done)) || in_worklist son q
       then q ++ [son] else q)
    successors q.

(** [for var in self._tracked_vars: if var in old_state:
    self._tracked_vars[var] = old_state[var].widen(self._tracked_vars[var])] *)
Definition widen_state (old_state : gmap key Interval) (a : analyzer) : analyzer :=
  set_tracked
    (map_imap (fun var cur =>
                 Some (match old_state !! Var var with
                       | Some o => widen o cur
                       | None => cur
                       end))
       (_tracked_vars a)) a.

(** The same loop with [self._tracked_vars[var].narrow(old_state[var])]. *)
Definition narrow_state (old_state : gmap key Interval) (a : analyzer) : analyzer :=
  set_tracked
    (map_imap (fun var cur =>
                 Some (match old_state !! Var var with
                       | Some o => narrow cur o
                       | None => cur
                       end))
       (_tracked_vars a)) a.

(** [if node.contains_if(): self._process_condition(node)] followed by
    [for ir in node.irs: self._process_ir(ir)] *)
Definition run_node (n : node) : M unit :=
  update (fun a => if contains_if n then _process_condition n a else a) ;;;
  for_each _process_ir (irs n).

(** The body of [for node in batch_nodes]. *)
Definition visit_node (f : function) (ws : worklist_state) (n : node)
  : M worklist_state :=
  fun a =>
    let old_state := _snapshot_state a in
    let history := default [] (iteration_states ws !! node_id n) ++ [old_state] in
    let should_widen := (_widening_threshold <=? length history)%nat in
    (run_node n ;;;
     (if should_widen then update (widen_state old_state) else ret tt) ;;;
     let* changed := _state_changed old_state default_threshold in
     let q :=
       if changed
       then enqueue_sons (processed ws) (worklist ws)
              (omap (find_node f) (sons n))
       else worklist ws in
     ret (mk_worklist_state q ({[ node_id n ]} ∪ processed ws)
            (<[ node_id n := history ]> (iteration_states ws)))) a.

(** A loop that threads local variables through a body that can raise. *)
Fixpoint fold_M {A S : Type} (body : S -> A -> M S) (xs : list A) (s : S) : M S :=
  match xs with
  | [] => ret s
  | x :: r => let* s' := body s x in fold_M body r s'
  end.

(** [while worklist and iteration < self._max_iterations]; [fuel] is
    [self._max_iterations - iteration]. *)
Fixpoint worklist_loop (fuel : nat) (f : function) (ws : worklist_state)
  : M worklist_state :=
  match fuel with
  | O => ret ws
  | S fuel' =>
      match worklist ws with
      | [] => ret ws
      | _ :: _ =>
          let batch_size := Nat.min _worklist_batch_size (length (worklist ws)) in
          let batch_nodes := take batch_size (worklist ws) in
          let ws := mk_worklist_state (drop batch_size (worklist ws))
                      (processed ws) (iteration_states ws) in
          let* ws := fold_M (visit_node f) batch_nodes ws in
          worklist_loop fuel' f ws
      end
  end.

(** The body of the narrowing loop for one node. *)
Definition narrow_node (history : gmap nat (list (gmap key Interval)))
    (n : node) : M unit :=
  match last (default [] (history !! node_id n)) with
  | None => ret tt
  | Some old_state =>
      run_node n ;;;
      update (narrow_state old_state)
  end.

(** [for _ in range(k): for node in nodes_in_order: ...] *)
Fixpoint narrowing (k : nat) (history : gmap nat (list (gmap key Interval)))
    (nodes_in_order : list node) : M unit :=
  match k with
  | O => ret tt
  | S k' =>
      for_each (narrow_node history) nodes_in_order ;;;
      narrowing k' history nodes_in_order
  end.

(** The summary stored at the end. *)
Definition save_summary (f : function) (a : analyzer) : analyzer :=
  let entry (v : variable) := (v, default Interval_empty (_tracked_vars a !! v)) in
  mk_analyzer (_tracked_vars a) (_tracked_keys a)
    (<[ f_id f := mk_summary (map entry (parameters f)) (map entry (returns f)) ]>
       (_function_summaries a))
    (_potential_issues a) (_safemath_processed a).

(** DeFiRangeAnalyzer._analyze_function_worklist *)
Definition _analyze_function_worklist (f : function) : M unit :=
  update (seed_function f) ;;;
  let* ws := worklist_loop _max_iterations f (mk_worklist_state (nodes f) ∅ ∅) in
  narrowing _narrowing_iterations (iteration_states ws) (nodes f) ;;;
  update (save_summary f).

(** ** analyze *)

(** The dictionaries appended to [results]. *)
Inductive result : Type :=
| ViolationResult (contract_name function_name variable_name : string)
    (v : violation) (interval : Interval)
| IssueResult (i : issue).

(** The violations of the tracked variables after one function, in the
    order of the dictionary. *)
Definition collect_violations (c : contract) (f : function) (a : analyzer)
  : list result :=
  omap (fun entry : variable * Interval =>
          match _check_bounds_violation entry.1 a with
          | Some v =>
              Some (ViolationResult (c_name c) (f_name f) (var_name entry.1) v entry.2)
          | None => None
          end)
    (_tracked_items a).

(** The body of [for function in contract.functions]. *)
Definition analyze_function (c : contract) (results : list result) (f : function)
  : M (list result) :=
  if is_constructor f || String.eqb (f_name f) "slitherConstructorVariables"
  then ret results
  else
    _analyze_function_worklist f ;;;
    fun a => Ok (results ++ collect_violations c f a) a.

(** The body of [for contract in self.compilation_unit.contracts_derived]. *)
Definition analyze_contract (results : list result) (c : contract)
  : M (list result) :=
  if negb (_is_defi_contract c) then ret results
  else fold_M (analyze_function c) (functions c) results.

(** DeFiRangeAnalyzer.analyze *)
Definition analyze (cu : compilation_unit) : M (list result) :=
  let* results := fold_M analyze_contract (contracts_derived cu) [] in
  fun a => Ok (results ++ map IssueResult (_potential_issues a)) a.

(** * The properties of the specification *)

(** ** Vocabulary *)

(** The number a bound stands for: an absent lower bound is [-inf], an
    absent upper bound is [+inf] (the reading of
    [_apply_binary_operation] and of [is_subset]). *)
Definition lo_num (b : option lower) : num := lnum (default LNegInf b).
Definition hi_num (b : option upper) : num := unum (default UPosInf b).

(** The concrete value [z] is described by the interval. *)
Definition contains (i : Interval) (z : Z) : bool :=
  negb (is_bottom i)
  && num_leb (lo_num (min_val i)) (Fin z)
  && num_leb (Fin z) (hi_num (max_val i)).

(** Order on lower bounds and on upper bounds. *)
Definition lower_le (x y : option lower) : Prop :=
  num_leb (lo_num x) (lo_num y) = true.

Definition upper_le (x y : option upper) : Prop :=
  num_leb (hi_num x) (hi_num y) = true.

(** Both bounds are finite integers and [min <= max]. *)
Definition finite_ordered (i : Interval) : bool :=
  match min_val i, max_val i with
  | Some (LFin a), Some (UFin b) => a <=? b
  | _, _ => false
  end.

(** The invariant of the data model, as the specification words it. *)
Definition finite_invariant (i : Interval) : Prop :=
  is_bottom i = false -> is_top i = false -> finite_ordered i = true.

(** The bounds do not cross: when both are finite, [min <= max]. *)
Definition ordered (i : Interval) : Prop :=
  match min_val i, max_val i with
  | Some (LFin a), Some (UFin b) => a <= b
  | _, _ => True
  end.

(** Every tracked interval is [ordered]. *)
Definition state_ordered (a : analyzer) : Prop :=
  forall v i, _tracked_vars a !! v = Some i -> ordered i.


(** The messages that report an overflow of an addition. *)
Definition is_add_overflow_issue (i : issue) : bool :=
  match i with
  | AddOverflow _ _ _ => true
  | _ => false
  end.

(** The comparison operators and the boolean connectives. *)
Definition comparison_operators : list string :=
  ["<"; "<="; ">"; ">="; "=="; "!="].

Definition boolean_connectives : list string :=
  ["&&"; "||"].

(** The ways two intervals of one variable can differ, as the
    specification lists them: another bottom or top status, a finite
    bound that moves by more than the threshold, a bound that appears or
    disappears, a bound that switches between finite and infinite. *)
Inductive differs (threshold : Q) (o n : Interval) : Prop :=
| differs_bottom : is_bottom o <> is_bottom n -> differs threshold o n
| differs_top : is_top o <> is_top n -> differs threshold o n
| differs_min_moved x y :
    min_val o = Some (LFin x) -> min_val n = Some (LFin y) ->
    (threshold < inject_Z (Z.abs (x - y)))%Q -> differs threshold o n
| differs_max_moved x y :
    max_val o = Some (UFin x) -> max_val n = Some (UFin y) ->
    (threshold < inject_Z (Z.abs (x - y)))%Q -> differs threshold o n
| differs_min_None : is_None (min_val o) <> is_None (min_val n) -> differs threshold o n
| differs_max_None : is_None (max_val o) <> is_None (max_val n) -> differs threshold o n
| differs_min_infinite x :
    (min_val o = Some LNegInf /\ min_val n = Some (LFin x))
    \/ (min_val o = Some (LFin x) /\ min_val n = Some LNegInf) ->
    differs threshold o n
| differs_max_infinite x :
    (max_val o = Some UPosInf /\ max_val n = Some (UFin x))
    \/ (max_val o = Some (UFin x) /\ max_val n = Some UPosInf) ->
    differs threshold o n.


(** The transfer function returns [[0, 1]] and leaves the analyzer as it
    is. *)
Definition yields_boolean (op : string) (l r : Interval) : Prop :=
  forall st, _apply_binary_operation op l r st = Ok (Interval_Z 0 1) st.

(** The two checks at the end of [_handle_binary_op]. *)
Definition binary_checks (op_type : string) (left_interval right_interval : Interval)
    (result_var : variable) (left : operand) : M unit :=
  (if str_mem op_type ["+"; "-"; "*"; "**"]
   then _check_overflow_underflow op_type left_interval right_interval result_var
   else ret tt) ;;;
  (if str_mem op_type ["/"; "%"]
   then update (_check_division_by_zero right_interval result_var left)
   else ret tt).

(** The state is left as it is. *)
Definition unchanged (st st' : analyzer) : Prop := st' = st.

(** The sums and differences of bounds that the operations on bounds
    return when they raise nothing. *)
Definition lower_sum (a b : lower) : lower :=
  match a, b with
  | LFin x, LFin y => LFin (x + y)
  | _, _ => LNegInf
  end.

Definition upper_sum (a b : upper) : upper :=
  match a, b with
  | UFin x, UFin y => UFin (x + y)
  | _, _ => UPosInf
  end.

Definition lower_diff (a : lower) (b : upper) : lower :=
  match a, b with
  | LFin x, UFin y => LFin (x - y)
  | _, _ => LNegInf
  end.

Definition upper_diff (a : upper) (b : lower) : upper :=
  match a, b with
  | UFin x, LFin y => UFin (x - y)
  | _, _ => UPosInf
  end.

(** A finite bound converts to a float; an infinite one is a float. *)
Definition lower_converts (a : lower) : bool :=
  match a with LFin z => Z.abs z <? FLOAT_LIMIT | LNegInf => true end.

Definition upper_converts (a : upper) : bool :=
  match a with UFin z => Z.abs z <? FLOAT_LIMIT | UPosInf => true end.

(** The handler can read the operand: a constant made of digits is one
    that [int] accepts. *)
Definition readable (o : operand) : bool :=
  match o with
  | OConst (CStr s) => negb (isdigit s) || bool_decide (is_Some (py_int s))
  | _ => true
  end.

(** Every finite bound of the interval converts to a float. *)
Definition float_safe (i : Interval) : bool :=
  match min_val i with Some a => lower_converts a | None => true end
  && match max_val i with Some b => upper_converts b | None => true end.

(** The messages that report an underflow of a subtraction. *)
Definition is_underflow_issue (i : issue) : bool :=
  match i with
  | SubUnderflow _ _ _ => true
  | _ => false
  end.

(** Between two states of the analyzer a message accepted by [P] was
    appended to [_potential_issues]. *)
Definition recorded (P : issue -> bool) (st st' : analyzer) : Prop :=
  exists new,
    _potential_issues st' = _potential_issues st ++ new
    /\ existsb P new = true.

(** The operands of the overflow boundary test and the interval the
    addition returns for them. *)
Definition boundary_point : Interval := Interval_Z (2 ^ 255) (2 ^ 255).

Definition boundary_sum : Interval :=
  mk_Interval (Some (LFin (2 ^ 256))) (Some (UFin (2 ^ 256 - 1))).

(** Scenario A: an unsigned [balance] and an [amount], both tracked with
    the full unsigned range. *)
Definition acct_balance : variable :=
  mk_variable 1 "balance" (Some "uint256") StateVariable.

Definition acct_amount : variable :=
  mk_variable 2 "amount" (Some "uint256") LocalVariable.

Definition scenario_A : analyzer :=
  track acct_amount unsigned_interval
    (track acct_balance unsigned_interval analyzer_init).

(** A temporary of type [uint256]. *)
Definition tmp_uint (id : positive) : variable :=
  mk_variable id "TMP" (Some "uint256") TemporaryVariable.

(** Scenario A, as the specification states it: the subtraction records
    an underflow candidate, and the bounds check of [balance] reports an
    underflow. *)
Definition underflow_rule (st : analyzer) (balance amount : variable) : Prop :=
  _tracked_vars st !! balance = Some unsigned_interval ->
  _tracked_vars st !! amount = Some unsigned_interval ->
  type_has "uint" balance = true ->
  exists st',
    _handle_binary_op balance "-" (OVar balance) (OVar amount) st = Ok tt st'
    /\ recorded is_underflow_issue st st'
    /\ _check_bounds_violation balance st' = Some (MayUnderflow balance).

(** Scenario A after [balance = SafeMath.sub(balance, amount)] and
    [balance = token.balanceOf(...)]: the call of the library marks
    [balance], the second call gives it the full unsigned range again. *)
Definition library_sub : ir :=
  SolidityCall acct_balance (mk_callee "sub" (Some "SafeMath") None)
    [OVar acct_balance; OVar acct_amount].

Definition balance_query : ir :=
  HighLevelCall acct_balance (mk_callee "balanceOf" None None) [].

Definition marked_A : analyzer :=
  track acct_balance unsigned_interval
    (mark_safemath acct_balance (track acct_balance machine_interval scenario_A)).



(** The simple names of the arithmetic-library functions. *)
Definition library_names : list string := ["add"; "sub"; "mul"; "div"; "mod"].

(** A state with two tracked point intervals, [[1,1]] and [[2,2]]. *)
Definition lib_x : variable := tmp_uint 2.
Definition lib_y : variable := tmp_uint 3.

Definition library_state : analyzer :=
  track lib_y (Interval_Z 2 2) (track lib_x (Interval_Z 1 1) analyzer_init).

(** The dictionary holds the entry [v: i]. *)
Definition tracks (st : analyzer) (v : variable) (i : Interval) : Prop :=
  In (v, i) (_tracked_items st).

(** The list of keys holds the keys of the mapping, each of them once. *)
Definition keys_listed (st : analyzer) : Prop :=
  NoDup (_tracked_keys st)
  /\ forall v, In v (_tracked_keys st) <-> is_Some (_tracked_vars st !! v).

(** A step keeps the list of keys in line with the mapping. *)
Definition keeps_listed (st st' : analyzer) : Prop :=
  keys_listed st -> keys_listed st'.




(** Every variable tracked in [st] is tracked in [st']. *)
Definition keys_grow (st st' : analyzer) : Prop :=
  dom (_tracked_vars st) ⊆ dom (_tracked_vars st').

(** The two states track the same intervals. *)
Definition same_tracked (st st' : analyzer) : Prop :=
  _tracked_vars st' = _tracked_vars st.

(** Whenever the method returns, the states before and after are
    related by [R]. *)
Definition respects {A : Type} (R : analyzer -> analyzer -> Prop) (m : M A) : Prop :=
  forall st a st', m st = Ok a st' -> R st st'.








(** A counter: [x = x + 1] in a node that is its own successor. *)
Definition counter_x : variable :=
  mk_variable 1 "x" (Some "uint256") LocalVariable.

Definition counter_function : function :=
  mk_function 2 "count" false [counter_x] []
    [mk_node 0 [Binary counter_x "+" (OVar counter_x) (OConst (CInt 1))] [0%nat]
       false None].

(** ** Vocabulary of the further properties *)

(** The interval is bottom or has both bounds present. *)
Definition bounded (i : Interval) : Prop :=
  is_bottom i = true \/ (min_val i <> None /\ max_val i <> None).

(** The value lies in the window of the machine, [-2**255 .. 2**256 - 1]. *)
Definition in_machine_range (z : Z) : Prop := INT_MIN <= z <= UINT_MAX.

(** A local variable of the type [uint8]. *)
Definition byte_var : variable :=
  mk_variable 7 "b" (Some "uint8") LocalVariable.

(** The comparison [z op t] of a condition whose right operand is the
    constant [t]. *)
Definition comparison_holds (op : string) (z t : Z) : bool :=
  if String.eqb op "<" then z <? t
  else if String.eqb op "<=" then z <=? t
  else if String.eqb op ">" then z >? t
  else if String.eqb op ">=" then z >=? t
  else if String.eqb op "==" then z =? t
  else if String.eqb op "!=" then negb (z =? t)
  else false.

(** The messages of the second state are those of the first one,
    followed by new ones. *)
Definition issues_grow (st st' : analyzer) : Prop :=
  exists more, _potential_issues st' = _potential_issues st ++ more.

(** The result reports a violation of the bounds of a variable. *)
Definition is_violation (r : result) : bool :=
  match r with
  | ViolationResult _ _ _ _ _ => true
  | IssueResult _ => false
  end.

(** The counter in a contract whose name makes it a DeFi contract. *)
Definition counter_unit : compilation_unit :=
  mk_compilation_unit [mk_contract "Pool" [counter_function] [] [] None None].

(** The two states hold the same function summaries. *)
Definition same_summaries (st st' : analyzer) : Prop :=
  _function_summaries st' = _function_summaries st.


(** ** Proof steps shared by the theorems *)

(** Case analysis on the bounds of an interval and on the tests of the
    operation applied to it. *)
Ltac split_interval i :=
  let l := fresh "l" in
  let u := fresh "u" in
  destruct i as [[[|l]|] [[u|]|]].

Ltac by_cases :=
  simpl in *; repeat case_match; simplify_eq /=; try done; try lia.

(** * Theorems *)

(** ** Widening *)

Lemma num_leb_refl (x : num) : num_leb x x = true.
Proof.
  destruct x; unfold num_leb; simpl; auto.
  rewrite Z.eqb_refl. apply orb_true_r.
Qed.

Lemma num_leb_trans (x y z : num) :
  num_leb x y = true -> num_leb y z = true -> num_leb x z = true.
Proof.
  destruct x, y, z; unfold num_leb; simpl; auto; try discriminate.
  rewrite !orb_true_iff, !Z.ltb_lt, !Z.eqb_eq. lia.
Qed.

Lemma widen_bottom (a b : Interval) : is_bottom a = true -> widen a b = b.
Proof. intros H. unfold widen. rewrite H. reflexivity. Qed.

Lemma widen_min_le (a b : Interval) :
  is_bottom a = false -> lower_le (min_val (widen a b)) (min_val a).
Proof.
  intros Ha. unfold widen, lower_le. rewrite Ha.
  destruct (is_bottom b); [apply num_leb_refl |]. simpl.
  destruct (min_val b) as [o|], (min_val a) as [s|]; try apply num_leb_refl.
  destruct (num_ltb (lnum o) (lnum s)); [| apply num_leb_refl].
  simpl. destruct s; reflexivity.
Qed.

Lemma widen_max_ge (a b : Interval) :
  is_bottom a = false -> upper_le (max_val a) (max_val (widen a b)).
Proof.
  intros Ha. unfold widen, upper_le. rewrite Ha.
  destruct (is_bottom b); [apply num_leb_refl |]. simpl.
  destruct (max_val b) as [o|], (max_val a) as [s|]; try apply num_leb_refl.
  destruct (num_gtb (unum o) (unum s)); [| apply num_leb_refl].
  simpl. destruct s; reflexivity.
Qed.

Lemma widen_not_bottom (a b : Interval) :
  is_bottom a = false -> is_bottom (widen a b) = false.
Proof.
  intros Ha. unfold widen. rewrite Ha.
  destruct (is_bottom b); [exact Ha |].
  destruct a as [[l|] [u|]]; try discriminate; unfold is_bottom; simpl;
    repeat case_match; congruence.
Qed.

Lemma widen_unbounded_min (a b : Interval) :
  is_bottom a = false -> min_val a = None -> min_val (widen a b) = None.
Proof.
  intros Ha Hm. unfold widen. rewrite Ha.
  destruct (is_bottom b); [exact Hm |]. simpl. rewrite Hm.
  destruct (min_val b); reflexivity.
Qed.

Lemma widen_unbounded_max (a b : Interval) :
  is_bottom a = false -> max_val a = None -> max_val (widen a b) = None.
Proof.
  intros Ha Hm. unfold widen. rewrite Ha.
  destruct (is_bottom b); [exact Hm |]. simpl. rewrite Hm.
  destruct (max_val b); reflexivity.
Qed.

(** C9.  Widening never loses a value of its first argument: when [a]
    is bottom, [a.widen(b)] is a copy of [b]; otherwise the lower bound
    of the result is at most the lower bound of [a], its upper bound is
    at least the upper bound of [a], an absent (unbounded) bound of [a]
    stays absent, and every concrete value contained in [a] is contained
    in the result. *)
Theorem widen_never_shrinks (a b : Interval) :
  (is_bottom a = true -> widen a b = b)
  /\ (is_bottom a = false ->
      lower_le (min_val (widen a b)) (min_val a)
      /\ upper_le (max_val a) (max_val (widen a b))
      /\ (min_val a = None -> min_val (widen a b) = None)
      /\ (max_val a = None -> max_val (widen a b) = None)
      /\ forall z, contains a z = true -> contains (widen a b) z = true).
Proof.
  split; [apply widen_bottom |].
  intros Ha.
  pose proof (widen_min_le a b Ha) as Hlo.
  pose proof (widen_max_ge a b Ha) as Hhi.
  repeat split; auto using widen_unbounded_min, widen_unbounded_max.
  intros z. unfold contains.
  rewrite Ha, (widen_not_bottom a b Ha). simpl.
  rewrite !andb_true_iff. intros [H1 H2]. split.
  - eapply num_leb_trans; [exact Hlo | exact H1].
  - eapply num_leb_trans; [exact H2 | exact Hhi].
Qed.

Lemma widen_never_shrinks_witness :
  lower_le (min_val (widen (Interval_Z 0 5) (Interval_Z (-1) 7)))
    (min_val (Interval_Z 0 5))
  /\ contains (widen (Interval_Z 0 5) (Interval_Z (-1) 7)) 3 = true.
Proof.
  destruct (widen_never_shrinks (Interval_Z 0 5) (Interval_Z (-1) 7))
    as [_ H].
  destruct (H eq_refl) as (Hlo & _ & _ & _ & Hc).
  split; [exact Hlo | apply Hc; reflexivity].
Defined.

(** ** The invariant of intervals *)

Lemma ordered_empty : ordered Interval_empty.
Proof. exact I. Qed.

Lemma ordered_join (a b : Interval) :
  ordered a -> ordered b -> ordered (join a b).
Proof.
  split_interval a; split_interval b; intros Ha Hb;
    unfold join, ordered, is_bottom, is_top, both_or_None, py_min, py_max,
      num_gtb, num_ltb in *; by_cases.
Qed.

Lemma ordered_meet (a b : Interval) :
  ordered a -> ordered b -> ordered (meet a b).
Proof.
  split_interval a; split_interval b; intros Ha Hb;
    unfold meet, ordered, is_bottom, is_top, both_or_None, py_min, py_max,
      num_gtb, num_ltb in *; by_cases.
Qed.

Lemma ordered_widen (a b : Interval) :
  ordered a -> ordered b -> ordered (widen a b).
Proof.
  split_interval a; split_interval b; intros Ha Hb;
    unfold widen, ordered, is_bottom, num_gtb, num_ltb in *; by_cases.
Qed.

Lemma meet_crossing (a1 a2 b1 b2 : Z) :
  Z.max a1 b1 > Z.min a2 b2 ->
  meet (Interval_Z a1 a2) (Interval_Z b1 b2) = Interval_empty.
Proof.
  intros H. unfold meet, Interval_Z, is_bottom, is_top, both_or_None,
    py_min, py_max, num_gtb, num_ltb; by_cases.
Qed.

Lemma ordered_split_nonzero (current : Interval) (lo : lower) (hi : upper) :
  num_leb (lnum lo) (Fin 0) = true -> num_geb (unum hi) (Fin 0) = true ->
  ordered (split_nonzero current lo hi).
Proof.
  destruct lo, hi; unfold split_nonzero, ordered, num_geb, num_leb, num_gtb,
    num_ltb, num_eqb; by_cases.
Qed.

Lemma ordered_refine_constant (op : string) (threshold : Z)
    (current new_interval : Interval) :
  ordered current ->
  refine_constant op threshold current = Some new_interval ->
  ordered new_interval.
Proof.
  intros Hc. unfold refine_constant.
  repeat (case_match; [intros [= <-]; apply ordered_meet;
                       [exact Hc | unfold ordered; simpl; try lia; exact I] |]).
  case_match; [| discriminate].
  case_match; [| intros [= <-]; exact Hc].
  destruct (min_val current) as [lo|] eqn:Hlo;
    destruct (max_val current) as [hi|] eqn:Hhi;
    try (intros [= <-]; exact Hc).
  case_match; intros [= <-]; [| exact Hc].
  match goal with
  | H : _ && _ = true |- _ => apply andb_true_iff in H as [Hlow Hhigh]
  end.
  apply ordered_split_nonzero; assumption.
Qed.

Lemma state_ordered_track (v : variable) (i : Interval) (a : analyzer) :
  state_ordered a -> ordered i -> state_ordered (track v i a).
Proof.
  intros Ha Hi w j. unfold track. simpl.
  rewrite lookup_insert. case_decide; [intros [= <-]; exact Hi | apply Ha].
Qed.

Lemma ordered_half_upper (m : upper) : ordered (mk_Interval None (Some m)).
Proof. exact I. Qed.

Lemma ordered_half_lower (m : lower) : ordered (mk_Interval (Some m) None).
Proof. unfold ordered. simpl. destruct m; exact I. Qed.

Lemma state_ordered_refine_variables (op : string) (left right : variable)
    (left_interval right_interval : Interval) (a : analyzer) :
  state_ordered a -> ordered left_interval -> ordered right_interval ->
  state_ordered (refine_variables op left right left_interval right_interval a).
Proof.
  intros Ha Hl Hr. unfold refine_variables.
  repeat case_match;
    repeat (apply state_ordered_track);
    try exact Ha;
    try (apply ordered_meet);
    auto using ordered_half_upper, ordered_half_lower.
Qed.

Lemma state_ordered_process_condition (n : node) (a : analyzer) :
  state_ordered a -> state_ordered (_process_condition n a).
Proof.
  intros Ha. unfold _process_condition.
  destruct (expression n) as [c|]; [| exact Ha].
  destruct (cond_right c) as [rv|k].
  - destruct (cond_left c) as [lv|]; [| exact Ha].
    destruct (_tracked_vars a !! lv) as [li|] eqn:Hl; [| exact Ha].
    destruct (_tracked_vars a !! rv) as [ri|] eqn:Hr; [| exact Ha].
    apply state_ordered_refine_variables; eauto.
  - destruct (constant_threshold k) as [t|]; [| exact Ha].
    destruct (tracked a (cond_left c)) as [cur|] eqn:Hcur; [| exact Ha].
    destruct (cond_left c) as [lv|]; [| exact Ha].
    destruct (refine_constant (cond_op c) t cur) as [ni|] eqn:Hn; [| exact Ha].
    case_match; [| exact Ha].
    apply state_ordered_track; [exact Ha |].
    eapply ordered_refine_constant; [| exact Hn]. eapply Ha. exact Hcur.
Qed.

(** C2, as the specification states it, fails: [[0,5].widen([-1,5])] is
    [[-inf, 5]], which is neither bottom nor top and has no finite lower
    bound. *)
Lemma widen_breaks_finite_invariant :
  ~ finite_invariant (widen (Interval_Z 0 5) (Interval_Z (-1) 5)).
Proof.
  unfold finite_invariant. intros H.
  specialize (H eq_refl eq_refl). discriminate H.
Qed.

(** C2, amended.  [join], [meet] and [widen] applied to intervals whose
    bounds do not cross, and the condition refinement of a state of such
    intervals, produce intervals whose bounds do not cross: each bound is
    a finite integer or unbounded, and when both are finite the lower one
    is at most the upper one.  A [meet] of two finite intervals whose raw
    bounds cross is bottom. *)
Theorem interval_bounds_never_cross :
  (forall a b : Interval,
      ordered a -> ordered b ->
      ordered (join a b) /\ ordered (meet a b) /\ ordered (widen a b))
  /\ (forall a1 a2 b1 b2 : Z,
         Z.max a1 b1 > Z.min a2 b2 ->
         is_bottom (meet (Interval_Z a1 a2) (Interval_Z b1 b2)) = true)
  /\ (forall (n : node) (a : analyzer),
         state_ordered a -> state_ordered (_process_condition n a)).
Proof.
  split; [| split].
  - intros a b Ha Hb.
    auto using ordered_join, ordered_meet, ordered_widen.
  - intros a1 a2 b1 b2 H. rewrite meet_crossing by exact H. reflexivity.
  - apply state_ordered_process_condition.
Qed.

Lemma interval_bounds_never_cross_witness :
  ordered (join (Interval_Z 0 5) (Interval_Z 3 9))
  /\ ordered (meet (Interval_Z 0 5) (Interval_Z 3 9))
  /\ ordered (widen (Interval_Z 0 5) (Interval_Z (-1) 5))
  /\ is_bottom (meet (Interval_Z 0 2) (Interval_Z 3 9)) = true.
Proof.
  destruct interval_bounds_never_cross as (H1 & H2 & _).
  destruct (H1 (Interval_Z 0 5) (Interval_Z 3 9)) as (Hj & Hm & _);
    [unfold ordered; simpl; lia | unfold ordered; simpl; lia |].
  destruct (H1 (Interval_Z 0 5) (Interval_Z (-1) 5)) as (_ & _ & Hw);
    [unfold ordered; simpl; lia | unfold ordered; simpl; lia |].
  split; [exact Hj |]. split; [exact Hm |]. split; [exact Hw |].
  apply (H2 0 2 3 9). lia.
Defined.

(** ** Comparisons and boolean connectives *)

(** C4, as the specification states it, fails: with a bottom operand the
    result of [<] is bottom, not [[0, 1]]. *)
Lemma comparison_of_bottom_is_bottom :
  ~ yields_boolean "<" Interval_empty (Interval_Z 0 1).
Proof.
  intros H. specialize (H analyzer_init). discriminate H.
Qed.

(** C4, amended.  For operand intervals that are neither bottom nor top,
    every comparison operator and boolean connective yields [[0, 1]];
    when an operand is bottom the result is bottom, and otherwise, when
    an operand is top, the result is top (the two guards at the head of
    [_apply_binary_operation]).  In each case the analyzer is left as it
    is. *)
Theorem comparison_yields_boolean (op : string) (l r : Interval) :
  In op (comparison_operators ++ boolean_connectives) ->
  (is_bottom l = false -> is_top l = false ->
   is_bottom r = false -> is_top r = false ->
   yields_boolean op l r)
  /\ (is_bottom l = true \/ is_bottom r = true ->
      forall st, _apply_binary_operation op l r st = Ok Interval_empty st)
  /\ (is_bottom l = false -> is_bottom r = false ->
      is_top l = true \/ is_top r = true ->
      forall st, _apply_binary_operation op l r st = Ok Interval_top st).
Proof.
  intros Hop. split; [| split].
  - intros Hbl Htl Hbr Htr st.
    unfold _apply_binary_operation. rewrite Hbl, Htl, Hbr, Htr.
    simpl in Hop.
    repeat (destruct Hop as [<- | Hop]; [reflexivity |]).
    destruct Hop.
  - intros Hb st. unfold _apply_binary_operation.
    replace (is_bottom l || is_bottom r) with true; [reflexivity |].
    destruct Hb as [-> | ->]; [reflexivity | rewrite orb_true_r; reflexivity].
  - intros Hbl Hbr Ht st. unfold _apply_binary_operation.
    rewrite Hbl, Hbr. cbn [orb].
    replace (is_top l || is_top r) with true
      by (destruct Ht as [-> | ->]; [reflexivity | rewrite orb_true_r; reflexivity]).
    simpl in Hop.
    repeat (destruct Hop as [<- | Hop]; [reflexivity |]).
    destruct Hop.
Qed.

Lemma comparison_yields_boolean_witness :
  yields_boolean "<=" (Interval_Z 0 5) (Interval_Z 3 9)
  /\ _apply_binary_operation "==" Interval_empty Interval_top analyzer_init
     = Ok Interval_empty analyzer_init
  /\ _apply_binary_operation "&&" (Interval_Z 0 5) Interval_top analyzer_init
     = Ok Interval_top analyzer_init.
Proof.
  split; [| split].
  - apply (proj1 (comparison_yields_boolean "<=" (Interval_Z 0 5) (Interval_Z 3 9)
                    ltac:(simpl; tauto)));
      reflexivity.
  - apply (proj1 (proj2 (comparison_yields_boolean "==" Interval_empty Interval_top
                           ltac:(simpl; tauto)))).
    left. reflexivity.
  - apply (proj2 (proj2 (comparison_yields_boolean "&&" (Interval_Z 0 5) Interval_top
                           ltac:(simpl; tauto))));
      [reflexivity | reflexivity | right; reflexivity].
Defined.

(** ** Methods and the relations between states they respect *)

Section Respects.
Context (R : analyzer -> analyzer -> Prop).
Hypothesis R_refl : forall st, R st st.
Hypothesis R_trans : forall a b c, R a b -> R b c -> R a c.

Lemma respects_ret {A} (x : A) : respects R (ret x).
Proof. intros st a st' [= _ <-]. apply R_refl. Qed.

Lemma respects_raise {A} (e : exn) : respects R (@raise A e).
Proof. intros st a st' [=]. Qed.

Lemma respects_bind {A B} (m : M A) (k : A -> M B) :
  respects R m -> (forall x, respects R (k x)) -> respects R (bind m k).
Proof.
  intros Hm Hk st b st'. unfold bind.
  destruct (m st) as [x st1|e] eqn:E; [| discriminate].
  intros H. eapply R_trans; [eapply Hm; exact E | eapply Hk; exact H].
Qed.

Lemma respects_update (f : analyzer -> analyzer) :
  (forall st, R st (f st)) -> respects R (update f).
Proof. intros Hf st a st' [= _ <-]. apply Hf. Qed.

Lemma respects_for_each {A} (body : A -> M unit) (xs : list A) :
  (forall x, respects R (body x)) -> respects R (for_each body xs).
Proof.
  intros Hb. induction xs as [|x r IH]; simpl.
  - apply respects_ret.
  - apply respects_bind; [apply Hb | intros _; exact IH].
Qed.

Lemma respects_fold_M {A S} (body : S -> A -> M S) (xs : list A) :
  (forall s x, respects R (body s x)) -> forall s, respects R (fold_M body xs s).
Proof.
  intros Hb. induction xs as [|x r IH]; intros s; simpl.
  - apply respects_ret.
  - apply respects_bind; [apply Hb | intros s'; apply IH].
Qed.
End Respects.

Lemma same_tracked_refl st : same_tracked st st.
Proof. reflexivity. Qed.

Lemma same_tracked_trans a b c : same_tracked a b -> same_tracked b c -> same_tracked a c.
Proof. unfold same_tracked. congruence. Qed.

Lemma keys_grow_refl st : keys_grow st st.
Proof. unfold keys_grow. set_solver. Qed.

Lemma keys_grow_trans a b c : keys_grow a b -> keys_grow b c -> keys_grow a c.
Proof. unfold keys_grow. set_solver. Qed.

Lemma same_tracked_keys_grow a b : same_tracked a b -> keys_grow a b.
Proof. unfold same_tracked, keys_grow. intros ->. set_solver. Qed.

Lemma keys_grow_track v i st : keys_grow st (track v i st).
Proof.
  unfold keys_grow, track. simpl. rewrite dom_insert_L. set_solver.
Qed.

(** ** The handler of binary operations *)

Lemma unchanged_refl st : unchanged st st.
Proof. reflexivity. Qed.

Lemma unchanged_trans a b c : unchanged a b -> unchanged b c -> unchanged a c.
Proof. unfold unchanged. congruence. Qed.

Lemma to_float_converts z st :
  (Z.abs z <? FLOAT_LIMIT) = true -> to_float z st = Ok tt st.
Proof. intros H. unfold to_float. rewrite H. reflexivity. Qed.

Lemma to_float_returns z st u st' :
  to_float z st = Ok u st' -> st' = st /\ (Z.abs z <? FLOAT_LIMIT) = true.
Proof.
  unfold to_float. destruct (Z.abs z <? FLOAT_LIMIT); [| discriminate].
  intros [= _ <-]. split; reflexivity.
Qed.

Lemma to_float_raises z st e : to_float z st = Raise e -> e = OverflowError.
Proof.
  unfold to_float. destruct (Z.abs z <? FLOAT_LIMIT); [discriminate |].
  intros [= <-]. reflexivity.
Qed.

(** An operation on two bounds: it returns the sum (the difference) and
    leaves the state, or raises [OverflowError]. *)
Ltac bound_operation :=
  intros;
  repeat match goal with
         | a : lower |- _ => destruct a
         | a : upper |- _ => destruct a
         end;
  cbn [lower_add upper_add lower_sub_upper upper_sub_lower
       lower_sum upper_sum lower_diff upper_diff
       lower_converts upper_converts] in *;
  unfold bind, ret in *;
  repeat match goal with
         | H : context [to_float ?z ?st] |- _ =>
             let E := fresh "E" in
             destruct (to_float z st) as [[] ?|?] eqn:E;
             [apply to_float_returns in E; destruct E as [-> _]
             | apply to_float_raises in E; subst]
         | H : (Z.abs ?z <? FLOAT_LIMIT) = true |- context [to_float ?z ?st] =>
             rewrite (to_float_converts z st H)
         end;
  simplify_eq; auto.

Lemma lower_add_returns a b st x st' :
  lower_add a b st = Ok x st' -> x = lower_sum a b /\ st' = st.
Proof. bound_operation. Qed.

Lemma upper_add_returns a b st x st' :
  upper_add a b st = Ok x st' -> x = upper_sum a b /\ st' = st.
Proof. bound_operation. Qed.

Lemma lower_sub_upper_returns a b st x st' :
  lower_sub_upper a b st = Ok x st' -> x = lower_diff a b /\ st' = st.
Proof. bound_operation. Qed.

Lemma upper_sub_lower_returns a b st x st' :
  upper_sub_lower a b st = Ok x st' -> x = upper_diff a b /\ st' = st.
Proof. bound_operation. Qed.





Lemma lower_add_converts a b st :
  lower_converts a = true -> lower_converts b = true ->
  lower_add a b st = Ok (lower_sum a b) st.
Proof. bound_operation. Qed.

Lemma upper_add_converts a b st :
  upper_converts a = true -> upper_converts b = true ->
  upper_add a b st = Ok (upper_sum a b) st.
Proof. bound_operation. Qed.

Lemma lower_sub_upper_converts a b st :
  lower_converts a = true -> upper_converts b = true ->
  lower_sub_upper a b st = Ok (lower_diff a b) st.
Proof. bound_operation. Qed.

Lemma upper_sub_lower_converts a b st :
  upper_converts a = true -> lower_converts b = true ->
  upper_sub_lower a b st = Ok (upper_diff a b) st.
Proof. bound_operation. Qed.

Lemma upper_mul_overflows_returns a b st x st' :
  upper_mul_overflows a b st = Ok x st' -> st' = st.
Proof.
  destruct a, b; cbn [upper_mul_overflows]; unfold bind, ret.
  - intros [= _ <-]. reflexivity.
  - destruct (to_float z st) as [[] st1|e] eqn:E; [| discriminate].
    apply to_float_returns in E. destruct E as [-> _].
    intros [= _ <-]. reflexivity.
  - destruct (to_float z st) as [[] st1|e] eqn:E; [| discriminate].
    apply to_float_returns in E. destruct E as [-> _].
    intros [= _ <-]. reflexivity.
  - intros [= _ <-]. reflexivity.
Qed.


Lemma overflow_issue_returns op l r v st x st' :
  overflow_issue op l r v st = Ok x st' -> st' = st.
Proof.
  unfold overflow_issue.
  destruct (String.eqb op "+").
  { destruct (max_val l) as [a|], (max_val r) as [b|]; unfold bind, ret;
      try (intros [= _ <-]; reflexivity).
    destruct (upper_add a b st) as [s st1|e] eqn:E; [| discriminate].
    apply upper_add_returns in E. destruct E as [_ ->].
    destruct (num_geb _ _); intros [= _ <-]; reflexivity. }
  destruct (String.eqb op "-").
  { unfold ret. repeat case_match; intros [= _ <-]; reflexivity. }
  destruct (String.eqb op "*").
  { destruct (max_val l) as [a|], (max_val r) as [b|]; unfold bind, ret;
      try (intros [= _ <-]; reflexivity).
    destruct (upper_mul_overflows a b st) as [s st1|e] eqn:E; [| discriminate].
    apply upper_mul_overflows_returns in E. subst st1.
    destruct s; intros [= _ <-]; reflexivity. }
  unfold ret. repeat case_match; intros [= _ <-]; reflexivity.
Qed.


(** The overflow check returns with the state it was given, or with one
    more message. *)
Lemma check_overflow_returns op l r v st u st' :
  _check_overflow_underflow op l r v st = Ok u st' ->
  st' = st \/ (safemath_marked st v = false /\ exists i, st' = add_issue i st).
Proof.
  unfold _check_overflow_underflow.
  destruct (safemath_marked st v); [intros [= _ <-]; left; reflexivity |].
  unfold bind.
  destruct (overflow_issue op l r v st) as [[i|] st1|e] eqn:E; [| | discriminate];
    apply overflow_issue_returns in E; subst st1.
  - intros [= _ <-]. right. split; [reflexivity | eauto].
  - intros [= _ <-]. left. reflexivity.
Qed.


Lemma check_overflow_marked op l r v st :
  safemath_marked st v = true ->
  _check_overflow_underflow op l r v st = Ok tt st.
Proof. intros H. unfold _check_overflow_underflow. rewrite H. reflexivity. Qed.

Lemma tracked_check_overflow op l r v :
  respects same_tracked (_check_overflow_underflow op l r v).
Proof.
  intros st u st' H. apply check_overflow_returns in H.
  destruct H as [-> | (_ & i & ->)]; reflexivity.
Qed.

Lemma tracked_check_division r v l a :
  _tracked_vars (_check_division_by_zero r v l a) = _tracked_vars a.
Proof.
  unfold _check_division_by_zero. repeat case_match; reflexivity.
Qed.

Lemma safemath_marked_track v i a w :
  safemath_marked (track v i a) w = safemath_marked a w.
Proof. reflexivity. Qed.

Lemma lookup_track v i a :
  _tracked_vars (track v i a) !! v = Some i.
Proof. unfold track. simpl. apply lookup_insert_eq. Qed.


(** Reading the operands. *)
Lemma read_operand_readable st o st' :
  readable o = true -> read_operand st o st' = Ok (operand_interval st o) st'.
Proof.
  destruct o as [v | [z | s |]]; try reflexivity.
  unfold readable, read_operand, operand_interval, binary_constant, int_of_str, bind.
  cbn [tracked default from_option id].
  destruct (isdigit s).
  - cbn [negb orb]. intros H. apply bool_decide_eq_true in H.
    destruct H as [z ->]. reflexivity.
  - intros _. destruct (startswith s "0x"); [| reflexivity].
    destruct (py_int16 s); reflexivity.
Qed.

Lemma read_operand_unreadable st o st' :
  readable o = false -> read_operand st o st' = Raise ValueError.
Proof.
  destruct o as [v | [z | s |]]; try discriminate.
  unfold readable, read_operand, int_of_str, bind.
  destruct (isdigit s); [| discriminate].
  cbn [negb orb]. intros H. apply bool_decide_eq_false in H.
  destruct (py_int s) as [z|]; [exfalso; apply H; eauto | reflexivity].
Qed.


Lemma handle_binary_op_unfold target op left right st :
  readable left = true -> readable right = true ->
  _handle_binary_op target op left right st
  = (let* result_interval :=
       _apply_binary_operation op (operand_interval st left)
         (operand_interval st right) in
     update (track target result_interval) ;;;
     binary_checks op (operand_interval st left) (operand_interval st right)
       target left) st.
Proof.
  intros Hl Hr. unfold _handle_binary_op, bind at 1.
  rewrite (read_operand_readable st right st Hr).
  unfold bind at 1. rewrite (read_operand_readable st left st Hl).
  reflexivity.
Qed.

Lemma handle_binary_op_steps target op left right st i st1 :
  readable left = true -> readable right = true ->
  _apply_binary_operation op (operand_interval st left) (operand_interval st right) st
    = Ok i st1 ->
  _handle_binary_op target op left right st
  = binary_checks op (operand_interval st left) (operand_interval st right)
      target left (track target i st1).
Proof.
  intros Hl Hr H. rewrite handle_binary_op_unfold by assumption.
  unfold bind at 1. rewrite H. reflexivity.
Qed.

Lemma handle_binary_op_raises target op left right st e :
  readable left = true -> readable right = true ->
  _apply_binary_operation op (operand_interval st left) (operand_interval st right) st
    = Raise e ->
  _handle_binary_op target op left right st = Raise e.
Proof.
  intros Hl Hr H. rewrite handle_binary_op_unfold by assumption.
  unfold bind at 1. rewrite H. reflexivity.
Qed.

Lemma handle_binary_op_unreadable target op left right st :
  readable left && readable right = false ->
  _handle_binary_op target op left right st = Raise ValueError.
Proof.
  intros H. unfold _handle_binary_op, bind at 1.
  destruct (readable right) eqn:Hr.
  - rewrite (read_operand_readable st right st Hr).
    rewrite andb_true_r in H.
    unfold bind at 1. rewrite (read_operand_unreadable st left st H). reflexivity.
  - rewrite (read_operand_unreadable st right st Hr). reflexivity.
Qed.

Lemma tracked_binary_checks op l r v left :
  respects same_tracked (binary_checks op l r v left).
Proof.
  unfold binary_checks.
  apply (respects_bind _ same_tracked_trans).
  - destruct (str_mem op ["+"; "-"; "*"; "**"]);
      [apply tracked_check_overflow | apply (respects_ret _ same_tracked_refl)].
  - intros _. destruct (str_mem op ["/"; "%"]);
      [| apply (respects_ret _ same_tracked_refl)].
    apply respects_update. intros st. unfold same_tracked.
    apply tracked_check_division.
Qed.


Lemma tracked_after_checks op l r v left st st' w :
  binary_checks op l r v left st = Ok tt st' ->
  _tracked_vars st' !! w = _tracked_vars st !! w.
Proof.
  intros H. apply tracked_binary_checks in H. unfold same_tracked in H.
  rewrite H. reflexivity.
Qed.

(** ** The overflow boundary *)

Lemma apply_add_boundary st :
  _apply_binary_operation "+" boundary_point boundary_point st = Ok boundary_sum st.
Proof. reflexivity. Qed.

(** C5, on the code.  [[2^255, 2^255] + [2^255, 2^255]] is flagged as an
    overflow, but the interval installed for the target is
    [[2^256, 2^256 - 1]]: the upper bound is clamped to the machine
    ceiling, the lower bound is only clamped from below and stays at
    [2^256].  The result is not the point interval at the ceiling. *)
Theorem add_at_boundary_crosses (target : variable) (st : analyzer) :
  exists st',
    _handle_binary_op target "+" (OConst (CInt (2 ^ 255))) (OConst (CInt (2 ^ 255))) st
      = Ok tt st'
    /\ _tracked_vars st' !! target = Some boundary_sum
    /\ boundary_sum <> Interval_Z UINT_MAX UINT_MAX
    /\ (safemath_marked st target = false ->
        _potential_issues st'
        = _potential_issues st ++ [AddOverflow target boundary_point boundary_point]).
Proof.
  destruct (binary_checks "+" boundary_point boundary_point target
              (OConst (CInt (2 ^ 255))) (track target boundary_sum st))
    as [[] st'|e] eqn:Hc.
  - exists st'. split; [| split; [| split]].
    + rewrite (handle_binary_op_steps target "+" _ _ st boundary_sum st);
        [exact Hc | reflexivity | reflexivity | apply apply_add_boundary].
    + rewrite (tracked_after_checks _ _ _ _ _ _ _ target Hc). apply lookup_track.
    + discriminate.
    + intros Hs. revert Hc.
      unfold binary_checks, _check_overflow_underflow, bind. simpl.
      rewrite safemath_marked_track, Hs. intros [= <-]. reflexivity.
  - exfalso. revert Hc.
    unfold binary_checks, _check_overflow_underflow, bind. simpl.
    destruct (safemath_marked _ _); discriminate.
Qed.

Lemma add_at_boundary_crosses_witness :
  exists st',
    _handle_binary_op (tmp_uint 1) "+" (OConst (CInt (2 ^ 255)))
      (OConst (CInt (2 ^ 255))) analyzer_init = Ok tt st'
    /\ _tracked_vars st' !! tmp_uint 1 = Some boundary_sum
    /\ _potential_issues st' = [AddOverflow (tmp_uint 1) boundary_point boundary_point].
Proof.
  destruct (add_at_boundary_crosses (tmp_uint 1) analyzer_init)
    as (st' & H1 & H2 & _ & H4).
  exists st'. split; [exact H1 |]. split; [exact H2 |].
  apply H4. reflexivity.
Defined.

(** ** Scenario A: unsigned subtraction *)

Lemma check_underflow_unsigned balance st :
  type_has "uint" balance = true ->
  _check_overflow_underflow "-" unsigned_interval unsigned_interval balance st
  = Ok tt (if safemath_marked st balance then st
           else add_issue (SubUnderflow balance unsigned_interval unsigned_interval)
                  st).
Proof.
  intros Hty. unfold _check_overflow_underflow.
  destruct (safemath_marked st balance); [reflexivity |].
  unfold overflow_issue, bind. simpl. rewrite Hty. reflexivity.
Qed.

Lemma subtraction_of_unsigned st balance amount :
  _tracked_vars st !! balance = Some unsigned_interval ->
  _tracked_vars st !! amount = Some unsigned_interval ->
  type_has "uint" balance = true ->
  _handle_binary_op balance "-" (OVar balance) (OVar amount) st
  = Ok tt (if safemath_marked st balance
           then track balance machine_interval st
           else add_issue (SubUnderflow balance unsigned_interval unsigned_interval)
                  (track balance machine_interval st)).
Proof.
  intros Hb Ha Hty.
  rewrite (handle_binary_op_steps _ _ _ _ _ machine_interval st);
    [| reflexivity | reflexivity | simpl; rewrite Hb, Ha; reflexivity].
  simpl operand_interval. rewrite Hb, Ha. cbn [default from_option id].
  unfold binary_checks, bind. cbn [str_mem existsb String.eqb Ascii.eqb Bool.eqb orb].
  rewrite (check_underflow_unsigned balance _ Hty), safemath_marked_track.
  reflexivity.
Qed.

Lemma underflow_reported balance st :
  _tracked_vars st !! balance = Some machine_interval ->
  type_has "uint" balance = true ->
  _check_bounds_violation balance st = Some (MayUnderflow balance).
Proof.
  intros Ht Hty. unfold _check_bounds_violation. rewrite Ht. simpl.
  rewrite Hty. reflexivity.
Qed.

(** The state of the counterexample is reached from scenario A by two
    instructions. *)
Lemma marked_A_reached :
  for_each _process_ir [library_sub; balance_query] scenario_A = Ok tt marked_A.
Proof. reflexivity. Qed.

(** C6, as the specification states it, fails.  After
    [balance = SafeMath.sub(balance, amount)] the variable [balance] is
    marked, and after [balance = token.balanceOf(...)] it has the full
    unsigned range again: the subtraction [balance = balance - amount]
    then records no underflow candidate. *)
Lemma marked_balance_records_nothing :
  ~ underflow_rule marked_A acct_balance acct_amount.
Proof.
  intros H.
  destruct (H eq_refl eq_refl eq_refl) as (st' & Hrun & (new & Hnew & Hex) & _).
  rewrite (subtraction_of_unsigned marked_A acct_balance acct_amount eq_refl eq_refl
             eq_refl) in Hrun.
  injection Hrun as <-.
  change (_potential_issues marked_A = _potential_issues marked_A ++ new) in Hnew.
  rewrite <- (app_nil_r (_potential_issues marked_A)) in Hnew at 1.
  apply app_inv_head in Hnew. subst new. discriminate Hex.
Qed.

(** C6, amended.  For [balance = balance - amount] with an unsigned
    [balance] and both operands tracked as [[0, 2^256 - 1]]: the handler
    installs [[-2^255, 2^256 - 1]] for [balance], and the bounds check of
    [balance] then reports an underflow.  When no library call has
    marked [balance], the handler records an underflow candidate for the
    subtraction; when one has, it records nothing. *)
Theorem unsigned_subtraction_underflows (st : analyzer) (balance amount : variable) :
  _tracked_vars st !! balance = Some unsigned_interval ->
  _tracked_vars st !! amount = Some unsigned_interval ->
  type_has "uint" balance = true ->
  exists st',
    _handle_binary_op balance "-" (OVar balance) (OVar amount) st = Ok tt st'
    /\ _tracked_vars st' !! balance = Some machine_interval
    /\ _check_bounds_violation balance st' = Some (MayUnderflow balance)
    /\ (safemath_marked st balance = false ->
        _potential_issues st'
        = _potential_issues st
            ++ [SubUnderflow balance unsigned_interval unsigned_interval])
    /\ (safemath_marked st balance = true ->
        _potential_issues st' = _potential_issues st).
Proof.
  intros Hb Ha Hty.
  eexists. split; [apply subtraction_of_unsigned; assumption |].
  assert (Ht : _tracked_vars
                 (if safemath_marked st balance
                  then track balance machine_interval st
                  else add_issue
                         (SubUnderflow balance unsigned_interval unsigned_interval)
                         (track balance machine_interval st)) !! balance
               = Some machine_interval)
    by (destruct (safemath_marked st balance); apply lookup_track).
  split; [exact Ht |].
  split; [apply underflow_reported; assumption |].
  split; intros ->; reflexivity.
Qed.

Lemma unsigned_subtraction_underflows_witness :
  exists st',
    _handle_binary_op acct_balance "-" (OVar acct_balance) (OVar acct_amount)
      scenario_A = Ok tt st'
    /\ _check_bounds_violation acct_balance st' = Some (MayUnderflow acct_balance)
    /\ _potential_issues st'
       = [SubUnderflow acct_balance unsigned_interval unsigned_interval].
Proof.
  destruct (unsigned_subtraction_underflows scenario_A acct_balance acct_amount)
    as (st' & H1 & _ & H3 & H4 & _); try reflexivity.
  exists st'. split; [exact H1 |]. split; [exact H3 |].
  apply H4. reflexivity.
Defined.

(** ** Division and modulo by an interval that contains zero *)

Lemma contains_not_bottom i z : contains i z = true -> is_bottom i = false.
Proof.
  unfold contains. destruct (is_bottom i); [discriminate | reflexivity].
Qed.











(** ** Arithmetic-library calls *)

Lemma apply_library_name name l r st :
  In name library_names ->
  is_bottom l = false -> is_top l = false ->
  is_bottom r = false -> is_top r = false ->
  _apply_binary_operation name l r st = Ok machine_interval st.
Proof.
  intros Hn Hbl Htl Hbr Htr.
  unfold _apply_binary_operation. rewrite Hbl, Htl, Hbr, Htr.
  simpl in Hn.
  repeat (destruct Hn as [<- | Hn]; [reflexivity |]).
  destruct Hn.
Qed.

Lemma str_mem_In x l : In x l -> str_mem x l = true.
Proof.
  intros H. unfold str_mem. apply existsb_exists. exists x.
  split; [exact H | apply String.eqb_refl].
Qed.

Lemma collect_args_two st a b la lb :
  tracked st a = Some la -> tracked st b = Some lb ->
  collect_args st [a; b] = Some [la; lb].
Proof.
  intros Ha Hb. cbn [collect_args]. rewrite Ha, Hb. reflexivity.
Qed.

(** Whatever the library function, the handler installs the interval of
    the unknown-operator branch: [_apply_binary_operation] is called with
    the name of the function, and its tests are on operator symbols. *)
Lemma library_call_installs_default (st : analyzer) (target : variable)
    (f : callee) (a b : operand) (la lb : Interval) :
  In (lower_str (fn_name f)) library_names ->
  tracked st a = Some la -> tracked st b = Some lb ->
  is_bottom la = false -> is_top la = false ->
  is_bottom lb = false -> is_top lb = false ->
  exists st',
    _handle_solidity_call target f [a; b] st = Ok tt st'
    /\ _tracked_vars st' !! target = Some machine_interval.
Proof.
  intros Hn Ha Hb Hbl Htl Hbr Htr.
  unfold _handle_solidity_call.
  change ["add"; "sub"; "mul"; "div"; "mod"] with library_names.
  rewrite (str_mem_In _ _ Hn).
  rewrite (collect_args_two st a b la lb Ha Hb).
  unfold bind. rewrite (apply_library_name _ la lb st Hn Hbl Htl Hbr Htr).
  unfold update, ret.
  destruct (match fn_contract f with Some _ => _ | None => _ end);
    eexists; (split; [reflexivity |]); apply lookup_track.
Qed.

(** C1, on the code.  For [SafeMath.add(x, y)] with [x] in [[1,1]] and
    [y] in [[2,2]] the handler installs [[-2^255, 2^256 - 1]], while the
    rule of [+] on the same operands gives [[3,3]]. *)
Theorem library_add_is_not_plus :
  (exists st',
      _handle_solidity_call (tmp_uint 1) (mk_callee "add" (Some "SafeMath") None)
        [OVar lib_x; OVar lib_y] library_state = Ok tt st'
      /\ _tracked_vars st' !! tmp_uint 1 = Some machine_interval)
  /\ _apply_binary_operation "+" (Interval_Z 1 1) (Interval_Z 2 2) library_state
     = Ok (Interval_Z 3 3) library_state
  /\ machine_interval <> Interval_Z 3 3.
Proof.
  split; [| split].
  - apply (library_call_installs_default library_state (tmp_uint 1) _ _ _
             (Interval_Z 1 1) (Interval_Z 2 2)); try reflexivity.
    simpl. tauto.
  - reflexivity.
  - intros H. vm_compute in H. discriminate H.
Qed.

(** ** The state-change test *)

Lemma exceeds_spec t d : exceeds t d = true <-> (t < inject_Z (Z.abs d))%Q.
Proof.
  unfold exceeds. rewrite negb_true_iff.
  split.
  - intros H. apply Qnot_le_lt. intros Hle.
    apply Qle_bool_iff in Hle. congruence.
  - intros H. destruct (Qle_bool _ _) eqn:E; [| reflexivity].
    apply Qle_bool_iff in E. exfalso. exact (Qlt_not_le _ _ H E).
Qed.

Lemma negb_eqb_true (x y : bool) : negb (eqb x y) = true <-> x <> y.
Proof. destruct x, y; simpl; split; congruence. Qed.

(** The test of one bound returns without touching the state, and its
    answer is [True] exactly when a finite bound has moved by more than
    the threshold or the bound has switched between finite and
    infinite. *)
Lemma lower_moved_returns t a b st x st' :
  lower_moved t a b st = Ok x st' ->
  st' = st
  /\ (x = true <->
      (exists p q, a = LFin p /\ b = LFin q /\ (t < inject_Z (Z.abs (p - q)))%Q)
      \/ (exists p, (a = LNegInf /\ b = LFin p) \/ (a = LFin p /\ b = LNegInf))).
Proof.
  destruct a as [|p], b as [|q]; cbn [lower_moved]; unfold bind, ret.
  - intros [= <- <-]. split; [reflexivity |]. split; [discriminate |].
    intros [(? & ? & ? & _) | (? & [[_ ?] | [? _]])]; discriminate.
  - destruct (to_float q st) as [[] st1|e] eqn:E; [| discriminate].
    apply to_float_returns in E. destruct E as [-> _].
    intros [= <- <-]. split; [reflexivity |].
    split; [intros _; right; exists q; left; split; reflexivity | reflexivity].
  - destruct (to_float p st) as [[] st1|e] eqn:E; [| discriminate].
    apply to_float_returns in E. destruct E as [-> _].
    intros [= <- <-]. split; [reflexivity |].
    split; [intros _; right; exists p; right; split; reflexivity | reflexivity].
  - intros [= <- <-]. split; [reflexivity |]. rewrite exceeds_spec. split.
    + intros H. left. exists p, q. repeat split. exact H.
    + intros [(p' & q' & [= ->] & [= ->] & H) | (? & [[? _] | [_ ?]])];
        [exact H | discriminate ..].
Qed.

Lemma upper_moved_returns t a b st x st' :
  upper_moved t a b st = Ok x st' ->
  st' = st
  /\ (x = true <->
      (exists p q, a = UFin p /\ b = UFin q /\ (t < inject_Z (Z.abs (p - q)))%Q)
      \/ (exists p, (a = UPosInf /\ b = UFin p) \/ (a = UFin p /\ b = UPosInf))).
Proof.
  destruct a as [p|], b as [q|]; cbn [upper_moved]; unfold bind, ret.
  - intros [= <- <-]. split; [reflexivity |]. rewrite exceeds_spec. split.
    + intros H. left. exists p, q. repeat split. exact H.
    + intros [(p' & q' & [= ->] & [= ->] & H) | (? & [[? _] | [_ ?]])];
        [exact H | discriminate ..].
  - destruct (to_float p st) as [[] st1|e] eqn:E; [| discriminate].
    apply to_float_returns in E. destruct E as [-> _].
    intros [= <- <-]. split; [reflexivity |].
    split; [intros _; right; exists p; right; split; reflexivity | reflexivity].
  - destruct (to_float q st) as [[] st1|e] eqn:E; [| discriminate].
    apply to_float_returns in E. destruct E as [-> _].
    intros [= <- <-]. split; [reflexivity |].
    split; [intros _; right; exists q; left; split; reflexivity | reflexivity].
  - intros [= <- <-]. split; [reflexivity |]. split; [discriminate |].
    intros [(? & ? & ? & _) | (? & [[_ ?] | [? _]])]; discriminate.
Qed.

(** The test of one bound raises only [OverflowError], and only when an
    infinite bound meets a finite one that does not convert. *)
Lemma lower_moved_raises t a b st e :
  lower_moved t a b st = Raise e ->
  e = OverflowError
  /\ lower_converts a && lower_converts b = false
  /\ exists p, (a = LNegInf /\ b = LFin p) \/ (a = LFin p /\ b = LNegInf).
Proof.
  destruct a as [|p], b as [|q]; cbn [lower_moved lower_converts];
    unfold bind, ret, to_float; try discriminate.
  - destruct (Z.abs q <? FLOAT_LIMIT); [discriminate |].
    intros [= <-]. split; [reflexivity |]. split; [reflexivity |].
    exists q. left. split; reflexivity.
  - destruct (Z.abs p <? FLOAT_LIMIT); [discriminate |].
    intros [= <-]. split; [reflexivity |]. split; [reflexivity |].
    exists p. right. split; reflexivity.
Qed.

Lemma upper_moved_raises t a b st e :
  upper_moved t a b st = Raise e ->
  e = OverflowError
  /\ upper_converts a && upper_converts b = false
  /\ exists p, (a = UPosInf /\ b = UFin p) \/ (a = UFin p /\ b = UPosInf).
Proof.
  destruct a as [p|], b as [q|]; cbn [upper_moved upper_converts];
    unfold bind, ret, to_float; try discriminate.
  - destruct (Z.abs p <? FLOAT_LIMIT); [discriminate |].
    intros [= <-]. split; [reflexivity |]. split; [reflexivity |].
    exists p. right. split; reflexivity.
  - destruct (Z.abs q <? FLOAT_LIMIT); [discriminate |].
    intros [= <-]. split; [reflexivity |]. split; [reflexivity |].
    exists q. left. split; reflexivity.
Qed.

(** The tests of the loop body, in the words of the specification. *)
Lemma differs_tests t o n :
  differs t o n <->
  (is_bottom o <> is_bottom n \/ is_top o <> is_top n)
  \/ (exists a b, min_val o = Some a /\ min_val n = Some b
        /\ ((exists p q, a = LFin p /\ b = LFin q
                         /\ (t < inject_Z (Z.abs (p - q)))%Q)
            \/ (exists p, (a = LNegInf /\ b = LFin p)
                          \/ (a = LFin p /\ b = LNegInf))))
  \/ (exists a b, max_val o = Some a /\ max_val n = Some b
        /\ ((exists p q, a = UFin p /\ b = UFin q
                         /\ (t < inject_Z (Z.abs (p - q)))%Q)
            \/ (exists p, (a = UPosInf /\ b = UFin p)
                          \/ (a = UFin p /\ b = UPosInf))))
  \/ is_None (min_val o) <> is_None (min_val n)
  \/ is_None (max_val o) <> is_None (max_val n).
Proof.
  split.
  - intros [H | H | x y Ho Hn H | x y Ho Hn H | H | H | x H | x H].
    + left. left. exact H.
    + left. right. exact H.
    + right. left. exists (LFin x), (LFin y). repeat split; try assumption.
      left. exists x, y. repeat split. exact H.
    + right. right. left. exists (UFin x), (UFin y). repeat split; try assumption.
      left. exists x, y. repeat split. exact H.
    + right. right. right. left. exact H.
    + right. right. right. right. exact H.
    + right. left. destruct H as [[Ho Hn] | [Ho Hn]].
      * exists LNegInf, (LFin x). repeat split; try assumption.
        right. exists x. left. split; reflexivity.
      * exists (LFin x), LNegInf. repeat split; try assumption.
        right. exists x. right. split; reflexivity.
    + right. right. left. destruct H as [[Ho Hn] | [Ho Hn]].
      * exists UPosInf, (UFin x). repeat split; try assumption.
        right. exists x. left. split; reflexivity.
      * exists (UFin x), UPosInf. repeat split; try assumption.
        right. exists x. right. split; reflexivity.
  - intros [[H | H] | [(a & b & Ho & Hn & H) | [(a & b & Ho & Hn & H) | [H | H]]]].
    + apply differs_bottom. exact H.
    + apply differs_top. exact H.
    + destruct H as [(x & y & -> & -> & H) | (x & H)].
      * eapply differs_min_moved; eauto.
      * apply (differs_min_infinite t o n x).
        destruct H as [[-> ->] | [-> ->]]; [left | right]; split; assumption.
    + destruct H as [(x & y & -> & -> & H) | (x & H)].
      * eapply differs_max_moved; eauto.
      * apply (differs_max_infinite t o n x).
        destruct H as [[-> ->] | [-> ->]]; [left | right]; split; assumption.
    + apply differs_min_None. exact H.
    + apply differs_max_None. exact H.
Qed.

(** The comparison of the two intervals of a variable returns without
    touching the state, and answers [True] exactly when they differ. *)
Lemma interval_changed_returns t o n st x st' :
  interval_changed t o n st = Ok x st' ->
  st' = st /\ (x = true <-> differs t o n).
Proof.
  rewrite differs_tests. unfold interval_changed.
  destruct (negb (eqb (is_bottom o) (is_bottom n))
            || negb (eqb (is_top o) (is_top n))) eqn:EA.
  { intros [= <- <-]. split; [reflexivity |]. split; [intros _ | reflexivity].
    left. apply orb_true_iff in EA. rewrite !negb_eqb_true in EA. exact EA. }
  assert (HA : ~ (is_bottom o <> is_bottom n \/ is_top o <> is_top n)).
  { rewrite <- !negb_eqb_true, <- orb_true_iff, EA. discriminate. }
  unfold bind at 1.
  destruct (match min_val o, min_val n with
            | Some a, Some b => lower_moved t a b
            | _, _ => ret false
            end st) as [m st1|e] eqn:EB; [| discriminate].
  assert (HB : st1 = st
               /\ (m = true <->
                   exists a b, min_val o = Some a /\ min_val n = Some b
                     /\ ((exists p q, a = LFin p /\ b = LFin q
                                      /\ (t < inject_Z (Z.abs (p - q)))%Q)
                         \/ (exists p, (a = LNegInf /\ b = LFin p)
                                       \/ (a = LFin p /\ b = LNegInf))))).
  { destruct (min_val o) as [a|], (min_val n) as [b|];
      try (injection EB as <- <-; split; [reflexivity |];
           split; [discriminate | intros (? & ? & ? & ? & _); discriminate]).
    apply lower_moved_returns in EB. destruct EB as [-> EB].
    split; [reflexivity |]. rewrite EB. split.
    - intros H. exists a, b. repeat split. exact H.
    - intros (a' & b' & [= <-] & [= <-] & H). exact H. }
  destruct HB as [-> HB].
  destruct m.
  { intros [= <- <-]. split; [reflexivity |]. split; [intros _ | reflexivity].
    right. left. apply HB. reflexivity. }
  unfold bind at 1.
  destruct (match max_val o, max_val n with
            | Some a, Some b => upper_moved t a b
            | _, _ => ret false
            end st) as [m st1|e] eqn:EC; [| discriminate].
  assert (HC : st1 = st
               /\ (m = true <->
                   exists a b, max_val o = Some a /\ max_val n = Some b
                     /\ ((exists p q, a = UFin p /\ b = UFin q
                                      /\ (t < inject_Z (Z.abs (p - q)))%Q)
                         \/ (exists p, (a = UPosInf /\ b = UFin p)
                                       \/ (a = UFin p /\ b = UPosInf))))).
  { destruct (max_val o) as [a|], (max_val n) as [b|];
      try (injection EC as <- <-; split; [reflexivity |];
           split; [discriminate | intros (? & ? & ? & ? & _); discriminate]).
    apply upper_moved_returns in EC. destruct EC as [-> EC].
    split; [reflexivity |]. rewrite EC. split.
    - intros H. exists a, b. repeat split. exact H.
    - intros (a' & b' & [= <-] & [= <-] & H). exact H. }
  destruct HC as [-> HC].
  destruct m.
  { intros [= <- <-]. split; [reflexivity |]. split; [intros _ | reflexivity].
    right. right. left. apply HC. reflexivity. }
  destruct (negb (eqb (is_None (min_val o)) (is_None (min_val n)))) eqn:ED.
  { intros [= <- <-]. split; [reflexivity |]. split; [intros _ | reflexivity].
    right. right. right. left. apply negb_eqb_true. exact ED. }
  intros [= <- <-]. split; [reflexivity |].
  rewrite negb_eqb_true. split.
  - intros H. right. right. right. right. exact H.
  - intros [H | [H | [H | [H | H]]]].
    + contradiction.
    + apply HB in H. discriminate.
    + apply HC in H. discriminate.
    + apply negb_eqb_true in H. congruence.
    + exact H.
Qed.

Lemma interval_changed_raises t o n st e :
  interval_changed t o n st = Raise e ->
  e = OverflowError /\ float_safe o && float_safe n = false /\ differs t o n.
Proof.
  unfold interval_changed, float_safe.
  destruct (negb (eqb (is_bottom o) (is_bottom n))
            || negb (eqb (is_top o) (is_top n))); [discriminate |].
  unfold bind at 1.
  destruct (match min_val o, min_val n with
            | Some a, Some b => lower_moved t a b
            | _, _ => ret false
            end st) as [m st1|e1] eqn:EB.
  - destruct m; [discriminate |].
    unfold bind at 1.
    destruct (match max_val o, max_val n with
              | Some a, Some b => upper_moved t a b
              | _, _ => ret false
              end st1) as [m st2|e2] eqn:EC.
    + destruct m; [discriminate |]. destruct (negb _); discriminate.
    + intros [= <-].
      destruct (max_val o) as [a|] eqn:Eo, (max_val n) as [b|] eqn:En;
        try discriminate.
      apply upper_moved_raises in EC. destruct EC as (-> & EC & p & Hp).
      split; [reflexivity |]. split.
      * apply andb_false_iff in EC.
        destruct EC as [-> | ->]; rewrite ?andb_false_r; reflexivity.
      * apply (differs_max_infinite t o n p).
        destruct Hp as [[-> ->] | [-> ->]]; [left | right]; split; assumption.
  - intros [= <-].
    destruct (min_val o) as [a|] eqn:Eo, (min_val n) as [b|] eqn:En;
      try discriminate.
    apply lower_moved_raises in EB. destruct EB as (-> & EB & p & Hp).
    split; [reflexivity |]. split.
    + apply andb_false_iff in EB.
      destruct EB as [-> | ->]; rewrite ?andb_false_r; reflexivity.
    + apply (differs_min_infinite t o n p).
      destruct Hp as [[-> ->] | [-> ->]]; [left | right]; split; assumption.
Qed.

(** Two intervals that do not differ are compared without an error,
    whatever the size of their bounds. *)
Lemma interval_changed_steady t o n st :
  ~ differs t o n -> interval_changed t o n st = Ok false st.
Proof.
  intros Hd.
  destruct (interval_changed t o n st) as [x st'|e] eqn:E.
  - apply interval_changed_returns in E. destruct E as [-> E].
    destruct x; [exfalso; apply Hd, E; reflexivity | reflexivity].
  - apply interval_changed_raises in E. destruct E as (_ & _ & E). contradiction.
Qed.

(** The loop of [_state_changed]. *)
Lemma any_M_false {A} (test : A -> M bool) (xs : list A) (st : analyzer) :
  (forall x, In x xs -> test x st = Ok false st) ->
  any_M test xs st = Ok false st.
Proof.
  induction xs as [|x r IH]; intros H; simpl; [reflexivity |].
  unfold bind. rewrite (H x) by (left; reflexivity).
  apply IH. intros y Hy. apply H. right. exact Hy.
Qed.


Lemma tracks_lookup st v n : tracks st v n -> _tracked_vars st !! v = Some n.
Proof.
  unfold tracks, _tracked_items. intros H.
  apply list_elem_of_In, list_elem_of_omap in H.
  destruct H as (w & _ & H).
  destruct (_tracked_vars st !! w) as [i|] eqn:E; [| discriminate].
  simpl in H. injection H as <- <-. exact E.
Qed.

Lemma lookup_tracks st v n :
  In v (_tracked_keys st) -> _tracked_vars st !! v = Some n -> tracks st v n.
Proof.
  intros Hk Hn. unfold tracks, _tracked_items.
  apply list_elem_of_In, list_elem_of_omap. exists v.
  split; [apply list_elem_of_In; exact Hk |]. rewrite Hn. reflexivity.
Qed.








(** ** The entry point and errors *)









(** ** The steps of an analysis and the relations they respect

    A relation between states that every elementary update of the
    analyzer respects is respected by every method made of these
    updates: the operations on intervals, the instruction handlers, the
    condition refiner and the loops of the worklist analysis. *)

(** Case analysis on the test at the head of a method applied to a
    state. *)
Ltac head_cases :=
  repeat match goal with
    | |- (if ?b then _ else _) _ = _ -> _ => destruct b
    | |- (match ?x with _ => _ end) _ = _ -> _ => destruct x
    end.

Lemma respects_apply {A} (R : analyzer -> analyzer -> Prop) (m : M A) st a st' :
  respects R m -> m st = Ok a st' -> R st st'.
Proof. intros H. apply H. Qed.

Lemma dom_imap_total (f : variable -> Interval -> Interval)
    (m : gmap variable Interval) :
  dom (map_imap (fun v i => Some (f v i)) m) = dom m.
Proof.
  apply set_eq. intros v. rewrite !elem_of_dom, map_lookup_imap.
  destruct (m !! v); simpl; split; intros [x Hx]; eauto; discriminate.
Qed.

Section Frame.
Context (R : analyzer -> analyzer -> Prop).
Hypothesis R_refl : forall st, R st st.
Hypothesis R_trans : forall a b c, R a b -> R b c -> R a c.
Hypothesis R_track : forall v i st, R st (track v i st).
Hypothesis R_add_issue : forall i st, R st (add_issue i st).
Hypothesis R_mark : forall v st, R st (mark_safemath v st).
Hypothesis R_values :
  forall (f : variable -> Interval -> Interval) st,
    R st (set_tracked (map_imap (fun v i => Some (f v i)) (_tracked_vars st)) st).

(** A method made of [ret], [raise], [bind], elementary updates and case
    analysis. *)
Local Ltac frame_with lemmas :=
  repeat first
    [ apply (respects_ret R R_refl)
    | apply respects_raise
    | lemmas
    | apply respects_update; intros;
        first [apply R_track | apply R_add_issue | apply R_mark | apply R_refl]
    | apply (respects_bind R R_trans); [| intros ?]
    | match goal with
      | |- respects _ (if ?b then _ else _) => destruct b
      | |- respects _ (match ?x with _ => _ end) => destruct x
      end ].

Local Ltac frame := frame_with fail.

(** A composition of elementary updates applied to a state. *)
Local Ltac frame_state :=
  repeat first
    [ apply R_refl
    | apply R_track
    | apply R_add_issue
    | eapply R_trans; [| apply R_track]
    | case_match ].

Lemma frame_to_float z : respects R (to_float z).
Proof. unfold to_float. frame. Qed.

Lemma frame_floordiv a b : respects R (floordiv a b).
Proof. unfold floordiv. frame. Qed.

Lemma frame_lshift a b : respects R (lshift a b).
Proof. unfold lshift. frame. Qed.

Lemma frame_rshift a b : respects R (rshift a b).
Proof. unfold rshift. frame. Qed.

Local Ltac frame_arith :=
  frame_with ltac:(first [ apply frame_to_float | apply frame_floordiv
                         | apply frame_lshift | apply frame_rshift ]).

Lemma frame_lower_add a b : respects R (lower_add a b).
Proof. unfold lower_add. frame_arith. Qed.

Lemma frame_upper_add a b : respects R (upper_add a b).
Proof. unfold upper_add. frame_arith. Qed.

Lemma frame_lower_sub_upper a b : respects R (lower_sub_upper a b).
Proof. unfold lower_sub_upper. frame_arith. Qed.

Lemma frame_upper_sub_lower a b : respects R (upper_sub_lower a b).
Proof. unfold upper_sub_lower. frame_arith. Qed.

Lemma frame_upper_mul_overflows a b : respects R (upper_mul_overflows a b).
Proof. unfold upper_mul_overflows. frame_arith. Qed.

Local Ltac frame_bounds :=
  frame_with ltac:(first [ apply frame_to_float | apply frame_floordiv
                         | apply frame_lshift | apply frame_rshift
                         | apply frame_lower_add | apply frame_upper_add
                         | apply frame_lower_sub_upper
                         | apply frame_upper_sub_lower
                         | apply frame_upper_mul_overflows ]).

Lemma frame_apply op l r : respects R (_apply_binary_operation op l r).
Proof.
  unfold _apply_binary_operation, apply_add, apply_sub, apply_mul, apply_div,
    apply_mod, apply_pow, apply_lshift, apply_rshift.
  frame_bounds.
Qed.

Lemma frame_overflow_issue op l r v : respects R (overflow_issue op l r v).
Proof. unfold overflow_issue. frame_bounds. Qed.

Lemma frame_check_overflow op l r v :
  respects R (_check_overflow_underflow op l r v).
Proof.
  intros st u st'. unfold _check_overflow_underflow.
  destruct (safemath_marked st v); apply (respects_apply R);
    frame_with ltac:(apply frame_overflow_issue).
Qed.

Lemma frame_check_division r v l st : R st (_check_division_by_zero r v l st).
Proof. unfold _check_division_by_zero. frame_state. Qed.

Lemma frame_binary_checks op l r v left : respects R (binary_checks op l r v left).
Proof.
  unfold binary_checks.
  apply (respects_bind R R_trans).
  - destruct (str_mem op ["+"; "-"; "*"; "**"]);
      [apply frame_check_overflow | apply (respects_ret R R_refl)].
  - intros _. destruct (str_mem op ["/"; "%"]);
      [| apply (respects_ret R R_refl)].
    apply respects_update. intros st. apply frame_check_division.
Qed.

Lemma frame_read_operand a o : respects R (read_operand a o).
Proof. unfold read_operand, int_of_str. frame. Qed.

Lemma frame_handle_binary_op target op left right :
  respects R (_handle_binary_op target op left right).
Proof.
  intros st u st'. unfold _handle_binary_op. apply (respects_apply R).
  apply (respects_bind R R_trans); [apply frame_read_operand | intros ri].
  apply (respects_bind R R_trans); [apply frame_read_operand | intros li].
  apply (respects_bind R R_trans); [apply frame_apply | intros i].
  apply (respects_bind R R_trans);
    [apply respects_update; intros; apply R_track | intros _].
  apply frame_binary_checks.
Qed.

Lemma frame_handle_assignment target rvalue :
  respects R (_handle_assignment target rvalue).
Proof.
  unfold _handle_assignment, constant_int, int_of_str.
  destruct rvalue as [r | c].
  - intros st [] st'. repeat case_match; intros [= <-]; frame_state.
  - frame.
Qed.

Lemma frame_handle_type_conversion target source st :
  R st (_handle_type_conversion target source st).
Proof. unfold _handle_type_conversion. frame_state. Qed.

Lemma frame_handle_member target l r st : R st (_handle_member target l r st).
Proof. unfold _handle_member. frame_state. Qed.

Lemma frame_handle_function_call target f st :
  R st (_handle_function_call target f st).
Proof. unfold _handle_function_call. frame_state. Qed.

Lemma frame_seq_or_raise {A} (r : option A) : respects R (seq_or_raise r).
Proof. unfold seq_or_raise. frame. Qed.

Lemma frame_handle_solidity_call target f args :
  respects R (_handle_solidity_call target f args).
Proof.
  intros st u st'. unfold _handle_solidity_call.
  head_cases; apply (respects_apply R);
    frame_with ltac:(first [apply frame_apply | apply frame_seq_or_raise]).
Qed.

Lemma frame_process_ir i : respects R (_process_ir i).
Proof.
  destruct i; simpl.
  - apply frame_handle_binary_op.
  - apply frame_handle_assignment.
  - apply respects_update, frame_handle_type_conversion.
  - apply respects_update, frame_handle_member.
  - apply frame_handle_solidity_call.
  - apply respects_update, frame_handle_function_call.
  - apply (respects_ret R R_refl).
Qed.

Lemma frame_refine_variables op l r li ri st :
  R st (refine_variables op l r li ri st).
Proof. unfold refine_variables. frame_state. Qed.

Lemma frame_process_condition n st : R st (_process_condition n st).
Proof.
  unfold _process_condition.
  repeat first
    [ apply R_refl
    | apply R_track
    | apply frame_refine_variables
    | case_match ].
Qed.

Lemma frame_widen_state old st : R st (widen_state old st).
Proof.
  unfold widen_state.
  apply (R_values (fun var cur =>
           match old !! Var var with Some o => widen o cur | None => cur end)).
Qed.

Lemma frame_narrow_state old st : R st (narrow_state old st).
Proof.
  unfold narrow_state.
  apply (R_values (fun var cur =>
           match old !! Var var with Some o => narrow cur o | None => cur end)).
Qed.

Lemma frame_run_node n : respects R (run_node n).
Proof.
  unfold run_node.
  apply (respects_bind R R_trans).
  - apply respects_update. intros st.
    destruct (contains_if n); [apply frame_process_condition | apply R_refl].
  - intros _. apply (respects_for_each R R_refl R_trans).
    apply frame_process_ir.
Qed.

Lemma frame_lower_moved t a b : respects R (lower_moved t a b).
Proof. unfold lower_moved. frame_arith. Qed.

Lemma frame_upper_moved t a b : respects R (upper_moved t a b).
Proof. unfold upper_moved. frame_arith. Qed.

Lemma frame_interval_changed t o n : respects R (interval_changed t o n).
Proof.
  unfold interval_changed.
  frame_with ltac:(first [apply frame_lower_moved | apply frame_upper_moved]).
Qed.

Lemma frame_any_M {A} (test : A -> M bool) (xs : list A) :
  (forall x, respects R (test x)) -> respects R (any_M test xs).
Proof.
  intros Ht. induction xs as [|x r IH]; simpl.
  - apply (respects_ret R R_refl).
  - apply (respects_bind R R_trans); [apply Ht | intros []];
      [apply (respects_ret R R_refl) | exact IH].
Qed.

Lemma frame_state_changed old t : respects R (_state_changed old t).
Proof.
  intros st b st'. unfold _state_changed. apply (respects_apply R).
  apply frame_any_M. intros [v n]. unfold var_changed.
  destruct (old !! Var (v, n).1);
    [apply frame_interval_changed | apply (respects_ret R R_refl)].
Qed.

Lemma frame_visit_node f ws n : respects R (visit_node f ws n).
Proof.
  intros st ws' st'. unfold visit_node.
  apply (respects_apply R).
  apply (respects_bind R R_trans); [apply frame_run_node | intros _].
  apply (respects_bind R R_trans).
  - destruct (_ <=? _)%nat;
      [apply respects_update; intros; apply frame_widen_state
      | apply (respects_ret R R_refl)].
  - intros _. apply (respects_bind R R_trans);
      [apply frame_state_changed | intros changed].
    apply (respects_ret R R_refl).
Qed.

Lemma frame_worklist_loop fuel f :
  forall ws, respects R (worklist_loop fuel f ws).
Proof.
  induction fuel as [|k IH]; intros ws; simpl.
  - apply (respects_ret R R_refl).
  - destruct (worklist ws); [apply (respects_ret R R_refl) |].
    apply (respects_bind R R_trans).
    + apply (respects_fold_M R R_refl R_trans).
      intros s x. apply frame_visit_node.
    + intros ws'. apply IH.
Qed.

Lemma frame_narrow_node history n : respects R (narrow_node history n).
Proof.
  unfold narrow_node.
  destruct (last _); [| apply (respects_ret R R_refl)].
  apply (respects_bind R R_trans); [apply frame_run_node | intros _].
  apply respects_update. intros st. apply frame_narrow_state.
Qed.

Lemma frame_narrowing k history ns : respects R (narrowing k history ns).
Proof.
  induction k as [|k IH]; simpl.
  - apply (respects_ret R R_refl).
  - apply (respects_bind R R_trans); [| intros _; exact IH].
    apply (respects_for_each R R_refl R_trans).
    intros n. apply frame_narrow_node.
Qed.

(** The analysis of a function after its seeding, up to the summary. *)
Lemma frame_iterate f :
  respects R
    (let* ws := worklist_loop _max_iterations f
                  (mk_worklist_state (nodes f) ∅ ∅) in
     narrowing _narrowing_iterations (iteration_states ws) (nodes f)).
Proof.
  apply (respects_bind R R_trans); [apply frame_worklist_loop | intros ws].
  apply frame_narrowing.
Qed.
End Frame.

(** ** The tracked variables of a function analysis *)

Lemma keys_grow_mark_safemath v st : keys_grow st (mark_safemath v st).
Proof. apply same_tracked_keys_grow. reflexivity. Qed.

Lemma keys_grow_add_issue i st : keys_grow st (add_issue i st).
Proof. apply same_tracked_keys_grow. reflexivity. Qed.

Lemma keys_grow_values (f : variable -> Interval -> Interval) st :
  keys_grow st
    (set_tracked (map_imap (fun v i => Some (f v i)) (_tracked_vars st)) st).
Proof.
  unfold keys_grow, set_tracked. simpl. rewrite dom_imap_total. reflexivity.
Qed.

Lemma keys_grow_save_summary f st : keys_grow st (save_summary f st).
Proof. apply same_tracked_keys_grow. reflexivity. Qed.

(** The elementary updates respect [keys_grow]. *)
Ltac keys_updates :=
  first [ exact keys_grow_refl | exact keys_grow_trans | exact keys_grow_track
        | exact keys_grow_add_issue | exact keys_grow_mark_safemath
        | exact keys_grow_values ].

Lemma keys_grow_process_ir i : respects keys_grow (_process_ir i).
Proof. apply frame_process_ir; keys_updates. Qed.

Lemma keys_grow_process_condition n st :
  keys_grow st (_process_condition n st).
Proof. apply frame_process_condition; keys_updates. Qed.

Lemma keys_grow_iterate f :
  respects keys_grow
    (let* ws := worklist_loop _max_iterations f
                  (mk_worklist_state (nodes f) ∅ ∅) in
     narrowing _narrowing_iterations (iteration_states ws) (nodes f)).
Proof. apply frame_iterate; keys_updates. Qed.

Lemma analyze_function_worklist_unfold f st :
  _analyze_function_worklist f st
  = ((let* ws := worklist_loop _max_iterations f
                   (mk_worklist_state (nodes f) ∅ ∅) in
      narrowing _narrowing_iterations (iteration_states ws) (nodes f)) ;;;
     update (save_summary f)) (seed_function f st).
Proof.
  unfold _analyze_function_worklist, bind, update.
  destruct (worklist_loop _ _ _ _); reflexivity.
Qed.

(** C10.  The key set of the tracked-variable map only grows during the
    analysis of a function: every instruction handler that returns
    leaves every tracked variable tracked, so does the condition
    refiner, and so does the whole analysis after the initial seeding
    (worklist iteration with widening, narrowing passes, summary). *)
Theorem tracked_keys_grow :
  (forall (i : ir) (st st' : analyzer),
      _process_ir i st = Ok tt st' -> keys_grow st st')
  /\ (forall (n : node) (st : analyzer), keys_grow st (_process_condition n st))
  /\ (forall (f : function) (st st' : analyzer),
         _analyze_function_worklist f st = Ok tt st' ->
         keys_grow (seed_function f st) st').
Proof.
  split; [| split].
  - intros i st st'. apply keys_grow_process_ir.
  - apply keys_grow_process_condition.
  - intros f st st'. rewrite analyze_function_worklist_unfold.
    apply respects_apply.
    apply (respects_bind _ keys_grow_trans);
      [apply keys_grow_iterate | intros _].
    apply respects_update, keys_grow_save_summary.
Qed.

Lemma tracked_keys_grow_witness :
  exists st',
    _analyze_function_worklist counter_function analyzer_init = Ok tt st'
    /\ keys_grow (seed_function counter_function analyzer_init) st'.
Proof.
  destruct tracked_keys_grow as (_ & _ & H3).
  destruct (_analyze_function_worklist counter_function analyzer_init)
    as [[] st'|e] eqn:E.
  - exists st'. split; [reflexivity | apply (H3 _ _ _ E)].
  - vm_compute in E. discriminate E.
Defined.

(** ** The keys of the dictionary of tracked variables

    The analyzer starts with an empty dictionary, and every step keeps
    the list of keys in line with the mapping; for such a state, the
    entries that a loop over the dictionary visits are the entries of
    the mapping. *)

Lemma keys_listed_init : keys_listed analyzer_init.
Proof.
  split; [constructor |].
  intros v. simpl. rewrite lookup_empty. split; [intros [] | intros [x Hx]].
  discriminate Hx.
Qed.

Lemma keys_listed_reset (st : analyzer) : keys_listed (reset_tracked st).
Proof.
  split; [constructor |].
  intros v. simpl. rewrite lookup_empty. split; [intros [] | intros [x Hx]].
  discriminate Hx.
Qed.

Lemma keys_listed_track (v : variable) (i : Interval) (st : analyzer) :
  keys_listed st -> keys_listed (track v i st).
Proof.
  intros [Hnd Hk]. unfold keys_listed, track, keys_with. simpl.
  destruct (_tracked_vars st !! v) as [j|] eqn:E.
  - split; [exact Hnd |]. intros w. rewrite Hk.
    destruct (decide (v = w)) as [<- | Hne].
    + rewrite lookup_insert_eq, E. split; eauto.
    + rewrite lookup_insert_ne by exact Hne. reflexivity.
  - split.
    + apply NoDup_app. split; [exact Hnd |]. split; [| apply NoDup_singleton].
      intros w Hw Hv. apply list_elem_of_In in Hw.
      apply list_elem_of_singleton in Hv. subst w.
      apply Hk in Hw. rewrite E in Hw. destruct Hw as [x Hx]. discriminate Hx.
    + intros w. rewrite in_app_iff, Hk.
      destruct (decide (v = w)) as [<- | Hne].
      * rewrite lookup_insert_eq. split; [eauto | intros _; right; left; reflexivity].
      * rewrite lookup_insert_ne by exact Hne. split; [| auto].
        intros [H | [H | []]]; [exact H | contradiction].
Qed.

Lemma keeps_listed_refl st : keeps_listed st st.
Proof. intros H. exact H. Qed.

Lemma keeps_listed_trans a b c :
  keeps_listed a b -> keeps_listed b c -> keeps_listed a c.
Proof. unfold keeps_listed. auto. Qed.

Lemma keeps_listed_track v i st : keeps_listed st (track v i st).
Proof. exact (keys_listed_track v i st). Qed.

Lemma keeps_listed_add_issue i st : keeps_listed st (add_issue i st).
Proof. intros H. exact H. Qed.

Lemma keeps_listed_mark_safemath v st : keeps_listed st (mark_safemath v st).
Proof. intros H. exact H. Qed.

Lemma keeps_listed_values (f : variable -> Interval -> Interval) st :
  keeps_listed st
    (set_tracked (map_imap (fun v i => Some (f v i)) (_tracked_vars st)) st).
Proof.
  intros [Hnd Hk]. split; [exact Hnd |].
  intros v. simpl. rewrite Hk, <- !elem_of_dom, dom_imap_total. reflexivity.
Qed.

(** The elementary updates respect [keeps_listed]. *)
Ltac listed_updates :=
  first [ exact keeps_listed_refl | exact keeps_listed_trans
        | exact keeps_listed_track | exact keeps_listed_add_issue
        | exact keeps_listed_mark_safemath | exact keeps_listed_values ].

Lemma keeps_listed_process_ir i : respects keeps_listed (_process_ir i).
Proof. apply frame_process_ir; listed_updates. Qed.

Lemma keeps_listed_process_condition n st :
  keeps_listed st (_process_condition n st).
Proof. apply frame_process_condition; listed_updates. Qed.

Lemma fold_left_listed {A} (f : analyzer -> A -> analyzer) (l : list A) :
  (forall a x, keys_listed a -> keys_listed (f a x)) ->
  forall a, keys_listed a -> keys_listed (fold_left f l a).
Proof.
  intros Hf. induction l as [|x l IH]; intros a H; simpl; [exact H |].
  apply IH, Hf, H.
Qed.

Lemma keys_listed_seed_function f st : keys_listed (seed_function f st).
Proof.
  unfold seed_function.
  apply fold_left_listed.
  { intros a x H. unfold seed_local.
    repeat case_match; try exact H; apply keys_listed_track, H. }
  apply fold_left_listed.
  { intros a x H. unfold seed_rvalue.
    repeat case_match; try exact H; apply keys_listed_track, H. }
  apply fold_left_listed.
  { intros a x H. unfold seed_parameter.
    repeat case_match; try exact H; apply keys_listed_track, H. }
  apply keys_listed_reset.
Qed.

Lemma keys_listed_analyze_function_worklist f st st' :
  _analyze_function_worklist f st = Ok tt st' -> keys_listed st'.
Proof.
  rewrite analyze_function_worklist_unfold. intros H.
  assert (Hk : keeps_listed (seed_function f st) st').
  { revert H. apply respects_apply.
    apply (respects_bind _ keeps_listed_trans);
      [apply frame_iterate; listed_updates | intros _].
    apply respects_update. intros a Ha. exact Ha. }
  apply Hk, keys_listed_seed_function.
Qed.

Lemma keeps_listed_analyze cu : respects keeps_listed (analyze cu).
Proof.
  unfold analyze.
  apply (respects_bind _ keeps_listed_trans).
  - apply (respects_fold_M _ keeps_listed_refl keeps_listed_trans).
    intros results c. unfold analyze_contract.
    destruct (negb _); [apply (respects_ret _ keeps_listed_refl) |].
    apply (respects_fold_M _ keeps_listed_refl keeps_listed_trans).
    intros rs f. unfold analyze_function.
    destruct (_ || _); [apply (respects_ret _ keeps_listed_refl) |].
    apply (respects_bind _ keeps_listed_trans).
    + intros a [] a' H _. eapply keys_listed_analyze_function_worklist, H.
    + intros _ a r a' [= _ <-]. apply keeps_listed_refl.
  - intros results a r a' [= _ <-]. apply keeps_listed_refl.
Qed.

(** In such a state, a loop over the dictionary visits the entries of
    the mapping. *)
Lemma tracks_iff st v n :
  keys_listed st -> (tracks st v n <-> _tracked_vars st !! v = Some n).
Proof.
  intros [_ Hk]. split; [apply tracks_lookup |].
  intros H. apply lookup_tracks; [| exact H].
  apply Hk. rewrite H. eauto.
Qed.

(** * Further properties of the code *)

(** ** The lattice operations of [Interval] *)

Ltac interval_cases :=
  unfold join, meet, widen, narrow, is_subset, Interval_eq, contains, bounded,
    ordered, is_bottom, is_top, both_or_None, py_min, py_max, bound_eqb,
    lo_num, hi_num, num_geb, num_leb, num_gtb, num_ltb, num_eqb,
    Interval_empty, Interval_top, Interval_Z in *;
  simpl in *; repeat case_match; simplify_eq /=; try done; try lia.

Ltac num_cases :=
  unfold num_geb, num_leb, num_gtb, num_ltb, num_eqb in *;
  simpl in *; repeat case_match; simplify_eq /=; try done; try lia.

Lemma is_top_eq (i : Interval) : is_top i = true -> i = Interval_top.
Proof. split_interval i; try discriminate. reflexivity. Qed.

Lemma py_max_lower_comm (x y : lower) : py_max lnum x y = py_max lnum y x.
Proof.
  destruct x, y; unfold py_max, num_gtb, num_ltb; simpl; try reflexivity.
  repeat case_match; f_equal; lia.
Qed.

Lemma py_min_lower_comm (x y : lower) : py_min lnum x y = py_min lnum y x.
Proof.
  destruct x, y; unfold py_min, num_ltb; simpl; try reflexivity.
  repeat case_match; f_equal; lia.
Qed.

Lemma py_max_upper_comm (x y : upper) : py_max unum x y = py_max unum y x.
Proof.
  destruct x, y; unfold py_max, num_gtb, num_ltb; simpl; try reflexivity.
  repeat case_match; f_equal; lia.
Qed.

Lemma py_min_upper_comm (x y : upper) : py_min unum x y = py_min unum y x.
Proof.
  destruct x, y; unfold py_min, num_ltb; simpl; try reflexivity.
  repeat case_match; f_equal; lia.
Qed.

Lemma both_or_None_comm {A} (f : A -> A -> A) (x y : option A) :
  (forall a b, f a b = f b a) ->
  both_or_None f x y = both_or_None f y x.
Proof. intros H. destruct x, y; simpl; try reflexivity. rewrite H. reflexivity. Qed.

Lemma join_commutative (a b : Interval) : join a b = join b a.
Proof.
  unfold join.
  destruct (is_bottom a) eqn:Ba, (is_bottom b) eqn:Bb; try reflexivity.
  - destruct a as [[?|] [?|]], b as [[?|] [?|]]; try discriminate. reflexivity.
  - rewrite (orb_comm (is_top a)).
    destruct (is_top b || is_top a); [reflexivity |].
    rewrite (both_or_None_comm (py_min lnum) (min_val a)) by apply py_min_lower_comm.
    rewrite (both_or_None_comm (py_max unum) (max_val a)) by apply py_max_upper_comm.
    reflexivity.
Qed.

Lemma meet_commutative (a b : Interval) : meet a b = meet b a.
Proof.
  unfold meet. rewrite (orb_comm (is_bottom a)).
  destruct (is_bottom b || is_bottom a); [reflexivity |].
  destruct (is_top a) eqn:Ta, (is_top b) eqn:Tb; try reflexivity.
  - rewrite (is_top_eq a Ta), (is_top_eq b Tb). reflexivity.
  - rewrite (both_or_None_comm (py_max lnum) (min_val a)) by apply py_max_lower_comm.
    rewrite (both_or_None_comm (py_min unum) (max_val a)) by apply py_min_upper_comm.
    reflexivity.
Qed.

(** X1 (Interval.join): whenever the join of two intervals is not bottom,
    it contains every value that one of the two intervals contains. *)
Theorem join_covers (a b : Interval) (z : Z) :
  is_bottom (join a b) = false ->
  contains a z = true \/ contains b z = true ->
  contains (join a b) z = true.
Proof.
  split_interval a; split_interval b; intros Hj [H | H]; interval_cases.
Qed.

Lemma join_covers_witness :
  contains (join (Interval_Z 1 2) (Interval_Z 5 6)) 5 = true.
Proof.
  apply join_covers; [reflexivity | right; reflexivity].
Defined.

(** X2 (Interval.join): the join of two intervals that are not bottom is
    bottom exactly when one of them has no lower bound and the other one
    has no upper bound: a bound that is [None] on one side makes the
    bound of the result [None]. *)
Theorem join_loses_one_sided_bounds (a b : Interval) :
  is_bottom a = false -> is_bottom b = false ->
  (is_bottom (join a b) = true <->
   (min_val a = None /\ max_val b = None)
   \/ (max_val a = None /\ min_val b = None)).
Proof.
  split_interval a; split_interval b; intros Ha Hb;
    try discriminate Ha; try discriminate Hb;
    unfold join, is_bottom, is_top, both_or_None; simpl;
    (split; [try discriminate; auto | intros [[? ?] | [? ?]]; congruence]).
Qed.

Lemma join_loses_one_sided_bounds_witness :
  is_bottom (join (mk_Interval None (Some (UFin 5)))
               (mk_Interval (Some (LFin 0)) None)) = true.
Proof.
  apply join_loses_one_sided_bounds; [reflexivity | reflexivity |].
  left. split; reflexivity.
Defined.

(** X3 (Interval.meet): for two intervals that are bottom or have both
    bounds, the meet contains exactly the values that both contain. *)
Theorem meet_is_intersection (a b : Interval) (z : Z) :
  bounded a -> bounded b ->
  contains (meet a b) z = contains a z && contains b z.
Proof.
  intros Ha Hb.
  destruct a as [[la|] [ua|]]; destruct Ha as [Ha | [Ha1 Ha2]];
    simpl in *; try discriminate; try congruence;
    destruct b as [[lb|] [ub|]]; destruct Hb as [Hb | [Hb1 Hb2]];
    simpl in *; try discriminate; try congruence;
    try (unfold meet, contains; simpl; rewrite ?andb_false_r; reflexivity).
  clear. destruct la, ua, lb, ub; interval_cases.
Qed.

Lemma meet_is_intersection_witness :
  contains (meet (Interval_Z 1 5) (Interval_Z 3 9)) 4
  = contains (Interval_Z 1 5) 4 && contains (Interval_Z 3 9) 4.
Proof.
  apply meet_is_intersection; right; split; discriminate.
Defined.

(** X4 (Interval.meet, Interval.join): both operations are commutative. *)
Theorem meet_join_commutative (a b : Interval) :
  meet a b = meet b a /\ join a b = join b a.
Proof. split; [apply meet_commutative | apply join_commutative]. Qed.

(** X5 (Interval.widen, Interval.narrow): narrowing the widening of [a]
    by any interval with [a] itself gives [a] back. *)
Theorem narrow_widen_round_trip (a b : Interval) : narrow (widen a b) a = a.
Proof.
  split_interval a; split_interval b; interval_cases.
Qed.

(** X6 (Interval.widen): widening a second time by the same interval
    changes nothing. *)
Theorem widen_twice (a b : Interval) : widen (widen a b) b = widen a b.
Proof.
  split_interval a; split_interval b; interval_cases.
Qed.

(** X7 (Interval.is_subset): when [a.is_subset(b)] holds, every value
    contained in [a] is contained in [b]. *)
Theorem is_subset_sound (a b : Interval) (z : Z) :
  is_subset a b = true -> contains a z = true -> contains b z = true.
Proof.
  split_interval a; split_interval b; interval_cases.
Qed.

Lemma is_subset_sound_witness : contains (Interval_Z 0 10) 3 = true.
Proof.
  apply (is_subset_sound (Interval_Z 2 5) (Interval_Z 0 10) 3); reflexivity.
Defined.

Lemma is_subset_refl (a : Interval) : is_subset a a = true.
Proof. split_interval a; interval_cases. Qed.

Lemma is_subset_trans (a b c : Interval) :
  is_subset a b = true -> is_subset b c = true -> is_subset a c = true.
Proof.
  split_interval a; split_interval b; split_interval c; interval_cases.
Qed.

Lemma is_subset_antisym (a b : Interval) :
  is_subset a b = true -> is_subset b a = true -> a = b.
Proof.
  split_interval a; split_interval b; interval_cases; intros; repeat f_equal; lia.
Qed.

(** X8 (Interval.is_subset): the test is a partial order on intervals:
    reflexive, transitive, and two intervals that are subsets of each
    other are the same interval. *)
Theorem is_subset_partial_order :
  (forall a, is_subset a a = true)
  /\ (forall a b c,
        is_subset a b = true -> is_subset b c = true -> is_subset a c = true)
  /\ (forall a b, is_subset a b = true -> is_subset b a = true -> a = b).
Proof.
  split; [apply is_subset_refl | split].
  - apply is_subset_trans.
  - apply is_subset_antisym.
Qed.

(** X9 (Interval.__eq__): two intervals compare equal exactly when they
    have the same bounds. *)
Theorem Interval_eq_structural (a b : Interval) :
  Interval_eq a b = true <-> a = b.
Proof.
  split.
  - split_interval a; split_interval b; interval_cases; intros; repeat f_equal; lia.
  - intros <-. split_interval a; interval_cases.
Qed.
(** ** Soundness of the arithmetic of [_apply_binary_operation] *)

Lemma contains_top (z : Z) : contains Interval_top z = true.
Proof. reflexivity. Qed.

Lemma contains_bounds (i : Interval) (z : Z) :
  contains i z = true ->
  num_leb (lnum (default LNegInf (min_val i))) (Fin z) = true
  /\ num_leb (Fin z) (unum (default UPosInf (max_val i))) = true.
Proof.
  unfold contains, lo_num, hi_num. rewrite !andb_true_iff. tauto.
Qed.

Lemma pow_256_UINT_MAX : 2 ^ 256 = UINT_MAX + 1.
Proof. reflexivity. Qed.

(** The interval returned at the end of a branch contains every value of
    the machine window that lies between the unclamped bounds. *)
Lemma finish_clamped_contains (new_min : lower) (new_max : upper) (z : Z) :
  in_machine_range z ->
  num_leb (lnum new_min) (Fin z) = true ->
  num_leb (Fin z) (unum new_max) = true ->
  contains (finish (clamp_min new_min) (clamp_max new_max)) z = true.
Proof.
  unfold in_machine_range, clamp_min, clamp_max. rewrite pow_256_UINT_MAX.
  generalize INT_MIN UINT_MAX. intros N P [H1 H2] Hlo Hhi.
  destruct new_min, new_max; unfold finish, contains, lo_num, hi_num, is_bottom;
    num_cases.
Qed.

Lemma finish_clampedZ_contains (new_min new_max z : Z) :
  in_machine_range z -> new_min <= z <= new_max ->
  contains (finish (LFin (clamp_minZ new_min)) (UFin (clamp_maxZ new_max))) z = true.
Proof.
  unfold in_machine_range, clamp_minZ, clamp_maxZ. rewrite pow_256_UINT_MAX.
  generalize INT_MIN UINT_MAX. intros N P [H1 H2] [Hlo Hhi].
  unfold finish, contains, lo_num, hi_num, is_bottom; num_cases.
Qed.

Lemma machine_interval_contains (z : Z) :
  in_machine_range z -> contains machine_interval z = true.
Proof.
  unfold in_machine_range, machine_interval, Interval_Z.
  generalize INT_MIN UINT_MAX. intros N P [H1 H2].
  unfold contains, lo_num, hi_num, is_bottom; num_cases.
Qed.

Lemma lower_sum_le (a c : lower) (x y : Z) :
  num_leb (lnum a) (Fin x) = true -> num_leb (lnum c) (Fin y) = true ->
  num_leb (lnum (lower_sum a c)) (Fin (x + y)) = true.
Proof. destruct a, c; num_cases. Qed.

Lemma upper_sum_ge (b d : upper) (x y : Z) :
  num_leb (Fin x) (unum b) = true -> num_leb (Fin y) (unum d) = true ->
  num_leb (Fin (x + y)) (unum (upper_sum b d)) = true.
Proof. destruct b, d; num_cases. Qed.

Lemma lower_diff_le (a : lower) (d : upper) (x y : Z) :
  num_leb (lnum a) (Fin x) = true -> num_leb (Fin y) (unum d) = true ->
  num_leb (lnum (lower_diff a d)) (Fin (x - y)) = true.
Proof. destruct a, d; num_cases. Qed.

Lemma upper_diff_ge (b : upper) (c : lower) (x y : Z) :
  num_leb (Fin x) (unum b) = true -> num_leb (lnum c) (Fin y) = true ->
  num_leb (Fin (x - y)) (unum (upper_diff b c)) = true.
Proof. destruct b, c; num_cases. Qed.

Lemma float_safe_bounds (i : Interval) :
  float_safe i = true ->
  lower_converts (default LNegInf (min_val i)) = true
  /\ upper_converts (default UPosInf (max_val i)) = true.
Proof.
  unfold float_safe. rewrite andb_true_iff.
  destruct (min_val i), (max_val i); simpl; tauto.
Qed.

(** The branches of the addition and of the subtraction, for bounds that
    convert. *)
Lemma apply_add_converts (l r : Interval) (st : analyzer) :
  float_safe l = true -> float_safe r = true ->
  apply_add (default LNegInf (min_val l)) (default UPosInf (max_val l))
    (default LNegInf (min_val r)) (default UPosInf (max_val r)) st
  = Ok (finish
          (clamp_min (lower_sum (default LNegInf (min_val l))
                        (default LNegInf (min_val r))))
          (clamp_max (upper_sum (default UPosInf (max_val l))
                        (default UPosInf (max_val r))))) st.
Proof.
  intros Hl Hr.
  destruct (float_safe_bounds l Hl) as [Hl1 Hl2].
  destruct (float_safe_bounds r Hr) as [Hr1 Hr2].
  unfold apply_add, bind.
  rewrite lower_add_converts, upper_add_converts by assumption.
  reflexivity.
Qed.

Lemma apply_sub_converts (l r : Interval) (st : analyzer) :
  float_safe l = true -> float_safe r = true ->
  apply_sub (default LNegInf (min_val l)) (default UPosInf (max_val l))
    (default LNegInf (min_val r)) (default UPosInf (max_val r)) st
  = Ok (finish
          (clamp_min (lower_diff (default LNegInf (min_val l))
                        (default UPosInf (max_val r))))
          (clamp_max (upper_diff (default UPosInf (max_val l))
                        (default LNegInf (min_val r))))) st.
Proof.
  intros Hl Hr.
  destruct (float_safe_bounds l Hl) as [Hl1 Hl2].
  destruct (float_safe_bounds r Hr) as [Hr1 Hr2].
  unfold apply_sub, bind.
  rewrite lower_sub_upper_converts, upper_sub_lower_converts by assumption.
  reflexivity.
Qed.

Lemma apply_head (op : string) (l r : Interval) (st : analyzer) :
  is_bottom l = false -> is_bottom r = false ->
  is_top l || is_top r = true ->
  str_mem op ["/"; "%"] = false ->
  _apply_binary_operation op l r st = Ok Interval_top st.
Proof.
  intros Hl Hr Ht Hop. unfold _apply_binary_operation.
  rewrite Hl, Hr, Ht, Hop. reflexivity.
Qed.

(** X10 (_apply_binary_operation, branch "+"): when the operands contain
    [x] and [y], their finite bounds convert to a float (an infinite
    bound added to a larger integer raises [OverflowError]) and [x + y]
    lies in the machine window, the call returns an interval that
    contains [x + y], and leaves the analyzer as it was. *)
Theorem add_sound (l r : Interval) (x y : Z) (st : analyzer) :
  contains l x = true -> contains r y = true -> in_machine_range (x + y) ->
  float_safe l = true -> float_safe r = true ->
  exists i, _apply_binary_operation "+" l r st = Ok i st
            /\ contains i (x + y) = true.
Proof.
  intros Hx Hy Hin Hfl Hfr.
  pose proof (contains_not_bottom _ _ Hx) as Hl.
  pose proof (contains_not_bottom _ _ Hy) as Hr.
  destruct (is_top l || is_top r) eqn:Ht.
  - exists Interval_top. split; [apply apply_head; auto | apply contains_top].
  - unfold _apply_binary_operation. rewrite Hl, Hr, Ht.
    cbn [orb String.eqb Ascii.eqb Bool.eqb].
    rewrite (apply_add_converts l r st Hfl Hfr).
    eexists. split; [reflexivity |].
    destruct (contains_bounds _ _ Hx) as [Hx1 Hx2].
    destruct (contains_bounds _ _ Hy) as [Hy1 Hy2].
    apply finish_clamped_contains;
      auto using lower_sum_le, upper_sum_ge.
Qed.

Lemma add_sound_witness :
  exists i, _apply_binary_operation "+" (Interval_Z 1 2) (Interval_Z 3 4)
              analyzer_init = Ok i analyzer_init
            /\ contains i (1 + 3) = true.
Proof.
  apply add_sound;
    [reflexivity | reflexivity | split; vm_compute; discriminate
    | reflexivity | reflexivity].
Defined.

(** X11 (_apply_binary_operation, branch "-"): the same for [x - y]. *)
Theorem sub_sound (l r : Interval) (x y : Z) (st : analyzer) :
  contains l x = true -> contains r y = true -> in_machine_range (x - y) ->
  float_safe l = true -> float_safe r = true ->
  exists i, _apply_binary_operation "-" l r st = Ok i st
            /\ contains i (x - y) = true.
Proof.
  intros Hx Hy Hin Hfl Hfr.
  pose proof (contains_not_bottom _ _ Hx) as Hl.
  pose proof (contains_not_bottom _ _ Hy) as Hr.
  destruct (is_top l || is_top r) eqn:Ht.
  - exists Interval_top. split; [apply apply_head; auto | apply contains_top].
  - unfold _apply_binary_operation. rewrite Hl, Hr, Ht.
    cbn [orb String.eqb Ascii.eqb Bool.eqb].
    rewrite (apply_sub_converts l r st Hfl Hfr).
    eexists. split; [reflexivity |].
    destruct (contains_bounds _ _ Hx) as [Hx1 Hx2].
    destruct (contains_bounds _ _ Hy) as [Hy1 Hy2].
    apply finish_clamped_contains;
      auto using lower_diff_le, upper_diff_ge.
Qed.

Lemma sub_sound_witness :
  exists i, _apply_binary_operation "-" (Interval_Z 1 2) (Interval_Z 3 4)
              analyzer_init = Ok i analyzer_init
            /\ contains i (1 - 4) = true.
Proof.
  apply sub_sound;
    [reflexivity | reflexivity | split; vm_compute; discriminate
    | reflexivity | reflexivity].
Defined.

Lemma corner_products (a b c d x y : Z) :
  a <= x <= b -> c <= y <= d ->
  Zmin_list (a * c) [a * d; b * c; b * d] <= x * y
  <= Zmax_list (a * c) [a * d; b * c; b * d].
Proof.
  intros Hx Hy. unfold Zmin_list, Zmax_list. simpl.
  assert (Hxy : (a * y <= x * y <= b * y) \/ (b * y <= x * y <= a * y))
    by (destruct (Z.le_gt_cases 0 y); [left | right]; nia).
  assert (Hay : (a * c <= a * y <= a * d) \/ (a * d <= a * y <= a * c))
    by (destruct (Z.le_gt_cases 0 a); [left | right]; nia).
  assert (Hby : (b * c <= b * y <= b * d) \/ (b * d <= b * y <= b * c))
    by (destruct (Z.le_gt_cases 0 b); [left | right]; nia).
  lia.
Qed.

(** X12 (_apply_binary_operation, branch of the multiplication): the
    same for the product of [x] and [y];
    operands with an infinite bound give the whole machine window. *)
Theorem mul_sound (l r : Interval) (x y : Z) (st : analyzer) :
  contains l x = true -> contains r y = true -> in_machine_range (x * y) ->
  exists i, _apply_binary_operation "*" l r st = Ok i st
            /\ contains i (x * y) = true.
Proof.
  intros Hx Hy Hin.
  pose proof (contains_not_bottom _ _ Hx) as Hl.
  pose proof (contains_not_bottom _ _ Hy) as Hr.
  destruct (is_top l || is_top r) eqn:Ht.
  - exists Interval_top. split; [apply apply_head; auto | apply contains_top].
  - unfold _apply_binary_operation. rewrite Hl, Hr, Ht. simpl.
    unfold apply_mul, ret.
    destruct (contains_bounds _ _ Hx) as [Hx1 Hx2].
    destruct (contains_bounds _ _ Hy) as [Hy1 Hy2].
    destruct (default LNegInf (min_val l)) as [|a];
      [eexists; split; [reflexivity | apply machine_interval_contains; exact Hin] |].
    destruct (default UPosInf (max_val l)) as [b|];
      [| eexists; split; [reflexivity | apply machine_interval_contains; exact Hin]].
    destruct (default LNegInf (min_val r)) as [|c];
      [eexists; split; [reflexivity | apply machine_interval_contains; exact Hin] |].
    destruct (default UPosInf (max_val r)) as [d|];
      [| eexists; split; [reflexivity | apply machine_interval_contains; exact Hin]].
    eexists. split; [reflexivity |].
    apply finish_clampedZ_contains; [exact Hin |].
    apply corner_products; num_cases.
Qed.

Lemma mul_sound_witness :
  exists i, _apply_binary_operation "*" (Interval_Z (-2) 3) (Interval_Z (-5) 4)
              analyzer_init = Ok i analyzer_init
            /\ contains i (-2 * 4) = true.
Proof.
  apply mul_sound; [reflexivity | reflexivity | split; vm_compute; discriminate].
Defined.

(** *** Division *)




















(** *** Modulo *)

Lemma rem_bounds (x y : Z) :
  0 < y ->
  (0 <= x -> 0 <= Z.rem x y <= x /\ Z.rem x y <= y - 1)
  /\ (x <= 0 -> x <= Z.rem x y <= 0 /\ - (y - 1) <= Z.rem x y).
Proof.
  intros Hy. split; intros Hx.
  - pose proof (Z.rem_bound_pos x y Hx Hy).
    pose proof (Z.rem_le x y Hx Hy). lia.
  - assert (H0 : 0 <= - x) by lia.
    pose proof (Z.rem_bound_pos (- x) y H0 Hy) as H1.
    pose proof (Z.rem_le (- x) y H0 Hy) as H2.
    rewrite Z.rem_opp_l in H1, H2 by lia. lia.
Qed.

(** X14 (_apply_binary_operation, branch "%"): for a divisor interval
    above 0 the call returns an interval that contains the remainder
    with the sign of the dividend ([Z.rem], the remainder of Solidity)
    of any two values of the operands. *)
Theorem mod_sound (l r : Interval) (x y : Z) (st : analyzer) :
  contains l x = true -> contains r y = true ->
  num_gtb (lo_num (min_val r)) (Fin 0) = true ->
  in_machine_range (Z.rem x y) ->
  exists i, _apply_binary_operation "%" l r st = Ok i st
            /\ contains i (Z.rem x y) = true.
Proof.
  intros Hx Hy Hpos Hin.
  pose proof (contains_not_bottom _ _ Hx) as Hl.
  pose proof (contains_not_bottom _ _ Hy) as Hr.
  assert (Htr : is_top r = false).
  { destruct (is_top r) eqn:E; [| reflexivity].
    rewrite (is_top_eq r E) in Hpos. discriminate Hpos. }
  destruct (contains_bounds _ _ Hx) as [Hx1 Hx2].
  destruct (contains_bounds _ _ Hy) as [Hy1 Hy2].
  unfold _apply_binary_operation. rewrite Hl, Hr, Htr. simpl.
  destruct (is_top l) eqn:Htl; simpl.
  { exists Interval_top. split; [reflexivity | apply contains_top]. }
  unfold apply_mod, lo_num in *.
  assert (Hy0 : 0 < y).
  { clear - Hpos Hy1. destruct (default LNegInf (min_val r));
      cbv [num_gtb num_leb num_ltb num_eqb lnum] in *; [discriminate | lia]. }
  assert (Hcz : contains_zero (default LNegInf (min_val r))
                  (default UPosInf (max_val r)) = false).
  { clear - Hpos. unfold contains_zero.
    destruct (default LNegInf (min_val r));
      cbv [num_gtb num_leb num_ltb num_eqb lnum] in *; [discriminate |].
    apply andb_false_intro1. lia. }
  rewrite Hcz, Hpos.
  destruct (rem_bounds x y Hy0) as [R1 R2].
  clear Hcz Hpos Hl Hr Htr Htl Hx Hy.
  revert Hin Hx1 Hx2 Hy1 Hy2. unfold in_machine_range.
  generalize (Z.rem x y) R1 R2. clear R1 R2. intros m R1 R2.
  generalize (default LNegInf (min_val l)) (default UPosInf (max_val l))
    (default LNegInf (min_val r)) (default UPosInf (max_val r)).
  intros lmin lmax rmin rmax [Hin1 Hin2] Hx1 Hx2 Hy1 Hy2.
  destruct (num_geb (lnum lmin) (Fin 0)) eqn:C1;
    [| destruct (num_ltb (unum lmax) (Fin 0)) eqn:C2];
    (eexists; split; [reflexivity |]);
    unfold finish; revert Hin1 Hin2; generalize INT_MIN UINT_MAX; intros N P Hin1 Hin2;
    destruct lmin, lmax, rmin, rmax;
    cbv [contains lo_num hi_num is_bottom min_val max_val default from_option id
         negb py_min py_max upper_addZ upper_neg
         num_geb num_gtb num_leb num_ltb num_eqb lnum unum] in *;
    repeat case_match; simplify_eq; lia.
Qed.

Lemma mod_sound_witness :
  exists i, _apply_binary_operation "%" (Interval_Z (-7) 9) (Interval_Z 2 3)
              analyzer_init = Ok i analyzer_init
            /\ contains i (Z.rem (-7) 3) = true.
Proof.
  apply mod_sound;
    [reflexivity | reflexivity | reflexivity | split; vm_compute; discriminate].
Defined.
(** *** The window of the results *)

Lemma str_mem_true_In (x : string) (l : list string) :
  str_mem x l = true -> In x l.
Proof.
  unfold str_mem. rewrite existsb_exists. intros (y & Hy & E).
  apply String.eqb_eq in E. subst y. exact Hy.
Qed.

Lemma clamp_min_window (new_min : lower) :
  exists lo, clamp_min new_min = LFin lo /\ INT_MIN <= lo.
Proof.
  unfold clamp_min. generalize INT_MIN. intros N.
  destruct new_min as [|a]; cbv [num_eqb num_ltb lnum orb].
  - exists N. split; [reflexivity | lia].
  - destruct (a <? N) eqn:E; eexists; (split; [reflexivity | lia]).
Qed.

Lemma clamp_max_window (new_max : upper) :
  exists hi, clamp_max new_max = UFin hi /\ hi <= UINT_MAX.
Proof.
  unfold clamp_max. rewrite pow_256_UINT_MAX. generalize UINT_MAX. intros P.
  destruct new_max as [b|]; cbv [num_eqb num_ltb num_geb num_leb unum orb].
  - destruct (P + 1 <? b) eqn:E1; [| destruct (P + 1 =? b) eqn:E2];
      eexists; (split; [reflexivity | lia]).
  - exists P. split; [reflexivity | lia].
Qed.

Lemma finish_clamped_window (new_min : lower) (new_max : upper) :
  exists lo hi,
    finish (clamp_min new_min) (clamp_max new_max) = Interval_Z lo hi
    /\ INT_MIN <= lo /\ hi <= UINT_MAX.
Proof.
  destruct (clamp_min_window new_min) as (lo & -> & Hlo).
  destruct (clamp_max_window new_max) as (hi & -> & Hhi).
  exists lo, hi. split; [reflexivity | split; assumption].
Qed.

Lemma finish_clampedZ_window (new_min new_max : Z) :
  exists lo hi,
    finish (LFin (clamp_minZ new_min)) (UFin (clamp_maxZ new_max)) = Interval_Z lo hi
    /\ INT_MIN <= lo /\ hi <= UINT_MAX.
Proof.
  exists (clamp_minZ new_min), (clamp_maxZ new_max).
  split; [reflexivity |].
  unfold clamp_minZ, clamp_maxZ. rewrite pow_256_UINT_MAX.
  generalize INT_MIN UINT_MAX. intros N P.
  destruct (new_min <? N) eqn:E1, (new_max >=? P + 1) eqn:E2; lia.
Qed.

(** When an addition, a subtraction or a multiplication returns, it
    leaves the state and its result lies in the window of the machine. *)
Lemma arithmetic_window (op : string) (l r : Interval) (st st' : analyzer)
    (i : Interval) :
  str_mem op ["+"; "-"; "*"] = true ->
  is_bottom l = false -> is_bottom r = false ->
  is_top l = false -> is_top r = false ->
  _apply_binary_operation op l r st = Ok i st' ->
  st' = st
  /\ exists lo hi, i = Interval_Z lo hi /\ INT_MIN <= lo /\ hi <= UINT_MAX.
Proof.
  intros Hop Hl Hr Tl Tr. apply str_mem_true_In in Hop.
  unfold _apply_binary_operation. rewrite Hl, Hr, Tl, Tr.
  destruct Hop as [<- | [<- | [<- | []]]]; cbn [orb String.eqb Ascii.eqb Bool.eqb].
  - unfold apply_add, bind, ret.
    destruct (lower_add _ _ st) as [lo st1|e] eqn:E1; [| discriminate].
    apply lower_add_returns in E1. destruct E1 as [-> ->].
    destruct (upper_add _ _ st) as [hi st1|e] eqn:E2; [| discriminate].
    apply upper_add_returns in E2. destruct E2 as [-> ->].
    intros [= <- <-]. split; [reflexivity |]. apply finish_clamped_window.
  - unfold apply_sub, bind, ret.
    destruct (lower_sub_upper _ _ st) as [lo st1|e] eqn:E1; [| discriminate].
    apply lower_sub_upper_returns in E1. destruct E1 as [-> ->].
    destruct (upper_sub_lower _ _ st) as [hi st1|e] eqn:E2; [| discriminate].
    apply upper_sub_lower_returns in E2. destruct E2 as [-> ->].
    intros [= <- <-]. split; [reflexivity |]. apply finish_clamped_window.
  - unfold apply_mul, ret.
    assert (Hm : exists lo hi, machine_interval = Interval_Z lo hi
                               /\ INT_MIN <= lo /\ hi <= UINT_MAX)
      by (exists INT_MIN, UINT_MAX; split; [reflexivity | lia]).
    destruct (default LNegInf (min_val l)) as [|a];
      [intros [= <- <-]; split; [reflexivity | exact Hm] |].
    destruct (default UPosInf (max_val l)) as [b|];
      [| intros [= <- <-]; split; [reflexivity | exact Hm]].
    destruct (default LNegInf (min_val r)) as [|c];
      [intros [= <- <-]; split; [reflexivity | exact Hm] |].
    destruct (default UPosInf (max_val r)) as [d|];
      [| intros [= <- <-]; split; [reflexivity | exact Hm]].
    intros [= <- <-]. split; [reflexivity |]. apply finish_clampedZ_window.
Qed.

(** For bounds that convert, the three operations return. *)
Lemma arithmetic_returns (op : string) (l r : Interval) (st : analyzer) :
  str_mem op ["+"; "-"; "*"] = true ->
  float_safe l = true -> float_safe r = true ->
  exists i, _apply_binary_operation op l r st = Ok i st.
Proof.
  intros Hop Hfl Hfr. apply str_mem_true_In in Hop.
  unfold _apply_binary_operation.
  destruct (is_bottom l || is_bottom r); [eexists; reflexivity |].
  destruct (is_top l || is_top r).
  { destruct (_ && _); eexists; reflexivity. }
  destruct Hop as [<- | [<- | [<- | []]]]; cbn [orb String.eqb Ascii.eqb Bool.eqb].
  - rewrite (apply_add_converts l r st Hfl Hfr). eauto.
  - rewrite (apply_sub_converts l r st Hfl Hfr). eauto.
  - unfold apply_mul, ret. repeat case_match; eauto.
Qed.

Lemma upper_mul_overflows_converts a b st :
  upper_converts a = true -> upper_converts b = true ->
  exists x, upper_mul_overflows a b st = Ok x st.
Proof.
  destruct a, b; cbn [upper_mul_overflows upper_converts]; unfold bind, ret;
    intros Ha Hb; rewrite ?(to_float_converts _ _ Ha), ?(to_float_converts _ _ Hb);
    eauto.
Qed.

Lemma float_safe_max (i : Interval) (b : upper) :
  float_safe i = true -> max_val i = Some b -> upper_converts b = true.
Proof.
  unfold float_safe. rewrite andb_true_iff. intros [_ H] E.
  rewrite E in H. exact H.
Qed.

Lemma check_overflow_converts op l r v st :
  float_safe l = true -> float_safe r = true ->
  exists st', _check_overflow_underflow op l r v st = Ok tt st'.
Proof.
  intros Hfl Hfr. unfold _check_overflow_underflow.
  destruct (safemath_marked st v); [eexists; reflexivity |].
  assert (Hi : exists x, overflow_issue op l r v st = Ok x st).
  { unfold overflow_issue.
    destruct (String.eqb op "+").
    { destruct (max_val l) as [a|] eqn:El, (max_val r) as [b|] eqn:Er;
        try (eexists; reflexivity).
      unfold bind.
      rewrite (upper_add_converts a b st (float_safe_max l a Hfl El)
                 (float_safe_max r b Hfr Er)).
      destruct (num_geb _ _); eexists; reflexivity. }
    destruct (String.eqb op "-").
    { unfold ret. repeat case_match; eauto. }
    destruct (String.eqb op "*").
    { destruct (max_val l) as [a|] eqn:El, (max_val r) as [b|] eqn:Er;
        try (eexists; reflexivity).
      unfold bind.
      destruct (upper_mul_overflows_converts a b st (float_safe_max l a Hfl El)
                  (float_safe_max r b Hfr Er)) as [x ->].
      destruct x; eexists; reflexivity. }
    unfold ret. repeat case_match; eauto. }
  destruct Hi as [x Hx]. unfold bind. rewrite Hx.
  destruct x; eexists; reflexivity.
Qed.

Lemma binary_checks_converts op l r v left st :
  float_safe l = true -> float_safe r = true ->
  exists st', binary_checks op l r v left st = Ok tt st'.
Proof.
  intros Hfl Hfr. unfold binary_checks, bind.
  destruct (str_mem op ["+"; "-"; "*"; "**"]).
  - destruct (check_overflow_converts op l r v st Hfl Hfr) as [st1 ->].
    destruct (str_mem op ["/"; "%"]); eexists; reflexivity.
  - destruct (str_mem op ["/"; "%"]); eexists; reflexivity.
Qed.

Lemma check_constraints_kind (v : variable) (name : string) (cur : Interval)
    (cs : list (string * Z * Z)) :
  check_constraints v name cur cs <> Some (MayOverflow v).
Proof.
  induction cs as [|[[cname cmin] cmax] cs IH]; simpl; [discriminate |].
  repeat case_match; simplify_eq; try discriminate; exact IH.
Qed.

(** X15 (_handle_binary_op, _check_bounds_violation): the result of an
    addition, a subtraction or a multiplication of operands that are not
    top is cut to the machine window, so whenever the handler returns,
    the bounds check does not report the result variable as a possible
    overflow.  The handler returns when it can read its operands and the
    finite bounds of their intervals convert to a float. *)
Theorem arithmetic_result_not_reported (v : variable) (op : string)
    (left right : operand) (st : analyzer) :
  str_mem op ["+"; "-"; "*"] = true ->
  is_top (operand_interval st left) = false ->
  is_top (operand_interval st right) = false ->
  (forall st',
      _handle_binary_op v op left right st = Ok tt st' ->
      _check_bounds_violation v st' <> Some (MayOverflow v))
  /\ (readable left = true -> readable right = true ->
      float_safe (operand_interval st left) = true ->
      float_safe (operand_interval st right) = true ->
      exists st', _handle_binary_op v op left right st = Ok tt st').
Proof.
  intros Hop Tl Tr.
  set (l := operand_interval st left) in *.
  set (r := operand_interval st right) in *.
  split.
  - intros st' Hrun.
    destruct (readable left && readable right) eqn:Hread;
      [| rewrite (handle_binary_op_unreadable _ _ _ _ _ Hread) in Hrun;
         discriminate Hrun].
    apply andb_true_iff in Hread. destruct Hread as [Hrl Hrr].
    destruct (_apply_binary_operation op l r st) as [i st1|e] eqn:E;
      [| rewrite (handle_binary_op_raises _ _ _ _ _ _ Hrl Hrr E) in Hrun;
         discriminate Hrun].
    rewrite (handle_binary_op_steps _ _ _ _ _ _ _ Hrl Hrr E) in Hrun.
    fold l r in Hrun.
    assert (Hi : is_bottom i = true
                 \/ exists lo hi, i = Interval_Z lo hi /\ hi <= UINT_MAX).
    { destruct (is_bottom l || is_bottom r) eqn:B.
      - left. revert E. unfold _apply_binary_operation. rewrite B.
        intros [= <- _]. reflexivity.
      - apply orb_false_elim in B. destruct B as [Bl Br].
        destruct (arithmetic_window op l r st st1 i Hop Bl Br Tl Tr E)
          as (_ & lo & hi & -> & _ & H).
        right. eauto. }
    unfold _check_bounds_violation.
    rewrite (tracked_after_checks _ _ _ _ _ _ _ v Hrun), lookup_track.
    destruct Hi as [-> | (lo & hi & -> & Hhi)]; [discriminate |].
    cbv [is_bottom Interval_Z min_val max_val num_geb num_leb num_ltb num_eqb
         lnum unum].
    rewrite pow_256_UINT_MAX. revert Hhi. generalize UINT_MAX. intros P Hhi.
    replace ((hi <? P + 1) || (hi =? P + 1)) with true by lia.
    replace ((P + 1 <? hi) || (P + 1 =? hi)) with false by lia.
    destruct (_ && _); [discriminate | apply check_constraints_kind].
  - intros Hrl Hrr Hfl Hfr.
    destruct (arithmetic_returns op l r st Hop Hfl Hfr) as [i E].
    rewrite (handle_binary_op_steps _ _ _ _ _ _ _ Hrl Hrr E).
    apply binary_checks_converts; assumption.
Qed.

Lemma arithmetic_result_not_reported_witness :
  exists st',
    _handle_binary_op acct_balance "+" (OConst (CInt (2 ^ 255)))
      (OConst (CInt (2 ^ 255))) analyzer_init = Ok tt st'
    /\ _check_bounds_violation acct_balance st' <> Some (MayOverflow acct_balance).
Proof.
  destruct (arithmetic_result_not_reported acct_balance "+"
              (OConst (CInt (2 ^ 255))) (OConst (CInt (2 ^ 255))) analyzer_init)
    as [Ha Hb]; [reflexivity | reflexivity | reflexivity |].
  destruct Hb as [st' Hrun]; [reflexivity | reflexivity | reflexivity | reflexivity |].
  exists st'. split; [exact Hrun | apply Ha; exact Hrun].
Defined.

(** ** The instruction handlers *)

(** X16 (_handle_type_conversion): a conversion to an unsigned type of
    [bits] bits tracks the target with the values of the source that lie
    in [0 .. 2**bits - 1]; a source tracked as bottom gives the whole
    range of the type. *)
Theorem uint_conversion_clips (target : variable) (source : operand)
    (t : string) (cur : Interval) (st : analyzer) (z : Z) :
  tracked st source = Some cur ->
  var_type target = Some t ->
  str_in "uint" (lower_str t) = true ->
  exists r,
    _tracked_vars (_handle_type_conversion target source st) !! target = Some r
    /\ contains r z
       = (0 <=? z) && (z <=? 2 ^ type_bits "uint" (lower_str t) - 1)
         && (is_bottom cur || contains cur z).
Proof.
  intros Hs Ht Hu. unfold _handle_type_conversion. rewrite Hs, Ht, Hu.
  rewrite lookup_track. eexists. split; [reflexivity |].
  generalize (2 ^ type_bits "uint" (lower_str t) - 1). intros K.
  split_interval cur;
    cbv [contains lo_num hi_num is_bottom min_val max_val default from_option id
         negb raise_min cut_max py_min py_max
         num_geb num_gtb num_leb num_ltb num_eqb lnum unum];
    repeat case_match; simplify_eq; lia.
Qed.

Lemma uint_conversion_clips_witness :
  exists r,
    _tracked_vars
      (_handle_type_conversion byte_var (OVar acct_balance)
         (track acct_balance (Interval_Z (-5) 300) analyzer_init)) !! byte_var
    = Some r
    /\ contains r 7
       = (0 <=? 7) && (7 <=? 2 ^ type_bits "uint" (lower_str "uint8") - 1)
         && (is_bottom (Interval_Z (-5) 300) || contains (Interval_Z (-5) 300) 7).
Proof.
  apply (uint_conversion_clips byte_var (OVar acct_balance) "uint8");
    reflexivity.
Defined.

Lemma omap_nil_Forall {A B} (f : A -> option B) (l : list A) :
  omap f l = [] <-> Forall (fun x => f x = None) l.
Proof.
  induction l as [|x l IH]; simpl.
  - split; [constructor | reflexivity].
  - destruct (f x) eqn:E; split.
    + discriminate.
    + intros H. inversion H; congruence.
    + intros H. constructor; [exact E | apply IH, H].
    + intros H. inversion H. apply IH. assumption.
Qed.

Lemma seq_or_raise_raises {A B} (key : A -> num) (xs : list A) (k : A -> M B)
    (st : analyzer) (pick : forall A, (A -> num) -> list A -> option A) :
  (forall xs, pick A key xs = None <-> xs = []) ->
  (forall x st, k x st <> Raise ValueError) ->
  (let* m := seq_or_raise (pick A key xs) in k m) st = Raise ValueError
  <-> xs = [].
Proof.
  intros Hp Hk. unfold bind, seq_or_raise.
  destruct (pick A key xs) as [m|] eqn:E.
  - split.
    + unfold ret. intros H. destruct (Hk _ _ H).
    + intros H. apply Hp in H. congruence.
  - split; [intros _; apply Hp, E | reflexivity].
Qed.

Lemma py_min_seq_None {A} (key : A -> num) (xs : list A) :
  py_min_seq key xs = None <-> xs = [].
Proof. destruct xs; simpl; split; congruence. Qed.

Lemma py_max_seq_None {A} (key : A -> num) (xs : list A) :
  py_max_seq key xs = None <-> xs = [].
Proof. destruct xs; simpl; split; congruence. Qed.

(** X17 (_handle_solidity_call, branch [min]): with at least two
    arguments that have an interval, the call of [min] raises
    [ValueError] exactly when none of these intervals has an upper bound
    (for instance when all of them are bottom); otherwise it returns. *)
Theorem min_call_raises (target : variable) (f : callee) (args : list operand)
    (st : analyzer) :
  lower_str (fn_name f) = "min" ->
  (2 <= length (collect_known_args st args))%nat ->
  (_handle_solidity_call target f args st = Raise ValueError
   <-> Forall (fun i => max_val i = None) (collect_known_args st args)).
Proof.
  intros Hname Hlen. unfold _handle_solidity_call. rewrite Hname.
  assert (E1 : str_mem "min" ["add"; "sub"; "mul"; "div"; "mod"] = false)
    by reflexivity.
  rewrite E1, String.eqb_refl.
  destruct (collect_known_args st args) as [|x [|y r]];
    [simpl in Hlen; lia | simpl in Hlen; lia |].
  rewrite <- omap_nil_Forall.
  apply (seq_or_raise_raises unum _ _ st (@py_min_seq)).
  - intros xs. apply py_min_seq_None.
  - intros m st0. discriminate.
Qed.

Lemma min_call_raises_witness :
  _handle_solidity_call (tmp_uint 9) (mk_callee "min" None None)
    [OVar acct_balance; OVar acct_amount]
    (track acct_balance Interval_empty
       (track acct_amount Interval_empty analyzer_init))
  = Raise ValueError.
Proof.
  apply min_call_raises; [reflexivity | vm_compute; lia |].
  vm_compute. repeat constructor.
Defined.

(** X18 (_handle_solidity_call, branch [max]): the call of [max] raises
    [ValueError] exactly when no argument interval has an upper bound or
    no argument interval has a lower bound. *)
Theorem max_call_raises (target : variable) (f : callee) (args : list operand)
    (st : analyzer) :
  lower_str (fn_name f) = "max" ->
  (2 <= length (collect_known_args st args))%nat ->
  (_handle_solidity_call target f args st = Raise ValueError
   <-> Forall (fun i => max_val i = None) (collect_known_args st args)
       \/ Forall (fun i => min_val i = None) (collect_known_args st args)).
Proof.
  intros Hname Hlen. unfold _handle_solidity_call. rewrite Hname.
  assert (E1 : str_mem "max" ["add"; "sub"; "mul"; "div"; "mod"] = false)
    by reflexivity.
  assert (E2 : String.eqb "max" "min" = false) by reflexivity.
  rewrite E1, E2, String.eqb_refl.
  destruct (collect_known_args st args) as [|x [|y r]];
    [simpl in Hlen; lia | simpl in Hlen; lia |].
  rewrite <- !omap_nil_Forall.
  generalize (x :: y :: r). intros l. unfold bind at 1.
  destruct (omap max_val l) as [|u us] eqn:Eu.
  - split; [intros _; left; reflexivity | reflexivity].
  - cbn [py_max_seq seq_or_raise ret].
    rewrite (seq_or_raise_raises lnum _ _ st (@py_max_seq)).
    + split; [intros H; right; exact H | intros [H | H]; [discriminate H | exact H]].
    + intros xs. apply py_max_seq_None.
    + intros m st0. discriminate.
Qed.

Lemma max_call_raises_witness :
  _handle_solidity_call (tmp_uint 9) (mk_callee "max" None None)
    [OVar acct_balance; OVar acct_amount]
    (track acct_balance (mk_Interval None (Some (UFin 5)))
       (track acct_amount (mk_Interval None (Some (UFin 7))) analyzer_init))
  = Raise ValueError.
Proof.
  apply max_call_raises; [reflexivity | vm_compute; lia |].
  right. vm_compute. repeat constructor.
Defined.

Lemma floordiv_respects (R : analyzer -> analyzer -> Prop) (a b : Z) :
  (forall st, R st st) -> respects R (floordiv a b).
Proof.
  intros R_refl. unfold floordiv.
  destruct (b =? 0); [apply respects_raise | apply (respects_ret _ R_refl)].
Qed.

Lemma lshift_respects (R : analyzer -> analyzer -> Prop) (a b : Z) :
  (forall st, R st st) -> respects R (lshift a b).
Proof.
  intros R_refl. unfold lshift.
  destruct (b <? 0); [apply respects_raise | apply (respects_ret _ R_refl)].
Qed.

Lemma rshift_respects (R : analyzer -> analyzer -> Prop) (a b : Z) :
  (forall st, R st st) -> respects R (rshift a b).
Proof.
  intros R_refl. unfold rshift.
  destruct (b <? 0); [apply respects_raise | apply (respects_ret _ R_refl)].
Qed.

(** Only the branches of the division and of the modulo touch the
    analyzer. *)
Lemma apply_unchanged (op : string) (l r : Interval) :
  String.eqb op "/" = false -> String.eqb op "%" = false ->
  respects unchanged (_apply_binary_operation op l r).
Proof.
  intros Hd Hm.
  set (R := unchanged).
  pose proof unchanged_refl as R_refl.
  pose proof unchanged_trans as R_trans.
  unfold _apply_binary_operation. rewrite Hd, Hm.
  unfold apply_add, apply_sub, apply_mul, apply_pow, apply_lshift, apply_rshift,
    lower_add, upper_add, lower_sub_upper, upper_sub_lower, to_float.
  repeat first
    [ apply (respects_ret R R_refl)
    | apply respects_raise
    | apply (floordiv_respects R _ _ R_refl)
    | apply (lshift_respects R _ _ R_refl)
    | apply (rshift_respects R _ _ R_refl)
    | apply (respects_bind R R_trans); [| intros ?]
    | case_match ].
Qed.

Lemma apply_library_name_returns (name : string) (l r : Interval) (st : analyzer) :
  str_mem name ["add"; "sub"; "mul"; "div"; "mod"] = true ->
  exists i, _apply_binary_operation name l r st = Ok i st.
Proof.
  intros H. apply str_mem_true_In in H.
  unfold _apply_binary_operation.
  destruct (is_bottom l || is_bottom r); [eexists; reflexivity |].
  destruct (is_top l || is_top r);
    [destruct (_ && _); eexists; reflexivity |].
  destruct H as [<- | [<- | [<- | [<- | [<- | []]]]]]; eexists; reflexivity.
Qed.

Lemma marked_after_mark (v : variable) (st : analyzer) :
  safemath_marked (mark_safemath v st) v = true.
Proof.
  unfold safemath_marked, mark_safemath. simpl.
  apply bool_decide_eq_true. set_solver.
Qed.

(** X19 (_handle_solidity_call, _handle_binary_op,
    _check_overflow_underflow): after a call of [add], [sub], [mul],
    [div] or [mod] of a contract whose name contains [math], the result
    variable is marked, and a later addition, subtraction,
    multiplication or power that writes the same variable records no
    message, whatever its operands are. *)
Theorem library_result_skips_overflow_check (target : variable) (f : callee)
    (args : list operand) (c : string) (x y : Interval) (rest : list Interval)
    (st : analyzer) :
  str_mem (lower_str (fn_name f)) ["add"; "sub"; "mul"; "div"; "mod"] = true ->
  fn_contract f = Some c ->
  str_in "safemath" (lower_str c) || str_in "math" (lower_str c) = true ->
  collect_args st args = Some (x :: y :: rest) ->
  exists st1,
    _handle_solidity_call target f args st = Ok tt st1
    /\ forall op left right st2,
         str_mem op ["+"; "-"; "*"; "**"] = true ->
         _handle_binary_op target op left right st1 = Ok tt st2 ->
         _potential_issues st2 = _potential_issues st1.
Proof.
  intros Hname Hc Hmath Hargs.
  destruct (apply_library_name_returns _ x y st Hname) as (i & Hi).
  exists (mark_safemath target (track target i st)). split.
  - unfold _handle_solidity_call. rewrite Hname, Hc, Hmath, Hargs.
    unfold bind. rewrite Hi. reflexivity.
  - intros op left right st2 Hop H.
    set (st1 := mark_safemath target (track target i st)) in *.
    destruct (readable left && readable right) eqn:Hread;
      [| rewrite (handle_binary_op_unreadable _ _ _ _ _ Hread) in H;
         discriminate H].
    apply andb_true_iff in Hread. destruct Hread as [Hrl Hrr].
    destruct (_apply_binary_operation op (operand_interval st1 left)
                (operand_interval st1 right) st1) as [j st1'|e] eqn:E;
      [| rewrite (handle_binary_op_raises _ _ _ _ _ _ Hrl Hrr E) in H;
         discriminate H].
    rewrite (handle_binary_op_steps _ _ _ _ _ _ _ Hrl Hrr E) in H.
    assert (Hpure : st1' = st1).
    { apply (apply_unchanged op _ _) in E; [exact E | |];
        apply str_mem_true_In in Hop;
        destruct Hop as [<- | [<- | [<- | [<- | []]]]]; reflexivity. }
    subst st1'.
    assert (Hnot : str_mem op ["/"; "%"] = false).
    { apply str_mem_true_In in Hop.
      destruct Hop as [<- | [<- | [<- | [<- | []]]]]; reflexivity. }
    revert H. unfold binary_checks, bind. rewrite Hop, Hnot.
    rewrite check_overflow_marked
      by (rewrite safemath_marked_track; apply marked_after_mark).
    intros [= <-]. reflexivity.
Qed.

Lemma library_result_skips_overflow_check_witness :
  exists st1,
    _handle_solidity_call lib_x (mk_callee "add" (Some "SafeMath") None)
      [OVar lib_x; OVar lib_y] library_state = Ok tt st1
    /\ forall op left right st2,
         str_mem op ["+"; "-"; "*"; "**"] = true ->
         _handle_binary_op lib_x op left right st1 = Ok tt st2 ->
         _potential_issues st2 = _potential_issues st1.
Proof.
  apply (library_result_skips_overflow_check lib_x _ _ "SafeMath"
           (Interval_Z 1 1) (Interval_Z 2 2) []); reflexivity.
Defined.
(** ** Conditions *)

Ltac bound_cases :=
  cbv [contains meet split_nonzero lo_num hi_num is_bottom is_top min_val max_val
       default from_option id negb both_or_None py_min py_max Interval_Z
       Interval_empty num_geb num_gtb num_leb num_ltb num_eqb lnum unum] in *;
  repeat case_match; simplify_eq; try lia.

Lemma meet_upper_sound (cur : Interval) (k z : Z) :
  min_val cur <> None -> max_val cur <> None ->
  contains cur z = true -> z <= k ->
  contains (meet cur (mk_Interval None (Some (UFin k)))) z = true.
Proof.
  intros H1 H2 H Hk. split_interval cur; simpl in H1, H2; try congruence;
    clear H1 H2; bound_cases.
Qed.

Lemma meet_lower_sound (cur : Interval) (k z : Z) :
  min_val cur <> None -> max_val cur <> None ->
  contains cur z = true -> k <= z ->
  contains (meet cur (mk_Interval (Some (LFin k)) None)) z = true.
Proof.
  intros H1 H2 H Hk. split_interval cur; simpl in H1, H2; try congruence;
    clear H1 H2; bound_cases.
Qed.

Lemma py_max_lower_point (l : lower) (z : Z) :
  num_leb (lnum l) (Fin z) = true -> py_max lnum l (LFin z) = LFin z.
Proof.
  destruct l; cbv [py_max num_gtb num_leb num_ltb num_eqb lnum];
    intros H; repeat case_match; f_equal; lia.
Qed.

Lemma py_min_upper_point (u : upper) (z : Z) :
  num_leb (Fin z) (unum u) = true -> py_min unum u (UFin z) = UFin z.
Proof.
  destruct u; cbv [py_min num_gtb num_leb num_ltb num_eqb unum];
    intros H; repeat case_match; f_equal; lia.
Qed.

Lemma contains_point (z : Z) : contains (Interval_Z z z) z = true.
Proof.
  cbv [contains lo_num hi_num is_bottom min_val max_val default from_option id
       negb Interval_Z num_leb num_ltb num_eqb lnum unum]. lia.
Qed.

Lemma meet_point_sound (cur : Interval) (z : Z) :
  min_val cur <> None -> max_val cur <> None ->
  contains cur z = true -> contains (meet cur (Interval_Z z z)) z = true.
Proof.
  intros H1 H2 H.
  pose proof (contains_not_bottom _ _ H) as Hb.
  unfold contains, lo_num, hi_num in H. rewrite Hb in H.
  destruct cur as [[l|] [u|]]; simpl in H1, H2; try congruence.
  simpl in H. apply andb_prop in H. destruct H as [Hl Hu].
  unfold meet. rewrite Hb.
  destruct (is_top _); [apply contains_point |].
  cbn [is_bottom is_top orb Interval_Z min_val max_val both_or_None].
  rewrite (py_max_lower_point l z Hl), (py_min_upper_point u z Hu).
  replace (num_gtb (lnum (LFin z)) (unum (UFin z))) with false
    by (cbv [num_gtb num_ltb lnum unum]; lia).
  apply contains_point.
Qed.

Lemma split_nonzero_sound (cur : Interval) (lo : lower) (hi : upper) (z : Z) :
  min_val cur = Some lo -> max_val cur = Some hi ->
  contains cur z = true -> z <> 0 ->
  contains (split_nonzero cur lo hi) z = true.
Proof.
  intros Hlo Hhi H Hz. destruct cur as [mn mx]. simpl in Hlo, Hhi. subst mn mx.
  destruct lo, hi; bound_cases.
Qed.

Lemma refine_constant_sound (op : string) (t : Z) (cur r : Interval) (z : Z) :
  min_val cur <> None -> max_val cur <> None ->
  refine_constant op t cur = Some r ->
  contains cur z = true -> comparison_holds op z t = true ->
  contains r z = true.
Proof.
  unfold refine_constant, comparison_holds. intros H1 H2 Hr Hc Hop.
  destruct (String.eqb op "<");
    [injection Hr as <-; apply meet_upper_sound; [assumption .. | lia] |].
  destruct (String.eqb op "<=");
    [injection Hr as <-; apply meet_upper_sound; [assumption .. | lia] |].
  destruct (String.eqb op ">");
    [injection Hr as <-; apply meet_lower_sound; [assumption .. | lia] |].
  destruct (String.eqb op ">=");
    [injection Hr as <-; apply meet_lower_sound; [assumption .. | lia] |].
  destruct (String.eqb op "==").
  { injection Hr as <-. assert (z = t) as -> by lia.
    apply meet_point_sound; assumption. }
  destruct (String.eqb op "!="); [| discriminate Hr].
  destruct (t =? 0) eqn:Et; [| injection Hr as <-; exact Hc].
  destruct (min_val cur) as [lo|] eqn:Elo; [| injection Hr as <-; exact Hc].
  destruct (max_val cur) as [hi|] eqn:Ehi; [| injection Hr as <-; exact Hc].
  destruct (_ && _); injection Hr as <-; [| exact Hc].
  apply split_nonzero_sound; try assumption. lia.
Qed.

(** X20 (_process_condition, constant right operand): when the interval
    of the left variable has both bounds, its refinement keeps every
    value of the old interval for which the condition holds. *)
Theorem condition_keeps_satisfying_values (n : node) (c : condition)
    (x : variable) (k : cvalue) (t : Z) (cur : Interval) (st : analyzer) (z : Z) :
  expression n = Some c ->
  cond_left c = OVar x -> cond_right c = OConst k ->
  constant_threshold k = Some t ->
  _tracked_vars st !! x = Some cur ->
  min_val cur <> None -> max_val cur <> None ->
  contains cur z = true ->
  comparison_holds (cond_op c) z t = true ->
  exists r,
    _tracked_vars (_process_condition n st) !! x = Some r
    /\ contains r z = true.
Proof.
  intros He Hl Hr Ht Hx H1 H2 Hc Hop.
  unfold _process_condition. rewrite He, Hl, Hr, Ht. simpl tracked. rewrite Hx.
  destruct (refine_constant (cond_op c) t cur) as [r|] eqn:E;
    [| exists cur; split; assumption].
  destruct (negb (Interval_eq r cur)).
  - exists r. split; [apply lookup_track |].
    eapply refine_constant_sound; eassumption.
  - exists cur. split; assumption.
Qed.

Lemma condition_keeps_satisfying_values_witness :
  exists r,
    _tracked_vars
      (_process_condition
         (mk_node 0 [] [] true
            (Some (mk_condition "<" (OVar lib_x) (OConst (CInt 10)))))
         (track lib_x (Interval_Z 0 100) analyzer_init)) !! lib_x = Some r
    /\ contains r 4 = true.
Proof.
  eapply (condition_keeps_satisfying_values _ _ lib_x (CInt 10) 10
            (Interval_Z 0 100)); try reflexivity; discriminate.
Defined.

(** X21 (_process_condition, Interval.meet): refining an interval
    [[a, b]] by [x < t] leaves the variable without lower bound: the new
    interval is [(None, min(b, t - 1))], which contains every value up
    to that bound, also those below [a]. *)
Theorem less_than_drops_lower_bound (n : node) (c : condition)
    (x : variable) (k : cvalue) (t a b : Z) (st : analyzer) :
  expression n = Some c ->
  cond_op c = "<" ->
  cond_left c = OVar x -> cond_right c = OConst k ->
  constant_threshold k = Some t ->
  _tracked_vars st !! x = Some (Interval_Z a b) ->
  exists r,
    _tracked_vars (_process_condition n st) !! x = Some r
    /\ min_val r = None
    /\ forall z, contains r z = (z <=? b) && (z <? t).
Proof.
  intros He Ho Hl Hr Ht Hx.
  unfold _process_condition. rewrite He, Hl, Hr, Ht, Ho. simpl tracked.
  rewrite Hx.
  assert (Hm : refine_constant "<" t (Interval_Z a b)
               = Some (mk_Interval None (Some (UFin (Z.min b (t - 1)))))).
  { unfold refine_constant. cbn [String.eqb Ascii.eqb Bool.eqb]. f_equal.
    cbv [meet is_bottom is_top min_val max_val Interval_Z orb both_or_None
         py_min num_ltb unum]. f_equal. f_equal.
    destruct (t - 1 <? b) eqn:E; f_equal; lia. }
  rewrite Hm.
  assert (Hne : Interval_eq (mk_Interval None (Some (UFin (Z.min b (t - 1)))))
                  (Interval_Z a b) = false) by reflexivity.
  rewrite Hne. simpl negb. cbv iota.
  eexists. split; [apply lookup_track |]. split; [reflexivity |].
  intros z. cbv [contains lo_num hi_num is_bottom min_val max_val default
                 from_option id negb num_leb num_ltb num_eqb lnum unum].
  lia.
Qed.

Lemma less_than_drops_lower_bound_witness :
  exists r,
    _tracked_vars
      (_process_condition
         (mk_node 0 [] [] true
            (Some (mk_condition "<" (OVar lib_x) (OConst (CInt 10)))))
         (track lib_x (Interval_Z 0 100) analyzer_init)) !! lib_x = Some r
    /\ min_val r = None
    /\ forall z, contains r z = (z <=? 100) && (z <? 10).
Proof.
  eapply (less_than_drops_lower_bound _ _ lib_x (CInt 10) 10 0 100);
    reflexivity.
Defined.

Lemma process_constant_condition (n : node) (op : string) (x : variable)
    (t : Z) (cur r : Interval) (st : analyzer) :
  expression n = Some (mk_condition op (OVar x) (OConst (CInt t))) ->
  _tracked_vars st !! x = Some cur ->
  refine_constant op t cur = Some r ->
  Interval_eq r cur = false ->
  _process_condition n st = track x r st.
Proof.
  intros He Hx Hr Hne. unfold _process_condition. rewrite He. simpl.
  rewrite Hx, Hr, Hne. reflexivity.
Qed.

(** X22 (_process_condition, Interval.meet): two successive checks
    [x > t1] and [x < t2] on a variable tracked with an interval
    [[a, b]] leave the variable with the bottom interval, whatever the
    four numbers are: the first check removes the upper bound, and the
    meet of the second one finds no bound left on either side. *)
Theorem two_sided_check_gives_bottom (n1 n2 : node) (x : variable)
    (t1 t2 a b : Z) (st : analyzer) :
  expression n1 = Some (mk_condition ">" (OVar x) (OConst (CInt t1))) ->
  expression n2 = Some (mk_condition "<" (OVar x) (OConst (CInt t2))) ->
  _tracked_vars st !! x = Some (Interval_Z a b) ->
  _tracked_vars (_process_condition n2 (_process_condition n1 st)) !! x
  = Some Interval_empty.
Proof.
  intros H1 H2 Hx.
  set (m := py_max lnum (LFin a) (LFin (t1 + 1))).
  assert (Hm : exists k, m = LFin k).
  { unfold m, py_max. destruct (num_gtb _ _); eexists; reflexivity. }
  destruct Hm as (k & Hk).
  rewrite (process_constant_condition n1 ">" x t1 (Interval_Z a b)
             (mk_Interval (Some (LFin k)) None) st H1 Hx).
  - rewrite (process_constant_condition n2 "<" x t2
               (mk_Interval (Some (LFin k)) None) Interval_empty _ H2).
    + apply lookup_track.
    + apply lookup_track.
    + reflexivity.
    + reflexivity.
  - unfold refine_constant. cbn [String.eqb Ascii.eqb Bool.eqb].
    unfold meet. cbn [is_bottom is_top orb Interval_Z min_val max_val both_or_None].
    fold m. rewrite Hk. reflexivity.
  - unfold Interval_eq. cbn [is_bottom is_top Interval_Z min_val max_val
                             bound_eqb andb orb].
    apply andb_false_r.
Qed.

Lemma two_sided_check_gives_bottom_witness :
  _tracked_vars
    (_process_condition
       (mk_node 1 [] [] true
          (Some (mk_condition "<" (OVar lib_x) (OConst (CInt 10)))))
       (_process_condition
          (mk_node 0 [] [] true
             (Some (mk_condition ">" (OVar lib_x) (OConst (CInt 4)))))
          (track lib_x (Interval_Z 0 100) analyzer_init))) !! lib_x
  = Some Interval_empty.
Proof.
  apply (two_sided_check_gives_bottom _ _ lib_x 4 10 0 100); reflexivity.
Defined.

(** ** The bounds check *)

(** X23 (_check_bounds_violation, loop over the constraints): a reported
    violation names a bound of the interval that breaks a constraint of
    the table whose name occurs in the variable name; when nothing is
    reported, no such constraint is broken. *)
Theorem constraint_reports_are_justified (v : variable) (name : string)
    (cur : Interval) (cs : list (string * Z * Z)) :
  match check_constraints v name cur cs with
  | Some (MinViolation v' m cmin) =>
      v' = v /\ min_val cur = Some m /\ num_ltb (lnum m) (Fin cmin) = true
      /\ exists cname cmax,
           In (cname, cmin, cmax) cs /\ str_in cname name = true
  | Some (MaxViolation v' m cmax) =>
      v' = v /\ max_val cur = Some m /\ num_gtb (unum m) (Fin cmax) = true
      /\ exists cname cmin,
           In (cname, cmin, cmax) cs /\ str_in cname name = true
  | Some _ => False
  | None =>
      forall cname cmin cmax,
        In (cname, cmin, cmax) cs -> str_in cname name = true ->
        (forall m, min_val cur = Some m -> num_ltb (lnum m) (Fin cmin) = false)
        /\ (forall m, max_val cur = Some m -> num_gtb (unum m) (Fin cmax) = false)
  end.
Proof.
  induction cs as [|[[cname cmin] cmax] cs IH]; [intros ? ? ? [] |].
  cbn [check_constraints].
  destruct (str_in cname name) eqn:Hin.
  - destruct (min_val cur) as [m|] eqn:Emin.
    + destruct (num_ltb (lnum m) (Fin cmin)) eqn:Hlow.
      * repeat split; try assumption. exists cname, cmax.
        split; [left; reflexivity | exact Hin].
      * destruct (max_val cur) as [m'|] eqn:Emax.
        -- destruct (num_gtb (unum m') (Fin cmax)) eqn:Hhigh.
           ++ repeat split; try assumption. exists cname, cmin.
              split; [left; reflexivity | exact Hin].
           ++ destruct (check_constraints v name cur cs) as [[| | |]|];
                try exact IH.
              ** destruct IH as (? & ? & ? & n1 & n2 & ? & ?).
                 repeat split; try assumption. exists n1, n2.
                 split; [right; assumption | assumption].
              ** destruct IH as (? & ? & ? & n1 & n2 & ? & ?).
                 repeat split; try assumption. exists n1, n2.
                 split; [right; assumption | assumption].
              ** intros cn c1 c2 [[= <- <- <-] | H] Hn.
                 --- split; intros ? [= <-]; assumption.
                 --- eapply IH; eassumption.
        -- destruct (check_constraints v name cur cs) as [[| | |]|];
             try exact IH.
           ++ destruct IH as (? & ? & ? & n1 & n2 & ? & ?).
              repeat split; try assumption. exists n1, n2.
              split; [right; assumption | assumption].
           ++ destruct IH as (? & ? & ? & n1 & n2 & ? & ?). congruence.
           ++ intros cn c1 c2 [[= <- <- <-] | H] Hn.
              --- split; [intros ? [= <-]; assumption | intros ? [=]].
              --- eapply IH; eassumption.
    + destruct (max_val cur) as [m'|] eqn:Emax.
      * destruct (num_gtb (unum m') (Fin cmax)) eqn:Hhigh.
        -- repeat split; try assumption. exists cname, cmin.
           split; [left; reflexivity | exact Hin].
        -- destruct (check_constraints v name cur cs) as [[| | |]|];
             try exact IH.
           ++ destruct IH as (? & ? & ? & n1 & n2 & ? & ?). congruence.
           ++ destruct IH as (? & ? & ? & n1 & n2 & ? & ?).
              repeat split; try assumption. exists n1, n2.
              split; [right; assumption | assumption].
           ++ intros cn c1 c2 [[= <- <- <-] | H] Hn.
              --- split; [intros ? [=] | intros ? [= <-]; assumption].
              --- eapply IH; eassumption.
      * destruct (check_constraints v name cur cs) as [[| | |]|];
          try exact IH.
        -- destruct IH as (? & ? & ? & n1 & n2 & ? & ?). congruence.
        -- destruct IH as (? & ? & ? & n1 & n2 & ? & ?). congruence.
        -- intros cn c1 c2 [[= <- <- <-] | H] Hn.
           --- split; intros ? [=].
           --- eapply IH; eassumption.
  - destruct (check_constraints v name cur cs) as [[| | |]|]; try exact IH.
    + destruct IH as (? & ? & ? & n1 & n2 & ? & ?).
      repeat split; try assumption. exists n1, n2.
      split; [right; assumption | assumption].
    + destruct IH as (? & ? & ? & n1 & n2 & ? & ?).
      repeat split; try assumption. exists n1, n2.
      split; [right; assumption | assumption].
    + intros cn c1 c2 [[= <- <- <-] | H] Hn; [congruence |].
      eapply IH; eassumption.
Qed.
(** ** The messages of a run *)

Lemma issues_grow_refl (st : analyzer) : issues_grow st st.
Proof. exists []. symmetry. apply app_nil_r. Qed.

Lemma issues_grow_trans (a b c : analyzer) :
  issues_grow a b -> issues_grow b c -> issues_grow a c.
Proof.
  intros [m1 H1] [m2 H2]. exists (m1 ++ m2).
  rewrite H2, H1. symmetry. apply app_assoc.
Qed.

Lemma issues_same_grow (st st' : analyzer) :
  _potential_issues st' = _potential_issues st -> issues_grow st st'.
Proof. intros H. exists []. rewrite H. symmetry. apply app_nil_r. Qed.

Lemma issues_grow_add_issue (i : issue) (st : analyzer) :
  issues_grow st (add_issue i st).
Proof. exists [i]. reflexivity. Qed.

Lemma issues_grow_track (v : variable) (i : Interval) (st : analyzer) :
  issues_grow st (track v i st).
Proof. apply issues_same_grow. reflexivity. Qed.

Lemma issues_grow_mark_safemath (v : variable) (st : analyzer) :
  issues_grow st (mark_safemath v st).
Proof. apply issues_same_grow. reflexivity. Qed.

Lemma issues_grow_values (f : variable -> Interval -> Interval) (st : analyzer) :
  issues_grow st
    (set_tracked (map_imap (fun v i => Some (f v i)) (_tracked_vars st)) st).
Proof. apply issues_same_grow. reflexivity. Qed.

(** The elementary updates respect [issues_grow]. *)
Ltac issues_updates :=
  first [ exact issues_grow_refl | exact issues_grow_trans
        | exact issues_grow_track | exact issues_grow_add_issue
        | exact issues_grow_mark_safemath | exact issues_grow_values ].

Lemma fold_left_issues {A} (f : analyzer -> A -> analyzer) (l : list A) :
  (forall a x, _potential_issues (f a x) = _potential_issues a) ->
  forall a, _potential_issues (fold_left f l a) = _potential_issues a.
Proof.
  intros Hf. induction l as [|x l IH]; intros a; simpl; [reflexivity |].
  rewrite IH. apply Hf.
Qed.

Lemma issues_seed_function f st :
  _potential_issues (seed_function f st) = _potential_issues st.
Proof.
  unfold seed_function.
  rewrite !fold_left_issues; [reflexivity | | |]; intros a x.
  - unfold seed_parameter. repeat case_match; reflexivity.
  - unfold seed_rvalue. repeat case_match; reflexivity.
  - unfold seed_local. repeat case_match; reflexivity.
Qed.

Lemma issues_grow_analyze_function_worklist f :
  respects issues_grow (_analyze_function_worklist f).
Proof.
  unfold _analyze_function_worklist.
  apply (respects_bind _ issues_grow_trans).
  - apply respects_update. intros st. apply issues_same_grow, issues_seed_function.
  - intros _. apply (respects_bind _ issues_grow_trans);
      [apply frame_worklist_loop; issues_updates | intros ws].
    apply (respects_bind _ issues_grow_trans);
      [apply frame_narrowing; issues_updates | intros _].
    apply respects_update. intros st. apply issues_same_grow. reflexivity.
Qed.

Lemma issues_grow_analyze_function c results f :
  respects issues_grow (analyze_function c results f).
Proof.
  unfold analyze_function.
  destruct (_ || _); [apply (respects_ret _ issues_grow_refl) |].
  apply (respects_bind _ issues_grow_trans);
    [apply issues_grow_analyze_function_worklist | intros _].
  intros st r st' [= _ <-]. apply issues_grow_refl.
Qed.

Lemma issues_grow_analyze_contract results c :
  respects issues_grow (analyze_contract results c).
Proof.
  unfold analyze_contract.
  destruct (negb _); [apply (respects_ret _ issues_grow_refl) |].
  apply (respects_fold_M _ issues_grow_refl issues_grow_trans).
  intros s x. apply issues_grow_analyze_function.
Qed.

(** A property of the accumulator of a loop that every round keeps holds
    at the end. *)
Lemma fold_M_invariant {A S} (P : S -> Prop) (body : S -> A -> M S) (xs : list A) :
  (forall s x st s' st', P s -> body s x st = Ok s' st' -> P s') ->
  forall s st r st', P s -> fold_M body xs s st = Ok r st' -> P r.
Proof.
  intros Hb. induction xs as [|x xs IH]; intros s st r st' Hs; simpl.
  - intros [= <- _]. exact Hs.
  - unfold bind. destruct (body s x st) as [s1 st1|e] eqn:E; [| discriminate].
    apply IH. eapply Hb; eassumption.
Qed.

Lemma collect_violations_kind c f st :
  forallb is_violation (collect_violations c f st) = true.
Proof.
  unfold collect_violations.
  induction (_tracked_items st) as [|e l IH]; simpl; [reflexivity |].
  destruct (_check_bounds_violation e.1 st); simpl; exact IH.
Qed.

Lemma analyze_function_kind c results f st r st' :
  forallb is_violation results = true ->
  analyze_function c results f st = Ok r st' ->
  forallb is_violation r = true.
Proof.
  intros Hr. unfold analyze_function.
  destruct (_ || _); [intros [= <- _]; exact Hr |].
  unfold bind. destruct (_analyze_function_worklist f st) as [[] st1|e];
    [| discriminate].
  intros [= <- _]. rewrite forallb_app, Hr. apply collect_violations_kind.
Qed.

Lemma analyze_contract_kind results c st r st' :
  forallb is_violation results = true ->
  analyze_contract results c st = Ok r st' ->
  forallb is_violation r = true.
Proof.
  intros Hr. unfold analyze_contract.
  destruct (negb _); [intros [= <- _]; exact Hr |].
  apply (fold_M_invariant (fun s => forallb is_violation s = true)); [| exact Hr].
  intros s x st0 s' st0' Hs. apply analyze_function_kind, Hs.
Qed.

(** X24 (analyze): the list returned by a run is made of the violations
    of the bounds, followed by every message of [_potential_issues]:
    those recorded during the run and, before them, those the analyzer
    held when the run started.  No step of a run removes a message. *)
Theorem analyze_reports_every_issue (cu : compilation_unit) (st st' : analyzer)
    (results : list result) :
  analyze cu st = Ok results st' ->
  exists violations more,
    results = violations ++ map IssueResult (_potential_issues st ++ more)
    /\ forallb is_violation violations = true
    /\ _potential_issues st' = _potential_issues st ++ more.
Proof.
  unfold analyze, bind.
  destruct (fold_M analyze_contract (contracts_derived cu) [] st)
    as [violations st1|e] eqn:E; [| discriminate].
  intros [= <- <-].
  assert (Hg : issues_grow st st1).
  { apply (respects_fold_M _ issues_grow_refl issues_grow_trans) in E;
      [exact E | intros s x; apply issues_grow_analyze_contract]. }
  destruct Hg as [more Hmore].
  exists violations, more. rewrite Hmore. split; [reflexivity |].
  split; [| reflexivity].
  apply (fold_M_invariant (fun s => forallb is_violation s = true)) in E;
    [exact E | | reflexivity].
  intros s x st0 s' st0' Hs. apply analyze_contract_kind, Hs.
Qed.

Lemma analyze_reports_every_issue_witness :
  exists results st',
    analyze counter_unit (add_issue DivZeroError analyzer_init) = Ok results st'
    /\ exists violations more,
         results = violations ++ map IssueResult ([DivZeroError] ++ more)
         /\ forallb is_violation violations = true
         /\ _potential_issues st' = [DivZeroError] ++ more.
Proof.
  destruct (analyze counter_unit (add_issue DivZeroError analyzer_init))
    as [results st'|e] eqn:E.
  - exists results, st'. split; [reflexivity |].
    apply (analyze_reports_every_issue _ _ _ _ E).
  - vm_compute in E. discriminate E.
Defined.

(** X25 (analyze, _is_defi_contract): when no contract of the unit is
    taken for a DeFi contract, a run analyzes nothing: it leaves the
    analyzer as it was and returns only the messages already held. *)
Theorem analyze_skips_other_contracts (cu : compilation_unit) (st : analyzer) :
  Forall (fun c => _is_defi_contract c = false) (contracts_derived cu) ->
  analyze cu st = Ok (map IssueResult (_potential_issues st)) st.
Proof.
  intros H. unfold analyze, bind.
  assert (Hf : forall acc,
             fold_M analyze_contract (contracts_derived cu) acc st = Ok acc st).
  { induction H as [|c cs Hc Hcs IH]; intros acc; simpl; [reflexivity |].
    unfold bind, analyze_contract. rewrite Hc. simpl. apply IH. }
  rewrite Hf. reflexivity.
Qed.

Lemma analyze_skips_other_contracts_witness :
  analyze (mk_compilation_unit [mk_contract "Ownable" [counter_function] [] [] None None])
    analyzer_init
  = Ok (map IssueResult (_potential_issues analyzer_init)) analyzer_init.
Proof.
  apply analyze_skips_other_contracts.
  repeat constructor.
Defined.
(** ** The worklist analysis of a function *)








Lemma differs_irrefl (t : Q) (i : Interval) : (0 <= t)%Q -> ~ differs t i i.
Proof.
  intros H Hd.
  assert (Hz : forall x, ~ (t < inject_Z (Z.abs (x - x)))%Q).
  { intros x Hx. rewrite Z.sub_diag in Hx. exact (Qlt_not_le _ _ Hx H). }
  destruct Hd as [Hd | Hd | x y Ho Hn Hd | x y Ho Hn Hd | Hd | Hd | x Hd | x Hd];
    try (apply Hd; reflexivity).
  - assert (x = y) by congruence. subst y. exact (Hz x Hd).
  - assert (x = y) by congruence. subst y. exact (Hz x Hd).
  - destruct Hd as [[Ho Hn] | [Ho Hn]]; congruence.
  - destruct Hd as [[Ho Hn] | [Ho Hn]]; congruence.
Qed.

(** X27 (_state_changed): with a threshold that is not negative, a state
    is not reported as changed with respect to a pre-state that maps the
    same variable objects to the same intervals; the comparison raises
    nothing, whatever the size of the bounds. *)
Theorem unchanged_state_not_detected (t : Q) (st : analyzer) :
  (0 <= t)%Q ->
  _state_changed (kmap Var (_tracked_vars st)) t st = Ok false st.
Proof.
  intros H. unfold _state_changed. apply any_M_false.
  intros [v i] Hin. apply tracks_lookup in Hin.
  unfold var_changed. cbn [fst snd].
  rewrite (lookup_kmap Var), Hin.
  apply interval_changed_steady, differs_irrefl, H.
Qed.

Lemma unchanged_state_not_detected_witness :
  _state_changed (kmap Var (_tracked_vars library_state)) default_threshold
    library_state
  = Ok false library_state.
Proof.
  apply unchanged_state_not_detected. discriminate.
Defined.


(** ** The summary of a function *)

Lemma same_summaries_refl (st : analyzer) : same_summaries st st.
Proof. reflexivity. Qed.

Lemma same_summaries_trans (a b c : analyzer) :
  same_summaries a b -> same_summaries b c -> same_summaries a c.
Proof. unfold same_summaries. congruence. Qed.

Lemma same_summaries_track (v : variable) (i : Interval) (st : analyzer) :
  same_summaries st (track v i st).
Proof. reflexivity. Qed.

Lemma same_summaries_add_issue (i : issue) (st : analyzer) :
  same_summaries st (add_issue i st).
Proof. reflexivity. Qed.

Lemma same_summaries_mark_safemath (v : variable) (st : analyzer) :
  same_summaries st (mark_safemath v st).
Proof. reflexivity. Qed.

Lemma same_summaries_values (f : variable -> Interval -> Interval) (st : analyzer) :
  same_summaries st
    (set_tracked (map_imap (fun v i => Some (f v i)) (_tracked_vars st)) st).
Proof. reflexivity. Qed.

(** The elementary updates that the handlers and the loops are made of
    leave the summaries alone. *)
Ltac summaries_updates :=
  first [ exact same_summaries_refl | exact same_summaries_trans
        | exact same_summaries_track | exact same_summaries_add_issue
        | exact same_summaries_mark_safemath | exact same_summaries_values ].

Lemma fold_left_summaries {A} (f : analyzer -> A -> analyzer) (l : list A) :
  (forall a x, _function_summaries (f a x) = _function_summaries a) ->
  forall a, _function_summaries (fold_left f l a) = _function_summaries a.
Proof.
  intros Hf. induction l as [|x l IH]; intros a; simpl; [reflexivity |].
  rewrite IH. apply Hf.
Qed.

Lemma summaries_seed_function f st :
  _function_summaries (seed_function f st) = _function_summaries st.
Proof.
  unfold seed_function.
  rewrite !fold_left_summaries; [reflexivity | | |]; intros a x.
  - unfold seed_parameter. repeat case_match; reflexivity.
  - unfold seed_rvalue. repeat case_match; reflexivity.
  - unfold seed_local. repeat case_match; reflexivity.
Qed.

(** X28 (_analyze_function_worklist): the analysis of a function changes
    [_function_summaries] in one place only: at the end it stores the
    summary of the function under its key.  The summary lists every
    parameter and every return variable with the interval tracked at the
    end, and the bottom interval for a variable that is not tracked;
    the summaries of the other functions stay as they were. *)
Theorem summary_of_analyzed_function (f : function) (st st' : analyzer) :
  _analyze_function_worklist f st = Ok tt st' ->
  let entry v := (v, default Interval_empty (_tracked_vars st' !! v)) in
  _function_summaries st'
  = <[ f_id f := mk_summary (map entry (parameters f)) (map entry (returns f)) ]>
      (_function_summaries st).
Proof.
  unfold _analyze_function_worklist, bind at 1, update at 1.
  unfold bind at 1.
  destruct (worklist_loop _ _ _ _) as [ws st1|e] eqn:E1; [| discriminate].
  unfold bind at 1.
  destruct (narrowing _ _ _ _) as [[] st2|e] eqn:E2; [| discriminate].
  unfold update. intros [= <-]. simpl.
  apply (frame_worklist_loop same_summaries) in E1; try summaries_updates.
  apply (frame_narrowing same_summaries) in E2; try summaries_updates.
  unfold same_summaries in E1, E2.
  rewrite E2, E1, summaries_seed_function. reflexivity.
Qed.

Lemma summary_of_analyzed_function_witness :
  exists st',
    _analyze_function_worklist counter_function analyzer_init = Ok tt st'
    /\ _function_summaries st'
       = <[ f_id counter_function :=
              mk_summary
                (map (fun v => (v, default Interval_empty (_tracked_vars st' !! v)))
                   (parameters counter_function))
                (map (fun v => (v, default Interval_empty (_tracked_vars st' !! v)))
                   (returns counter_function)) ]>
           (_function_summaries analyzer_init).
Proof.
  destruct (_analyze_function_worklist counter_function analyzer_init)
    as [[] st'|e] eqn:E.
  - exists st'. split; [reflexivity |].
    apply (summary_of_analyzed_function _ _ _ E).
  - vm_compute in E. discriminate E.
Defined.

(** ** The instructions that can raise *)














